(** * Nanite-WebGPU: LOD-DAG construction, occlusion test and draw-list layout

    A shallow embedding of the meshlet hierarchy builder
    ([createNaniteMeshlets]), of the drawn-meshlets buffer helpers and of the
    occlusion-culling predicate, together with the properties the
    specification states about them.

    Conventions of the embedding.
    - JavaScript numbers that carry errors and ratios are modelled by
      [number]: exact rationals extended with [+Infinity], [-Infinity] and
      [NaN].  The special values behave as in IEEE-754; rounding of finite
      values is not modelled.
    - [MeshletWIP] objects are shared between [allMeshlets], the list of the
      current level and the [createdFrom] arrays, and they are mutated in
      place.  The embedding keeps one store (the [allMeshlets] array) and
      represents every reference to a meshlet by its position in that store.
    - The WebAssembly collaborators (clusterer, simplifier, graph
      partitioner, bounds calculator) are section variables, and so are the
      helpers whose module is not at hand ([listAllEdges],
      [findBoundaryEdges], [calculateTargetIndexCount]).
    - [async] functions run their body up to the first [await] at once, so
      the meshlets of [Promise.all(meshletsIndices.map(createMeshletWip))]
      are created in array order; the embedding is sequential.
    - Progress reporting ([estimateFinalMeshletCount], [progressCb]), the
      final [console.log] and [metisFreeAllocations] do not touch the
      meshlets and are left out. *)

From Stdlib Require Import QArith Qround Qabs Lqa ZArith String DecimalString.
From stdpp Require Import base list gmap.

Local Open Scope nat_scope.
Local Open Scope list_scope.

(** ** JavaScript numbers *)

Module JsNumber.

Inductive number : Type :=
| Fin (q : Q)
| PInf
| NInf
| NaN.

Definition Infinity : number := PInf.

Definition of_nat (n : nat) : number := Fin (inject_Z (Z.of_nat n)).

Definition add (a b : number) : number :=
  match a, b with
  | NaN, _ | _, NaN => NaN
  | Fin x, Fin y => Fin (x + y)
  | PInf, NInf | NInf, PInf => NaN
  | PInf, _ | _, PInf => PInf
  | NInf, _ | _, NInf => NInf
  end.

Definition Qsign (q : Q) : comparison := (q ?= 0)%Q.

Definition signed_inf (positive : bool) : number :=
  if positive then PInf else NInf.

Definition mul (a b : number) : number :=
  match a, b with
  | NaN, _ | _, NaN => NaN
  | Fin x, Fin y => Fin (x * y)
  | Fin x, PInf | PInf, Fin x =>
      match Qsign x with Eq => NaN | Gt => PInf | Lt => NInf end
  | Fin x, NInf | NInf, Fin x =>
      match Qsign x with Eq => NaN | Gt => NInf | Lt => PInf end
  | PInf, PInf | NInf, NInf => PInf
  | PInf, NInf | NInf, PInf => NInf
  end.

Definition div (a b : number) : number :=
  match a, b with
  | NaN, _ | _, NaN => NaN
  | Fin x, Fin y =>
      match Qsign y with
      | Eq => match Qsign x with Eq => NaN | Gt => PInf | Lt => NInf end
      | _ => Fin (x / y)
      end
  | Fin _, (PInf | NInf) => Fin 0
  | PInf, Fin y => signed_inf (negb (match Qsign y with Lt => true | _ => false end))
  | NInf, Fin y => signed_inf (match Qsign y with Lt => true | _ => false end)
  | (PInf | NInf), (PInf | NInf) => NaN
  end.

(** [a > b]; every comparison with [NaN] is false. *)
Definition gt (a b : number) : bool :=
  match a, b with
  | NaN, _ | _, NaN => false
  | Fin x, Fin y => negb (Qle_bool x y)
  | PInf, (Fin _ | NInf) => true
  | Fin _, NInf => true
  | _, _ => false
  end.

(** [a >= b]. *)
Definition ge (a b : number) : bool :=
  match a, b with
  | NaN, _ | _, NaN => false
  | Fin x, Fin y => Qle_bool y x
  | PInf, _ => true
  | _, NInf => true
  | _, _ => false
  end.

Definition max2 (a b : number) : number :=
  match a, b with
  | NaN, _ | _, NaN => NaN
  | _, _ => if gt b a then b else a
  end.

(** [Math.max(...xs)]: [-Infinity] for no argument. *)
Definition Math_max (xs : list number) : number := foldl max2 NInf xs.

End JsNumber.

Import JsNumber.

(** ** Constants (constants.ts and the head of the builder module) *)

Definition VERTS_IN_TRIANGLE : nat := 3.
Definition BYTES_U32 : nat := 4.
Definition BYTES_UVEC2 : nat := BYTES_U32 * 2.

Definition MAX_LODS : nat := 20.
Definition GROUP_SIZE : nat := 4.
(** [CONFIG.nanite.preprocess.simplificationDecimateFactor] *)
Definition DECIMATE_FACTOR : nat := 2.
(** [CONFIG.nanite.preprocess.simplificationFactorRequirement] *)
Definition SIMPLIFICATION_FACTOR_REQ : number := Fin (97 # 100).
Definition TARGET_SIMPLIFY_ERROR : number := Fin (5 # 100).

(** ** Data model *)

Abbreviation Indices := (list nat) (only parsing).
Abbreviation Edge := (nat * nat)%type (only parsing).

Record BoundingSphere := mkSphere {
  center : Q * Q * Q;
  radius : Q
}.

Record ParsedMesh := mkMesh {
  positions : list Q;
  vertexCount : nat
}.

(** A reference to a [MeshletWIP] object: its position in [allMeshlets]. *)
Abbreviation Ref := nat (only parsing).

Record MeshletWIP := mkWip {
  id : nat;
  createdFrom : list Ref;
  lodLevel : nat;
  indices : Indices;
  boundaryEdges : list Edge;
  maxSiblingsError : number;
  sharedSiblingsBounds : BoundingSphere;
  parentError : number;
  parentBounds : option BoundingSphere
}.

Definition isWIP_Root (m : MeshletWIP) : bool :=
  match parentBounds m with None => true | Some _ => false end.

Record SimplifiedMesh := mkSimplified {
  indexBuffer : Indices;
  error : number;
  errorScale : number
}.

(** [getTriangleCount] for an index array. *)
Definition getTriangleCount (idx : Indices) : number :=
  div (of_nat (length idx)) (of_nat VERTS_IN_TRIANGLE).

(** ** Adjacency between meshlets (edgesUtils.ts) *)

Module Adjacency.

(** Modelled from the spec: edgesUtils.ts is missing from the sources; the
    adjacency graph gives, for every meshlet, its neighbours with the number
    of shared boundary edges, neighbours in increasing order. *)
Definition t : Type := list (list (nat * nat)).

(** Modelled from the spec: edgesUtils.ts is missing from the sources; an
    edge is an undirected vertex-index pair, so two edges are the same when
    they join the same two vertices. *)
Definition isSameEdge (e f : Edge) : bool :=
  bool_decide (e = f) || bool_decide (e = (f.2, f.1)).

(** Modelled from the spec: edgesUtils.ts is missing from the sources; the
    number of boundary edges of [es] that [fs] has too, found by comparing
    the edges pair by pair. *)
Definition countSharedEdges (es fs : list Edge) : nat :=
  length (List.filter (λ e, existsb (isSameEdge e) fs) es).

(** Modelled from the spec: edgesUtils.ts is missing from the sources; the
    neighbours of meshlet [i], whose boundary edges are [es]: every other
    meshlet that shares an edge with it. *)
Definition adjacentOf_Iter (bes : list (list Edge)) (i : nat) (es : list Edge)
  : list (nat * nat) :=
  omap (λ j,
          if decide (j = i) then None
          else
            let w := countSharedEdges es (default [] (bes !! j)) in
            if decide (w = 0) then None else Some (j, w))
       (seq 0 (length bes)).

(** Modelled from the spec: edgesUtils.ts is missing from the sources; the
    pairwise strategy: two clusters are linked with weight = number of shared
    boundary edges. *)
Definition findAdjacentMeshlets_Iter (bes : list (list Edge)) : t :=
  imap (adjacentOf_Iter bes) bes.

(** Modelled from the spec: edgesUtils.ts is missing from the sources; the
    key under which an undirected edge is hashed. *)
Definition edgeKey (e : Edge) : nat * nat := (e.1 `min` e.2, e.1 `max` e.2).

(** Modelled from the spec: edgesUtils.ts is missing from the sources;
    meshlet [i] is recorded once among the owners of the edge. *)
Definition addOwner (i : nat) (m : gmap (nat * nat) (list nat)) (e : Edge)
  : gmap (nat * nat) (list nat) :=
  let owners := default [] (m !! edgeKey e) in
  if decide (i ∈ owners) then m else <[edgeKey e := owners ++ [i]]> m.

(** Modelled from the spec: edgesUtils.ts is missing from the sources; all
    boundary edges of one meshlet go into the map. *)
Definition addMeshlet (m : gmap (nat * nat) (list nat)) (ies : nat * list Edge)
  : gmap (nat * nat) (list nat) :=
  foldl (addOwner ies.1) m ies.2.

(** Modelled from the spec: edgesUtils.ts is missing from the sources; the
    hash map from an edge to the meshlets that have it on their boundary. *)
Definition buildEdgeMap (bes : list (list Edge)) : gmap (nat * nat) (list nat) :=
  foldl addMeshlet ∅ (imap pair bes).

(** Modelled from the spec: edgesUtils.ts is missing from the sources; one
    more edge shared with meshlet [j]. *)
Definition bump (i : nat) (c : gmap nat nat) (j : nat) : gmap nat nat :=
  if decide (j = i) then c else <[j := S (default 0 (c !! j))]> c.

(** Modelled from the spec: edgesUtils.ts is missing from the sources; for
    meshlet [i], how many of its edges each other meshlet owns too. *)
Definition sharedCounts (m : gmap (nat * nat) (list nat)) (i : nat)
  (es : list Edge) : gmap nat nat :=
  foldl (λ c e, foldl (bump i) c (default [] (m !! edgeKey e))) ∅ es.

(** Modelled from the spec: edgesUtils.ts is missing from the sources; the
    neighbours of meshlet [i] read off the counters. *)
Definition adjacentOf_Map (m : gmap (nat * nat) (list nat)) (n i : nat)
  (es : list Edge) : list (nat * nat) :=
  omap (λ j, pair j <$> sharedCounts m i es !! j) (seq 0 n).

(** Modelled from the spec: edgesUtils.ts is missing from the sources; the
    hashed strategy: every boundary edge is looked up in a map from edges to
    the clusters that own them. *)
Definition findAdjacentMeshlets_Map (bes : list (list Edge)) : t :=
  let m := buildEdgeMap bes in
  imap (adjacentOf_Map m (length bes)) bes.

End Adjacency.

(** ** The construction monad: state and exceptions *)

(** What can be thrown: a [SimplificationError], which like every [Error]
    object holds the message its constructor built, or the [TypeError] of
    reading a property of [undefined]. *)
Inductive Error : Type :=
| SimplificationError (message : string)
| TypeError.

(** One [console.warn] of a stalled group: the level and the triangle counts
    handed to the message. *)
Record Warning := mkWarning {
  warn_lodLevel : nat;
  warn_trianglesBefore : number;
  warn_trianglesAfter : number
}.

Record State := mkState {
  NEXT_MESHLET_ID : nat;
  allMeshlets : list MeshletWIP;
  console : list Warning
}.

Inductive Result (A : Type) : Type :=
| Ok (a : A)
| Throw (e : Error).
Arguments Ok {A} a.
Arguments Throw {A} e.

Definition M (A : Type) : Type := State → Result (A * State).

Definition ret {A} (a : A) : M A := λ st, Ok (a, st).

Definition bind {A B} (c : M A) (k : A → M B) : M B :=
  λ st, match c st with
        | Ok (a, st') => k a st'
        | Throw e => Throw e
        end.

Definition throw {A} (e : Error) : M A := λ _, Throw e.

Notation "'let*' x ':=' c 'in' k" := (bind c (λ x, k))
  (at level 10, x name, c at level 100, k at level 200).
Notation "'exec' c 'in' k" := (bind c (λ _, k))
  (at level 10, c at level 100, k at level 200).

Fixpoint forM {A B} (f : A → M B) (xs : list A) : M (list B) :=
  match xs with
  | [] => ret []
  | x :: xs' => let* y := f x in let* ys := forM f xs' in ret (y :: ys)
  end.

(** Reading a property of an [undefined] value raises a [TypeError]. *)
Definition deref (r : option Ref) : M MeshletWIP :=
  λ st, match r with
        | Some i =>
            match allMeshlets st !! i with
            | Some m => Ok (m, st)
            | None => Throw TypeError
            end
        | None => Throw TypeError
        end.

Definition console_warn (w : Warning) : M unit :=
  λ st, Ok (tt, mkState (NEXT_MESHLET_ID st) (allMeshlets st) (console st ++ [w])).

(** A number printed in decimal, as a template literal does. *)
Definition nat_to_string (n : nat) : string :=
  NilEmpty.string_of_uint (Nat.to_uint n).

(** [SimplificationError]'s message, built from its two arguments. *)
Definition SimplificationError_message (lodLevel vertexCount : nat) : string :=
  ("Failed to simplify the mesh. Was not able to simplify beyond LOD level "
   ++ nat_to_string lodLevel
   ++ ". This usually happens if you have duplicated vertices ("
   ++ nat_to_string vertexCount
   ++ ", should roughly match Blender's). One cause could be a flat shading or tons of UV islands.")%string.

(** [new SimplificationError(lodLevel, vertexCount)] *)
Definition new_SimplificationError (lodLevel vertexCount : nat) : Error :=
  SimplificationError (SimplificationError_message lodLevel vertexCount).

Definition get : M State := λ st, Ok (st, st).

Definition lift {A} (r : Result A) : M A :=
  λ st, match r with Ok a => Ok (a, st) | Throw e => Throw e end.

(** ** Splitting an index buffer into meshlets (createMeshlets.ts) *)

Module Meshopt.

(** A meshlet as meshoptimizer describes it.  Its cone and sphere are not
    read by the hierarchy builder and are left out. *)
Record meshopt_Meshlet := mkMeshlet {
  vertexOffset : nat;
  vertexCount : nat;
  triangleOffset : nat;
  triangleCount : nat
}.

Record meshopt_Meshlets := mkMeshlets {
  meshlets : list meshopt_Meshlet;
  meshletVertices : list nat;
  meshletTriangles : list nat
}.

(** Rewrite meshlet indices to point to the original vertex buffer.  A read
    past the end of a typed array is [undefined], which the final copy into a
    [Uint32Array] stores as 0. *)
Definition meshletIndicesWithOriginalVertexBuffer
  (ms : list meshopt_Meshlet) (verts tris : list nat) : list nat :=
  concat
    (map (λ m,
            map (λ j,
                   let o := triangleOffset m + j in
                   default 0
                     (match tris !! o with
                      | Some v => verts !! (vertexOffset m + v)
                      | None => None
                      end))
                (seq 0 (triangleCount m * VERTS_IN_TRIANGLE)))
         ms).

(** [(x * 3 + 3) & ~3] *)
Definition alignedTriangleBytes (triangleCount : nat) : nat :=
  Z.to_nat (Z.land (Z.of_nat (triangleCount * 3 + 3)) (Z.lnot 3)).

Section CreateMeshlets.

(** The WebAssembly call [meshopt_buildMeshlets] with the decoding of its raw
    output: the meshlet descriptors, [meshletVertices], [meshletTriangles]. *)
Variable meshopt_buildMeshlets :
  ParsedMesh → Indices → list meshopt_Meshlet * list nat * list nat.

Definition createMeshlets (parsedMesh : ParsedMesh) (idx : Indices)
  : Result meshopt_Meshlets :=
  let '(ms, verts, tris) := meshopt_buildMeshlets parsedMesh idx in
  match last ms with
  | None => Throw TypeError (* [meshlets.at(-1)!.vertexOffset] *)
  | Some lastMeshlet =>
      let lastVertexIdx := vertexOffset lastMeshlet + vertexCount lastMeshlet in
      let lastTriangleIdx :=
        triangleOffset lastMeshlet
        + alignedTriangleBytes (triangleCount lastMeshlet) in
      let meshletTrianglesU32 :=
        map (λ i, default 0 (tris !! i)) (seq 0 lastTriangleIdx) in
      Ok (mkMeshlets ms (take lastVertexIdx verts)
            (meshletIndicesWithOriginalVertexBuffer ms verts meshletTrianglesU32))
  end.

End CreateMeshlets.

Fixpoint splitIndicesFrom (nextIdx : nat) (ms : list meshopt_Meshlet)
  (tris : list nat) : list Indices :=
  match ms with
  | [] => []
  | m :: ms' =>
      let vertexCount := triangleCount m * VERTS_IN_TRIANGLE in
      let firstIndex := nextIdx in
      take vertexCount (drop firstIndex tris)
        :: splitIndicesFrom (nextIdx + vertexCount) ms' tris
  end.

Definition splitIndicesPerMeshlets (m : meshopt_Meshlets) : list Indices :=
  splitIndicesFrom 0 (meshlets m) (meshletTriangles m).

End Meshopt.

(** ** The hierarchy builder (createNaniteMeshlets) *)

Definition assignParent (totalError : number) (bounds : BoundingSphere)
  (m : MeshletWIP) : MeshletWIP :=
  mkWip (id m) (createdFrom m) (lodLevel m) (indices m) (boundaryEdges m)
    (maxSiblingsError m) (sharedSiblingsBounds m) totalError (Some bounds).

Definition assignAll (totalError : number) (bounds : BoundingSphere)
  (group : list Ref) (store : list MeshletWIP) : list MeshletWIP :=
  foldl (λ store r, alter (assignParent totalError bounds) r store) store group.

(** [childMeshletGroup.forEach(child => { child.parentError = ...;
    child.parentBounds = ... })] on the shared store. *)
Definition assignParents (totalError : number) (bounds : BoundingSphere)
  (group : list Ref) : M unit :=
  λ st,
    Ok (tt,
        mkState (NEXT_MESHLET_ID st)
          (assignAll totalError bounds group (allMeshlets st))
          (console st)).

(** [NEXT_MESHLET_ID = 0] and the fresh local [allMeshlets]. *)
Definition resetSession : M unit :=
  λ st, Ok (tt, mkState 0 [] (console st)).

(** [mergeMeshlets]: all indices of the group, copied one by one. *)
Definition mergeMeshlets (meshletGroup : list MeshletWIP) : Indices :=
  concat (map indices meshletGroup).

Section Builder.

Variable meshopt_buildMeshlets :
  ParsedMesh → Indices →
  list Meshopt.meshopt_Meshlet * list nat * list nat.
Variable listAllEdges : Indices → list Edge.
Variable findBoundaryEdges : list Edge → list Edge.
Variable calculateBounds : list Q → Indices → BoundingSphere.
Variable calculateTargetIndexCount : nat → nat → nat.
(** [simplifyMesh(parsedMesh, indices, {targetIndexCount, targetError:
    TARGET_SIMPLIFY_ERROR, lockBorders: true})] *)
Variable simplifyMesh : ParsedMesh → Indices → nat → SimplifiedMesh.
Variable partitionGraph : Adjacency.t → nat → list (list nat).
(** [CONFIG.nanite.preprocess.useMapToFindAdjacentEdges] *)
Variable useMapToFindAdjacentEdges : bool.

Definition findAdjacentMeshlets : list (list Edge) → Adjacency.t :=
  if useMapToFindAdjacentEdges
  then Adjacency.findAdjacentMeshlets_Map
  else Adjacency.findAdjacentMeshlets_Iter.

Variable parsedMesh : ParsedMesh.

Definition createMeshletWip (lodLevel : nat) (idx : Indices)
  (simplificationError : number) (createdFrom : list Ref)
  (sharedSiblingsBounds : BoundingSphere) : M Ref :=
  λ st,
    let edges := listAllEdges idx in
    let boundaryEdges := findBoundaryEdges edges in
    let m :=
      {| id := NEXT_MESHLET_ID st;
         indices := idx;
         boundaryEdges := boundaryEdges;
         maxSiblingsError := simplificationError;
         parentError := Infinity;
         sharedSiblingsBounds := sharedSiblingsBounds;
         parentBounds := None;
         lodLevel := lodLevel;
         createdFrom := createdFrom |} in
    Ok (length (allMeshlets st),
        mkState (NEXT_MESHLET_ID st + 1) (allMeshlets st ++ [m]) (console st)).

Definition splitIntoMeshlets (lodLevel : nat) (idx : Indices)
  (simplificationError : number) (createdFrom : list Ref)
  (sharedSiblingsBounds : BoundingSphere) : M (list Ref) :=
  let* meshletsOpt :=
    lift (Meshopt.createMeshlets meshopt_buildMeshlets parsedMesh idx) in
  let meshletsIndices := Meshopt.splitIndicesPerMeshlets meshletsOpt in
  forM (λ idx', createMeshletWip lodLevel idx' simplificationError createdFrom
                  sharedSiblingsBounds)
       meshletsIndices.

(** Whether the simplifier reduced the group too little. *)
Definition isStalled (megaMeshlet : Indices) (simplifiedMesh : SimplifiedMesh)
  : bool :=
  let trianglesBefore := getTriangleCount megaMeshlet in
  let trianglesAfter := getTriangleCount (indexBuffer simplifiedMesh) in
  let simplificationFactor := div trianglesAfter trianglesBefore in
  gt simplificationFactor SIMPLIFICATION_FACTOR_REQ.

(** The body of [for (const childMeshletGroup of partitioned)]: the new
    meshlets of the group, none when the group stalls. *)
Definition processGroup (lodLevel : nat) (partitionedLength : nat)
  (childMeshletGroup : list (option Ref)) : M (list Ref) :=
  let* children := forM deref childMeshletGroup in
  let group := omap (λ r, r) childMeshletGroup in
  let megaMeshlet := mergeMeshlets children in
  let targetIndexCount :=
    calculateTargetIndexCount (length megaMeshlet) DECIMATE_FACTOR in
  let simplifiedMesh := simplifyMesh parsedMesh megaMeshlet targetIndexCount in
  if isStalled megaMeshlet simplifiedMesh then
    exec console_warn
           (mkWarning lodLevel (getTriangleCount megaMeshlet)
              (getTriangleCount (indexBuffer simplifiedMesh))) in
    ret []
  else
    let errorNow := mul (error simplifiedMesh) (errorScale simplifiedMesh) in
    let childrenError := Math_max (map maxSiblingsError children) in
    let totalError := add errorNow childrenError in
    let bounds := calculateBounds (positions parsedMesh) megaMeshlet in
    let* newMeshlets :=
      (if decide (partitionedLength = 1) then
         let* rootMeshlet :=
           createMeshletWip lodLevel (indexBuffer simplifiedMesh) totalError
             group bounds in
         ret [rootMeshlet]
       else
         splitIntoMeshlets lodLevel (indexBuffer simplifiedMesh) totalError
           group bounds) in
    exec assignParents totalError bounds group in
    ret newMeshlets.

(** The groups of one level run in order; [newlyCreatedMeshlets] collects
    what they create. *)
Fixpoint processGroups (lodLevel : nat) (partitionedLength : nat)
  (groups : list (list (option Ref))) : M (list Ref) :=
  match groups with
  | [] => ret []
  | g :: groups' =>
      let* newMeshlets := processGroup lodLevel partitionedLength g in
      let* rest := processGroups lodLevel partitionedLength groups' in
      ret (newMeshlets ++ rest)
  end.

(** [Math.ceil(currentMeshlets.length / GROUP_SIZE)] *)
Definition nparts (currentMeshlets : list Ref) : nat :=
  (length currentMeshlets + GROUP_SIZE - 1) / GROUP_SIZE.

(** Step 1 of a level: groups of meshlets.  An index the partitioner returns
    outside [currentMeshlets] reads [undefined].  The members of
    [currentMeshlets] are always in the store, so [m.boundaryEdges] never
    takes the default. *)
Definition partitionMeshlets (currentMeshlets : list Ref) (store : list MeshletWIP)
  : list (list (option Ref)) :=
  if decide (GROUP_SIZE < length currentMeshlets) then
    let adjacency :=
      findAdjacentMeshlets
        (map (λ r, default [] (boundaryEdges <$> store !! r)) currentMeshlets) in
    let meshletIdxPerPart := partitionGraph adjacency (nparts currentMeshlets) in
    map (λ part, map (λ i, currentMeshlets !! i) part) meshletIdxPerPart
  else [map Some currentMeshlets].

(** [for (; lodLevel < MAX_LODS + 1; lodLevel++)], with [remaining] =
    [MAX_LODS + 1 - lodLevel].  The result is the value of [lodLevel] and of
    [currentMeshlets] when the loop is left. *)
Fixpoint lodLoop (remaining : nat) (lodLevel : nat) (currentMeshlets : list Ref)
  : M (nat * list Ref) :=
  match remaining with
  | 0 => ret (lodLevel, currentMeshlets)
  | S remaining' =>
      if decide (length currentMeshlets < 2) then
        ret (lodLevel, currentMeshlets)
      else
        let* st := get in
        let partitioned := partitionMeshlets currentMeshlets (allMeshlets st) in
        let* newlyCreatedMeshlets :=
          processGroups lodLevel (length partitioned) partitioned in
        if decide (lodLevel = 1 ∧ length newlyCreatedMeshlets = 0) then
          throw (new_SimplificationError (lodLevel - 1) (vertexCount parsedMesh))
        else
          lodLoop remaining' (S lodLevel) newlyCreatedMeshlets
  end.

(** Everything up to the end of the loop. *)
Definition buildLodLevels (idx : Indices) : M (nat * list Ref) :=
  exec resetSession in
  let lodLevel := 0 in
  let mockBounds := calculateBounds (positions parsedMesh) idx in
  let* bottomMeshlets := splitIntoMeshlets lodLevel idx (Fin 0) [] mockBounds in
  lodLoop MAX_LODS (lodLevel + 1) bottomMeshlets.

Definition createNaniteMeshlets (idx : Indices) : M (list MeshletWIP) :=
  exec buildLodLevels idx in
  let* st := get in
  ret (allMeshlets st).

(** The heads of the loop in a call [createNaniteMeshlets idx] made in state
    [st0]: [levelStart idx st0 remaining lodLevel currentMeshlets st] when
    the loop condition is reached with these values of [lodLevel] and
    [currentMeshlets], in state [st], with [remaining] levels left before the
    cap. *)
Inductive levelStart (idx : Indices) (st0 : State)
  : nat → nat → list Ref → State → Prop :=
| levelStart_first (bottomMeshlets : list Ref) (st1 : State) :
    (exec resetSession in
     splitIntoMeshlets 0 idx (Fin 0) []
       (calculateBounds (positions parsedMesh) idx)) st0
    = Ok (bottomMeshlets, st1) →
    levelStart idx st0 MAX_LODS 1 bottomMeshlets st1
| levelStart_next (remaining lodLevel : nat) (currentMeshlets : list Ref)
    (st : State) (newlyCreatedMeshlets : list Ref) (st1 : State) :
    levelStart idx st0 (S remaining) lodLevel currentMeshlets st →
    2 ≤ length currentMeshlets →
    processGroups lodLevel
      (length (partitionMeshlets currentMeshlets (allMeshlets st)))
      (partitionMeshlets currentMeshlets (allMeshlets st)) st
    = Ok (newlyCreatedMeshlets, st1) →
    ¬ (lodLevel = 1 ∧ length newlyCreatedMeshlets = 0) →
    levelStart idx st0 remaining (S lodLevel) newlyCreatedMeshlets st1.

End Builder.

(** ** Concrete collaborators, used to run the builder on small meshes *)

Module Samples.

(** A clusterer that puts every triangle in a meshlet of its own, with the
    layout meshoptimizer uses: three vertices per meshlet and the local
    triangle indices padded to four bytes. *)
Definition oneTrianglePerMeshlet (_ : ParsedMesh) (idx : Indices)
  : list Meshopt.meshopt_Meshlet * list nat * list nat :=
  let n := length idx / 3 in
  (map (λ i, Meshopt.mkMeshlet (3 * i) 3 (4 * i) 1) (seq 0 n),
   idx,
   concat (map (λ _, [0; 1; 2; 0]) (seq 0 n))).

Fixpoint triangleEdges (idx : Indices) : list Edge :=
  match idx with
  | a :: b :: c :: rest => (a, b) :: (b, c) :: (c, a) :: triangleEdges rest
  | _ => []
  end.

Definition onceOnly (edges : list Edge) : list Edge :=
  List.filter
    (λ e, length (List.filter (Adjacency.isSameEdge e) edges) =? 1) edges.

Definition unitSphere (_ : list Q) (_ : Indices) : BoundingSphere :=
  mkSphere (0%Q, 0%Q, 0%Q) 1%Q.

Definition halve (n d : nat) : nat := n / d.

(** A simplifier that keeps the leading triangles up to the target, but never
    fewer than one triangle. *)
Definition keepLeading (_ : ParsedMesh) (idx : Indices) (target : nat)
  : SimplifiedMesh :=
  mkSimplified (take (3 `max` (3 * (target / 3))) idx) (Fin (1 # 100)) (Fin 2).

(** A simplifier that cannot remove anything (a mesh of fully duplicated
    per-face vertices). *)
Definition keepAll (_ : ParsedMesh) (idx : Indices) (_ : nat) : SimplifiedMesh :=
  mkSimplified idx (Fin 0) (Fin 1).

Fixpoint chunks (fuel : nat) (xs : list nat) : list (list nat) :=
  match fuel, xs with
  | S fuel', _ :: _ => take 4 xs :: chunks fuel' (drop 4 xs)
  | _, _ => []
  end.

(** A partitioner that groups the meshlets four by four in index order. *)
Definition inOrder (adjacency : Adjacency.t) (_ : nat) : list (list nat) :=
  chunks (length adjacency) (seq 0 (length adjacency)).

Definition mesh (n : nat) : ParsedMesh := mkMesh [] n.

Definition initial : State := mkState 7 [] [].

(** A strip of [n] triangles over the vertices [0 .. n + 1]. *)
Definition strip (n : nat) : Indices :=
  concat (map (λ i, [i; i + 1; i + 2]) (seq 0 n)).

(** A call on a mesh of [vertices] vertices, made in state [initial]. *)
Abbreviation build simplify useMap vertices idx :=
  (createNaniteMeshlets oneTrianglePerMeshlet triangleEdges onceOnly unitSphere
     halve simplify inOrder useMap (mesh vertices) idx initial).

Definition meshletsOf (r : Result (list MeshletWIP * State)) : list MeshletWIP :=
  match r with Ok (ms, _) => ms | Throw _ => [] end.

Definition stateOf {A} (r : Result (A * State)) : State :=
  match r with Ok (_, st) => st | Throw _ => initial end.

(** The state when the loop is reached: the leaves of a strip of [n]
    triangles. *)
Definition leaves (n : nat) : State :=
  stateOf
    ((exec resetSession in
      splitIntoMeshlets oneTrianglePerMeshlet triangleEdges onceOnly
        (mesh 7) 0 (strip n) (Fin 0) [] (unitSphere [] (strip n))) initial).

Definition meshletsAt (st : State) (refs : list Ref) : list MeshletWIP :=
  omap (λ r, allMeshlets st !! r) refs.

(** What [createMeshlets] returns in a sample run. *)
Definition clustersOf (r : Result Meshopt.meshopt_Meshlets)
  : Meshopt.meshopt_Meshlets :=
  match r with Ok mo => mo | Throw _ => Meshopt.mkMeshlets [] [] [] end.

(** A partitioner that names a meshlet past the end of the list. *)
Definition pastTheEnd (adjacency : Adjacency.t) (_ : nat) : list (list nat) :=
  [[0; 1; 2; 3]; [4; length adjacency]].

(** A partitioner that leaves its second part empty. *)
Definition oneFullPart (adjacency : Adjacency.t) (_ : nat) : list (list nat) :=
  [seq 0 (length adjacency); []].

End Samples.

(** ** The drawn-meshlets buffer (scene/types.ts) *)

Module DrawnMeshlets.

(** WGSL [u32] values are integers in [0, 2^32); arithmetic wraps. *)
Definition wrap_u32 (z : Z) : Z := (z mod 2 ^ 32)%Z.

Definition vec2u : Type := Z * Z.

(** [arrayLength(&_drawnMeshletsList)] *)
Definition arrayLength (_drawnMeshletsList : list vec2u) : Z := wrap_u32 (Z.of_nat (length _drawnMeshletsList)).

(** An access outside the array is an invalid memory reference, whose result
    WGSL leaves to the implementation: here it is [None]. *)
Definition readSlot (_drawnMeshletsList : list vec2u) (idx : Z) : option vec2u :=
  if decide (0 ≤ idx < Z.of_nat (length _drawnMeshletsList))%Z then _drawnMeshletsList !! Z.to_nat idx
  else None.

Definition writeSlot (_drawnMeshletsList : list vec2u) (idx : Z) (v : vec2u)
  : option (list vec2u) :=
  if decide (0 ≤ idx < Z.of_nat (length _drawnMeshletsList))%Z
  then Some (<[Z.to_nat idx := v]> _drawnMeshletsList)
  else None.

Definition _storeMeshletHardwareDraw (_drawnMeshletsList : list vec2u)
  (idx tfxIdx meshletIdx : Z) : option (list vec2u) :=
  writeSlot _drawnMeshletsList idx (tfxIdx, meshletIdx).

Definition softwareSlot (_drawnMeshletsList : list vec2u) (idx : Z) : Z :=
  let len := arrayLength _drawnMeshletsList in
  wrap_u32 (wrap_u32 (len - 1) - idx).

Definition _storeMeshletSoftwareDraw (_drawnMeshletsList : list vec2u)
  (idx tfxIdx meshletIdx : Z) : option (list vec2u) :=
  let idx2 := softwareSlot _drawnMeshletsList idx in
  writeSlot _drawnMeshletsList idx2 (tfxIdx, meshletIdx).

Definition _getMeshletHardwareDraw (_drawnMeshletsList : list vec2u) (idx : Z)
  : option vec2u :=
  readSlot _drawnMeshletsList idx.

Definition _getMeshletSoftwareDraw (_drawnMeshletsList : list vec2u) (idx : Z)
  : option vec2u :=
  let idx2 := softwareSlot _drawnMeshletsList idx in
  readSlot _drawnMeshletsList idx2.

(** [GPUBufferUsage] flags. *)
Definition COPY_SRC : Z := 4.
Definition COPY_DST : Z := 8.
Definition STORAGE : Z := 128.
Definition INDIRECT : Z := 256.

Record GPUBuffer := mkBuffer {
  label : string;
  size : nat;
  usage : Z
}.

(** Modelled from the spec: naniteObject.ts is missing from the sources; the
    LOD level of a leaf is 0. *)
Definition BOTTOM_LEVEL_NODE : nat := 0.

Section Buffer.

(** utils/webgpu.ts is missing from the sources: the constant is a
    parameter. *)
Variable WEBGPU_MINIMAL_BUFFER_SIZE : nat.

Definition BYTES_DRAWN_MESHLETS_PARAMS : nat :=
  WEBGPU_MINIMAL_BUFFER_SIZE `max` (4 * BYTES_U32).

Definition BYTES_DRAWN_MESHLETS_SW_PARAMS : nat :=
  WEBGPU_MINIMAL_BUFFER_SIZE `max` (4 * BYTES_U32).

(** [device.createBuffer(descriptor)] gives a buffer of the size asked
    for. *)
Definition createDrawnMeshletsBuffer (name : string)
  (allWIPMeshlets : list MeshletWIP) (instanceCount : nat) : GPUBuffer :=
  let bottomMeshletCount :=
    length
      (List.filter (λ m, lodLevel m =? BOTTOM_LEVEL_NODE) allWIPMeshlets) in
  let listSize := bottomMeshletCount * instanceCount * BYTES_UVEC2 in
  {| label := (name ++ "-nanite-drawn-meshlets")%string;
     size :=
       BYTES_DRAWN_MESHLETS_PARAMS + BYTES_DRAWN_MESHLETS_SW_PARAMS + listSize;
     usage := Z.lor (Z.lor (Z.lor STORAGE INDIRECT) COPY_DST) COPY_SRC |}.

End Buffer.

End DrawnMeshlets.

(** ** Occlusion culling (the WGSL snippet SNIPPET_OCCLUSION_CULLING) *)

Module Occlusion.

Section Shader.

(** The scalar type [f32] and the WGSL builtins over it.  The theorems hold
    for every implementation of them. *)
Variable F : Type.
Variable lit : Q → F.
Variables fadd fsub fmul fdiv fmax : F → F → F.
Variables fneg fabs fsqrt flog2 fceil : F → F.
Variable flt fle : F → F → bool.
Variable i32_of_f32 : F → Z.
Variable f32_of_i32 : Z → F.

Record vec4f := mkVec4 { v4x : F; v4y : F; v4z : F; v4w : F }.

(** Column-major, as in WGSL: [col2 m] is [m[2]]. *)
Record mat4x4f := mkMat4 { col0 : vec4f; col1 : vec4f; col2 : vec4f; col3 : vec4f }.

Definition scale (s : F) (v : vec4f) : vec4f :=
  mkVec4 (fmul (v4x v) s) (fmul (v4y v) s) (fmul (v4z v) s) (fmul (v4w v) s).

Definition vadd (a b : vec4f) : vec4f :=
  mkVec4 (fadd (v4x a) (v4x b)) (fadd (v4y a) (v4y b))
    (fadd (v4z a) (v4z b)) (fadd (v4w a) (v4w b)).

(** [m * v] *)
Definition mat_vec (m : mat4x4f) (v : vec4f) : vec4f :=
  vadd (vadd (vadd (scale (v4x v) (col0 m)) (scale (v4y v) (col1 m)))
          (scale (v4z v) (col2 m)))
    (scale (v4w v) (col3 m)).

(** [a * b] *)
Definition mat_mul (a b : mat4x4f) : mat4x4f :=
  mkMat4 (mat_vec a (col0 b)) (mat_vec a (col1 b)) (mat_vec a (col2 b))
    (mat_vec a (col3 b)).

Definition wrap_i32 (z : Z) : Z := ((z + 2 ^ 31) mod 2 ^ 32 - 2 ^ 31)%Z.

(** The depth pyramid, its sampler and the snippet CLAMP_TO_MIP_LEVELS, which
    is not among the sources. *)
Variable Texture : Type.
Variable textureSampleLevel : Texture → F * F → F → vec4f.
Variable clampToMipLevels : Z → Texture → Z.

Record Uniforms := mkUniforms {
  viewport : vec4f;
  viewMatrix : mat4x4f;
  projMatrix : mat4x4f;
  (** what [useOcclusionCulling()] reads *)
  useOcclusionCulling : bool
}.

Record NaniteMeshletTreeNode := mkNode {
  ownBoundingSphere : vec4f;
  parentBoundsMidPointAndError : vec4f;
  node_id : Z;
  triangleCount : Z;
  firstIndexOffset : Z;
  padding0 : Z
}.

(** [CAMERA_CFG.near], spliced into the shader text. *)
Definition near : F := lit (1 # 100).

Definition projectSphereView (projMat : mat4x4f) (centerViewSpace : F * F * F)
  (r : F) (viewportSize : F * F) : vec4f :=
  let '(cx0, cy0, cz0) := centerViewSpace in
  let cx := cx0 in
  let cy := cy0 in
  let cz := fneg cz0 in
  let crx := fmul cx r in
  let cry := fmul cy r in
  let crz := fmul cz r in
  let czr2 := fsub (fmul cz cz) (fmul r r) in
  let vx := fsqrt (fadd (fmul cx cx) czr2) in
  let minX := fdiv (fsub (fmul vx cx) crz) (fadd (fmul vx cz) crx) in
  let maxX := fdiv (fadd (fmul vx cx) crz) (fsub (fmul vx cz) crx) in
  let vy := fsqrt (fadd (fmul cy cy) czr2) in
  let minY := fdiv (fsub (fmul vy cy) crz) (fadd (fmul vy cz) cry) in
  let maxY := fdiv (fadd (fmul vy cy) crz) (fsub (fmul vy cz) cry) in
  let P00 := v4x (col0 projMat) in
  let P11 := v4y (col1 projMat) in
  let aabb := mkVec4 (fmul minX P00) (fmul minY P11) (fmul maxX P00) (fmul maxY P11) in
  let half := lit (1 # 2) in
  mkVec4 (fadd (fmul (v4x aabb) half) half)
    (fadd (fmul (v4w aabb) (fneg half)) half)
    (fadd (fmul (v4z aabb) half) half)
    (fadd (fmul (v4y aabb) (fneg half)) half).

(** The sphere's centre in view space:
    [viewMat * modelMat * vec4f(boundingSphere.xyz, 1.)]. *)
Definition viewSpaceCenter (u : Uniforms) (modelMat : mat4x4f)
  (meshlet : NaniteMeshletTreeNode) : vec4f :=
  let boundingSphere := ownBoundingSphere meshlet in
  mat_vec (mat_mul (viewMatrix u) modelMat)
    (mkVec4 (v4x boundingSphere) (v4y boundingSphere) (v4z boundingSphere)
       (lit 1)).

Definition isPassingOcclusionCulling (u : Uniforms)
  (_depthPyramidTexture : Texture) (modelMat : mat4x4f)
  (meshlet : NaniteMeshletTreeNode) : bool :=
  if negb (useOcclusionCulling u) then true
  else
    let viewportSize := (v4x (viewport u), v4y (viewport u)) in
    let viewMat := viewMatrix u in
    let projMat := projMatrix u in
    let boundingSphere := ownBoundingSphere meshlet in
    let center := viewSpaceCenter u modelMat meshlet in
    let r := v4w boundingSphere in
    if flt (fabs (v4z center)) (fadd r near) then true
    else
      let aabb :=
        projectSphereView projMat (v4x center, v4y center, v4z center) r
          viewportSize in
      let pixelSpanW :=
        fmul (fabs (fsub (v4z aabb) (v4x aabb))) (fst viewportSize) in
      let pixelSpanH :=
        fmul (fabs (fsub (v4w aabb) (v4y aabb))) (snd viewportSize) in
      let pixelSpan := fmax pixelSpanW pixelSpanH in
      let mipLevel0 := i32_of_f32 (fceil (flog2 pixelSpan)) in
      let mipLevel :=
        clampToMipLevels (wrap_i32 (mipLevel0 + 1)) _depthPyramidTexture in
      let depthFromDepthBuffer :=
        v4x (textureSampleLevel _depthPyramidTexture (v4x aabb, v4y aabb)
               (f32_of_i32 mipLevel)) in
      let d := fsub (v4z center) r in
      let depthMeshlet :=
        fdiv (fadd (fmul (v4z (col2 projMat)) d) (v4z (col3 projMat)))
          (fneg d) in
      fle depthMeshlet depthFromDepthBuffer.

End Shader.

End Occlusion.

(** An implementation of the scalar builtins over exact rationals, with
    [sqrt] and [log2] rounded to integers, and a depth pyramid that stores
    one depth everywhere. *)
Module OcclusionSamples.

Definition qlt (a b : Q) : bool := negb (Qle_bool b a).
Definition qmax (a b : Q) : Q := if Qle_bool a b then b else a.
Definition qsqrt (a : Q) : Q := inject_Z (Z.sqrt (Qfloor a)).
Definition qlog2 (a : Q) : Q := inject_Z (Z.log2_up (Qceiling a)).
Definition qceil (a : Q) : Q := inject_Z (Qceiling a).
Definition qtrunc (a : Q) : Z := (Qnum a ÷ Zpos (Qden a))%Z.

Definition vec (x y z w : Q) : Occlusion.vec4f Q := Occlusion.mkVec4 Q x y z w.

Definition identity : Occlusion.mat4x4f Q :=
  Occlusion.mkMat4 Q (vec 1 0 0 0) (vec 0 1 0 0) (vec 0 0 1 0) (vec 0 0 0 1).

(** A perspective projection with near = 0.01 and far = 100. *)
Definition perspective : Occlusion.mat4x4f Q :=
  Occlusion.mkMat4 Q (vec 2 0 0 0) (vec 0 2 0 0)
    (vec 0 0 (-(10001 # 10000)) (-1)) (vec 0 0 (-(10001 # 1000000)) 0).

Definition uniforms (enabled : bool) : Occlusion.Uniforms Q :=
  Occlusion.mkUniforms Q (vec 800 600 0 0) identity perspective enabled.

Definition sampleConstant (depth : Q) (_ : Q * Q) (_ : Q) : Occlusion.vec4f Q :=
  vec depth depth depth depth.

Definition clampLevel (level : Z) (_ : Q) : Z := Z.max 0 (Z.min level 10).

Definition sphere (x y z r : Q) : Occlusion.NaniteMeshletTreeNode Q :=
  Occlusion.mkNode Q (vec x y z r) (vec 0 0 0 0) 0 0 0 0.

Definition passes (enabled : bool) (depth : Q)
  (meshlet : Occlusion.NaniteMeshletTreeNode Q) : bool :=
  Occlusion.isPassingOcclusionCulling Q (λ q, q) Qplus Qminus Qmult Qdiv qmax
    Qopp Qabs qsqrt qlog2 qceil qlt Qle_bool qtrunc inject_Z Q sampleConstant
    clampLevel (uniforms enabled) depth identity meshlet.

End OcclusionSamples.

(** ** Vocabulary of the properties *)

(** The two fields a parent assignment writes apart, two meshlets are the
    same. *)
Definition sameOwnData (m m' : MeshletWIP) : Prop :=
  assignParent Infinity (mkSphere (0%Q, 0%Q, 0%Q) 0%Q) m
  = assignParent Infinity (mkSphere (0%Q, 0%Q, 0%Q) 0%Q) m'.

(** The meshlet [createMeshletWip] makes when the id counter is [n]. *)
Definition freshWip (listAllEdges : Indices → list Edge)
  (findBoundaryEdges : list Edge → list Edge) (lodLevel : nat)
  (simplificationError : number) (createdFrom : list Ref)
  (sharedSiblingsBounds : BoundingSphere) (n : nat) (idx : Indices)
  : MeshletWIP :=
  mkWip n createdFrom lodLevel idx (findBoundaryEdges (listAllEdges idx))
    simplificationError sharedSiblingsBounds Infinity None.

(** The members of a group, read from the store. *)
Definition childrenOf (store : list MeshletWIP) (g : list (option Ref))
  (children : list MeshletWIP) : Prop :=
  Forall2 (λ r m, ∃ i, r = Some i ∧ store !! i = Some m) g children.

Definition groupRefs (g : list (option Ref)) : list Ref := omap (λ r, r) g.

Definition warned (st : State) (w : Warning) : State :=
  mkState (NEXT_MESHLET_ID st) (allMeshlets st) (console st ++ [w]).

Section GroupVocabulary.

Variable calculateBounds : list Q → Indices → BoundingSphere.
Variable calculateTargetIndexCount : nat → nat → nat.
Variable simplifyMesh : ParsedMesh → Indices → nat → SimplifiedMesh.
Variable parsedMesh : ParsedMesh.

(** What the simplifier returns for the merged group. *)
Definition simplifiedGroup (children : list MeshletWIP) : SimplifiedMesh :=
  simplifyMesh parsedMesh (mergeMeshlets children)
    (calculateTargetIndexCount (length (mergeMeshlets children)) DECIMATE_FACTOR).

Definition groupStalls (children : list MeshletWIP) : bool :=
  isStalled (mergeMeshlets children) (simplifiedGroup children).

Definition groupWarning (lodLevel : nat) (children : list MeshletWIP) : Warning :=
  mkWarning lodLevel (getTriangleCount (mergeMeshlets children))
    (getTriangleCount (indexBuffer (simplifiedGroup children))).

(** [totalError] of the group. *)
Definition groupError (children : list MeshletWIP) : number :=
  add (mul (error (simplifiedGroup children))
         (errorScale (simplifiedGroup children)))
    (Math_max (map maxSiblingsError children)).

Definition groupBounds (children : list MeshletWIP) : BoundingSphere :=
  calculateBounds (positions parsedMesh) (mergeMeshlets children).

End GroupVocabulary.


(** A number that is neither [NaN] nor [+Infinity]. *)
Definition ordinary (x : number) : Prop := x ≠ PInf ∧ x ≠ NaN.

(** The error invariant of a meshlet. *)
Definition errorInvariant (m : MeshletWIP) : Prop :=
  ordinary (maxSiblingsError m)
  ∧ match parentBounds m with
    | None => parentError m = Infinity
    | Some _ =>
        ordinary (parentError m)
        ∧ ge (parentError m) (maxSiblingsError m) = true
    end.


(** A counter map that holds no zero. *)
Definition noZero (c : gmap nat nat) : Prop := ∀ j, c !! j ≠ Some 0.

(** ** Further functions of the sources *)

(** *** Appending to the drawn-meshlets list and reading it back
    (scene/types.ts) *)

Module DrawList.
Import DrawnMeshlets.

(** Which of the two store helpers a visible meshlet goes through. *)
Inductive Rasterizer : Type := Hardware | Software.

Global Instance Rasterizer_eq_dec : EqDecision Rasterizer.
Proof. solve_decision. Defined.

(** One append: the helper, the index the atomic counter handed out, and the
    entry. *)
Record Append := mkAppend {
  rasterizer : Rasterizer;
  index : Z;
  tfxIdx : Z;
  meshletIdx : Z
}.

Definition store (drawn : list vec2u) (a : Append) : option (list vec2u) :=
  match rasterizer a with
  | Hardware => _storeMeshletHardwareDraw drawn (index a) (tfxIdx a) (meshletIdx a)
  | Software => _storeMeshletSoftwareDraw drawn (index a) (tfxIdx a) (meshletIdx a)
  end.

Definition load (drawn : list vec2u) (r : Rasterizer) (idx : Z) : option vec2u :=
  match r with
  | Hardware => _getMeshletHardwareDraw drawn idx
  | Software => _getMeshletSoftwareDraw drawn idx
  end.

(** The appends of one pass, in the order in which they happen to land. *)
Fixpoint storeAll (drawn : list vec2u) (appends : list Append)
  : option (list vec2u) :=
  match appends with
  | [] => Some drawn
  | a :: rest =>
      match store drawn a with
      | Some drawn' => storeAll drawn' rest
      | None => None
      end
  end.

(** The list as the [u32] words of the buffer: [x] then [y] of every
    [vec2<u32>]. *)
Definition words (drawn : list vec2u) : list Z :=
  concat (map (λ e, [e.1; e.2]) drawn).

Record Readback := mkReadback {
  meshletCount : Z;
  indirectDraw : list Z;
  (* [{transformId, meshletId}]; a field read past the end of the data is
     [undefined] *)
  meshletIds : list (option Z * option Z)
}.

Section Parse.

Variable WEBGPU_MINIMAL_BUFFER_SIZE : nat.

(** utils/index.ts is missing from the sources: [createArray] is a
    parameter; only the positions of its result are used. *)
Variable Filler : Type.
Variable createArray : nat → list Filler.

(** [parseDrawnMeshletsBuffer], on the downloaded [Uint32Array].  The
    [naniteObject] handed through is left out.  With fewer than two words
    [meshletCount] is [undefined]: [None].  [slice] truncates a fractional
    bound, so the offset is the integer quotient. *)
Definition parseDrawnMeshletsBuffer (data : list Z) : option Readback :=
  let indirectDraw := take 4 data in
  match indirectDraw !! 1 with
  | None => None
  | Some meshletCount =>
      let offset :=
        (BYTES_DRAWN_MESHLETS_PARAMS WEBGPU_MINIMAL_BUFFER_SIZE
         + BYTES_DRAWN_MESHLETS_SW_PARAMS WEBGPU_MINIMAL_BUFFER_SIZE)
        / BYTES_U32 in
      let lastWrittenIdx := 2 * Z.to_nat meshletCount in
      let visibilityResultArr := take lastWrittenIdx (drop offset data) in
      let meshletIds :=
        imap (λ i _, (visibilityResultArr !! (2 * i),
                      visibilityResultArr !! (2 * i + 1)))
          (createArray (Z.to_nat meshletCount)) in
      Some (mkReadback meshletCount indirectDraw meshletIds)
  end.

End Parse.

(** The slot an append writes, when its index is inside the list. *)
Definition slotOf (len : nat) (r : Rasterizer) (idx : Z) : nat :=
  match r with
  | Hardware => Z.to_nat idx
  | Software => len - 1 - Z.to_nat idx
  end.

(** The counters stay inside their budgets: hardware indices below [h],
    software indices below [s]. *)
Definition withinBudget (h s : Z) (a : Append) : Prop :=
  match rasterizer a with
  | Hardware => (0 ≤ index a < h)%Z
  | Software => (0 ≤ index a < s)%Z
  end.

End DrawList.

(** *** The copy loop of mergeMeshlets and the slices of createMeshlets
    (meshPreprocessing) *)

Module MeshoptMore.
Import Meshopt.

(** [mergeMeshlets] statement by statement: a zeroed [Uint32Array] of the
    summed length, filled through the running [nextIdx].  A write past the
    end of a typed array is ignored. *)
Definition mergeMeshlets_copy (meshletGroup : list MeshletWIP) : Indices :=
  let len := foldl (λ acc m, acc + length (indices m)) 0 meshletGroup in
  let result := replicate len 0 in
  fst
    (foldl
       (λ state m,
          foldl (λ '(result, nextIdx) idx, (<[nextIdx := idx]> result, nextIdx + 1))
            state (indices m))
       (result, 0) meshletGroup).

(** The indices [meshletIndicesWithOriginalVertexBuffer] pushes for one
    meshlet (the body of its outer loop). *)
Definition rewrittenIndices (verts tris : list nat) (m : meshopt_Meshlet)
  : list nat :=
  map (λ j,
         let o := triangleOffset m + j in
         default 0
           (match tris !! o with
            | Some v => verts !! (vertexOffset m + v)
            | None => None
            end))
    (seq 0 (triangleCount m * VERTS_IN_TRIANGLE)).

(** What meshoptimizer promises of its raw output, for one meshlet: its
    triangle bytes and its vertices lie inside the arrays and before the end
    of the last meshlet, and every local index is below its vertex count. *)
Definition inRange (lastMeshlet : meshopt_Meshlet) (verts tris : list nat)
  (m : meshopt_Meshlet) : Prop :=
  triangleOffset m + triangleCount m * VERTS_IN_TRIANGLE ≤ length tris
  ∧ triangleOffset m + triangleCount m * VERTS_IN_TRIANGLE
    ≤ triangleOffset lastMeshlet
      + triangleCount lastMeshlet * VERTS_IN_TRIANGLE
  ∧ vertexOffset m + vertexCount m ≤ length verts
  ∧ vertexOffset m + vertexCount m
    ≤ vertexOffset lastMeshlet + vertexCount lastMeshlet
  ∧ ∀ j v, j < triangleCount m * VERTS_IN_TRIANGLE →
           tris !! (triangleOffset m + j) = Some v → v < vertexCount m.

End MeshoptMore.

(** *** The shape of the hierarchy *)

(** Every meshlet is created from meshlets made before it, each one level
    below its own. *)
Definition layered (store : list MeshletWIP) : Prop :=
  ∀ i m, store !! i = Some m →
    Forall (λ c, c < i
                 ∧ ∃ mc, store !! c = Some mc ∧ S (lodLevel mc) = lodLevel m)
      (createdFrom m).

(** The parent data of a child are the error and the bounds its parent was
    created with. *)
Definition parentsAgree (store : list MeshletWIP) : Prop :=
  ∀ i m c, store !! i = Some m → c ∈ createdFrom m →
    ∃ mc, store !! c = Some mc
          ∧ parentError mc = maxSiblingsError m
          ∧ parentBounds mc = Some (sharedSiblingsBounds m).

(** A meshlet with parent data is listed by some meshlet. *)
Definition childrenHaveParents (store : list MeshletWIP) : Prop :=
  ∀ c mc, store !! c = Some mc → parentBounds mc ≠ None →
    ∃ i m, store !! i = Some m ∧ c ∈ createdFrom m.

(** *** The debug LODs of a scene (scene/index.ts) *)

Module SceneLODs.

Definition CO_PER_VERTEX : nat := 3.

(** [MAX_LODS] of [createMeshLODs]. *)
Definition MAX_LODS : nat := 10.

(** [a === b] on numbers. *)
Definition strictEq (a b : number) : bool :=
  match a, b with
  | Fin x, Fin y => Qeq_bool x y
  | PInf, PInf | NInf, NInf => true
  | _, _ => false
  end.

(** [getVertexCount] for a vertex array. *)
Definition getVertexCount (verts : list Q) : number :=
  div (of_nat (length verts)) (of_nat CO_PER_VERTEX).

Section MeshLODs.

(** utils/webgpu.ts and meshPreprocessing/simplifyMesh.ts are missing from
    the sources: GPU buffers, [createGPU_IndexBuffer] and this file's
    [simplifyMesh] (vertices, indices, [targetIndexCount], [targetError]) are
    parameters. *)
Variable GPUBuffer : Type.
Variable createGPU_IndexBuffer : string → Indices → GPUBuffer.
Variable simplifyMesh : list Q → Indices → number → number → SimplifiedMesh.

Local Abbreviation simplifiedIndices := indexBuffer.

Record Mesh := mkSceneMesh {
  vertexCount : number;
  triangleCount : number;
  vertexBuffer : GPUBuffer;
  indexBuffer : GPUBuffer
}.

Variable originalMesh : Mesh.
Variable vertices : list Q.
Variable originalIndices : Indices.

Definition originalTriangleCount : number := getTriangleCount originalIndices.

Definition finalTargetTriangleCount : number :=
  div originalTriangleCount (of_nat 10).

(** The [while] loop, with [fuel] bounding its iterations. *)
Fixpoint lodsLoop (fuel : nat) (triangleCount : number) (meshLODs : list Mesh)
  : list Mesh :=
  match fuel with
  | 0 => meshLODs
  | S fuel' =>
      if gt triangleCount finalTargetTriangleCount
         && (length meshLODs <? MAX_LODS)
      then
        let level := length meshLODs in
        let targetIndexCount :=
          div (mul triangleCount (of_nat VERTS_IN_TRIANGLE)) (of_nat 2) in
        let simplifiedMesh :=
          simplifyMesh vertices originalIndices targetIndexCount
            (Fin (5 # 100)) in
        let newTriangleCount :=
          getTriangleCount (simplifiedIndices simplifiedMesh) in
        if strictEq newTriangleCount originalTriangleCount then meshLODs
        else
          let indexBuffer :=
            createGPU_IndexBuffer
              ("lod-test-index-buffer-" ++ nat_to_string level)%string
              (simplifiedIndices simplifiedMesh) in
          lodsLoop fuel' newTriangleCount
            (meshLODs
               ++ [{| vertexBuffer := vertexBuffer originalMesh;
                      indexBuffer := indexBuffer;
                      vertexCount := getVertexCount vertices;
                      triangleCount :=
                        getTriangleCount (simplifiedIndices simplifiedMesh) |}])
      else meshLODs
  end.

(** The loop pushes at most [MAX_LODS - 1] meshes, so [MAX_LODS] iterations
    are enough. *)
Definition createMeshLODs : list Mesh :=
  lodsLoop MAX_LODS originalTriangleCount [originalMesh].

(** The mesh the loop pushes as LOD [level] when its triangle count stands
    at [triangleCountBefore]. *)
Definition lodAfter (triangleCountBefore : number) (level : nat) : Mesh :=
  let simplifiedMesh :=
    simplifyMesh vertices originalIndices
      (div (mul triangleCountBefore (of_nat VERTS_IN_TRIANGLE)) (of_nat 2))
      (Fin (5 # 100)) in
  {| vertexBuffer := vertexBuffer originalMesh;
     indexBuffer :=
       createGPU_IndexBuffer
         ("lod-test-index-buffer-" ++ nat_to_string level)%string
         (simplifiedIndices simplifiedMesh);
     vertexCount := getVertexCount vertices;
     triangleCount := getTriangleCount (simplifiedIndices simplifiedMesh) |}.

End MeshLODs.

End SceneLODs.

(** * Properties *)

(** ** The drawn-meshlets list *)

Module DrawnMeshletsFacts.
Import DrawnMeshlets.

Lemma arrayLength_small (l : list vec2u) :
  (Z.of_nat (length l) < 2 ^ 32)%Z → arrayLength l = Z.of_nat (length l).
Proof.
  intros Hlen. unfold arrayLength, wrap_u32.
  apply Z.mod_small. lia.
Qed.

Lemma softwareSlot_spec (l : list vec2u) (j : Z) :
  (Z.of_nat (length l) < 2 ^ 32)%Z →
  (0 ≤ j < Z.of_nat (length l))%Z →
  softwareSlot l j = (Z.of_nat (length l) - 1 - j)%Z.
Proof.
  intros Hlen Hj. unfold softwareSlot.
  rewrite arrayLength_small by done.
  unfold wrap_u32.
  rewrite (Z.mod_small (Z.of_nat (length l) - 1)) by lia.
  apply Z.mod_small. lia.
Qed.

Lemma read_after_write (l : list vec2u) (k : Z) (v : vec2u) :
  (0 ≤ k < Z.of_nat (length l))%Z →
  writeSlot l k v = Some (<[Z.to_nat k := v]> l)
  ∧ readSlot (<[Z.to_nat k := v]> l) k = Some v.
Proof.
  intros Hk. unfold writeSlot, readSlot.
  rewrite length_insert.
  rewrite !decide_True by done.
  split; [done |].
  apply list_lookup_insert_eq. lia.
Qed.

(** C9: hardware entry [i] goes to slot [i], software entry [i] to slot
    [L - 1 - i]; each load helper reads back what the matching store helper
    wrote; and while the two lists together hold at most [L] entries, the
    hardware slots [0 .. h-1] and the software slots [L-s .. L-1] never
    meet. *)
Theorem drawn_list_front_and_back (l : list vec2u) (i tfxIdx meshletIdx : Z) :
  (Z.of_nat (length l) < 2 ^ 32)%Z →
  (0 ≤ i < Z.of_nat (length l))%Z →
  _storeMeshletHardwareDraw l i tfxIdx meshletIdx
    = Some (<[Z.to_nat i := (tfxIdx, meshletIdx)]> l)
  ∧ _storeMeshletSoftwareDraw l i tfxIdx meshletIdx
    = Some (<[length l - 1 - Z.to_nat i := (tfxIdx, meshletIdx)]> l)
  ∧ (∀ l', _storeMeshletHardwareDraw l i tfxIdx meshletIdx = Some l' →
           _getMeshletHardwareDraw l' i = Some (tfxIdx, meshletIdx))
  ∧ (∀ l', _storeMeshletSoftwareDraw l i tfxIdx meshletIdx = Some l' →
           _getMeshletSoftwareDraw l' i = Some (tfxIdx, meshletIdx))
  ∧ (∀ h s a b : Z,
        (0 ≤ h)%Z → (0 ≤ s)%Z → (h + s ≤ Z.of_nat (length l))%Z →
        (0 ≤ a < h)%Z → (0 ≤ b < s)%Z →
        a ≠ softwareSlot l b
        ∧ (Z.of_nat (length l) - s ≤ softwareSlot l b < Z.of_nat (length l))%Z).
Proof.
  intros Hlen Hi.
  assert (Hsw : softwareSlot l i = (Z.of_nat (length l) - 1 - i)%Z)
    by (by apply softwareSlot_spec).
  assert (Hnat : Z.to_nat (softwareSlot l i) = length l - 1 - Z.to_nat i)
    by (rewrite Hsw; lia).
  assert (Hin : (0 ≤ softwareSlot l i < Z.of_nat (length l))%Z)
    by (rewrite Hsw; lia).
  destruct (read_after_write l i (tfxIdx, meshletIdx) Hi) as [Hw Hr].
  destruct (read_after_write l (softwareSlot l i) (tfxIdx, meshletIdx) Hin)
    as [Hw' Hr'].
  split; [exact Hw |].
  split; [unfold _storeMeshletSoftwareDraw; rewrite Hw'; by rewrite Hnat |].
  split; [| split].
  - intros l' Hl'. unfold _storeMeshletHardwareDraw in Hl'.
    rewrite Hw in Hl'. injection Hl' as <-. exact Hr.
  - intros l' Hl'. unfold _storeMeshletSoftwareDraw in Hl'.
    rewrite Hw' in Hl'. injection Hl' as <-.
    unfold _getMeshletSoftwareDraw. cbv zeta.
    assert (Hslot : softwareSlot
                      (<[Z.to_nat (softwareSlot l i) := (tfxIdx, meshletIdx)]> l) i
                    = softwareSlot l i).
    { unfold softwareSlot, arrayLength. by rewrite length_insert. }
    etrans; [| exact Hr']. f_equal. exact Hslot.
  - intros h s a b Hh Hs Hsum Ha Hb.
    rewrite softwareSlot_spec by (done || lia). lia.
Qed.

Lemma drawn_list_front_and_back_witness :
  _storeMeshletHardwareDraw [(0, 0); (0, 0); (0, 0); (0, 0)]%Z 1 7 9
    = Some [(0, 0); (7, 9); (0, 0); (0, 0)]%Z
  ∧ _storeMeshletSoftwareDraw [(0, 0); (0, 0); (0, 0); (0, 0)]%Z 1 7 9
    = Some [(0, 0); (0, 0); (7, 9); (0, 0)]%Z.
Proof.
  destruct (drawn_list_front_and_back [(0, 0); (0, 0); (0, 0); (0, 0)]%Z 1 7 9)
    as (Hhw & Hsw & _).
  - cbn. lia.
  - cbn. lia.
  - split; [exact Hhw | exact Hsw].
Defined.

(** C8: the buffer holds the two headers and one 8-byte slot per leaf
    meshlet and instance. *)
Theorem drawn_meshlets_buffer_capacity (minimalBufferSize : nat) (name : string)
  (allWIPMeshlets : list MeshletWIP) (instanceCount : nat) :
  let leafMeshletCount :=
    length (filter (λ m, lodLevel m = 0) allWIPMeshlets) in
  size (createDrawnMeshletsBuffer minimalBufferSize name allWIPMeshlets
          instanceCount)
  = BYTES_DRAWN_MESHLETS_PARAMS minimalBufferSize
    + BYTES_DRAWN_MESHLETS_SW_PARAMS minimalBufferSize
    + 8 * (leafMeshletCount * instanceCount)
  ∧ BYTES_DRAWN_MESHLETS_PARAMS minimalBufferSize = minimalBufferSize `max` 16
  ∧ BYTES_DRAWN_MESHLETS_SW_PARAMS minimalBufferSize = minimalBufferSize `max` 16.
Proof.
  cbn zeta. repeat split.
  unfold createDrawnMeshletsBuffer. cbn [size].
  assert (Hcount :
    length (List.filter (λ m, lodLevel m =? BOTTOM_LEVEL_NODE) allWIPMeshlets)
    = length (filter (λ m, lodLevel m = 0) allWIPMeshlets)).
  { induction allWIPMeshlets as [| m ms IH]; [done |].
    cbn [List.filter]. rewrite filter_cons.
    unfold BOTTOM_LEVEL_NODE in *.
    destruct (Nat.eqb_spec (lodLevel m) 0) as [Heq | Hne].
    - rewrite decide_True by done. cbn. by rewrite IH.
    - rewrite decide_False by done. done. }
  rewrite Hcount. unfold BYTES_UVEC2, BYTES_U32. lia.
Qed.

End DrawnMeshletsFacts.

(** ** The occlusion test *)

Module OcclusionFacts.
Import Occlusion.

Section NearPlane.

Variable F : Type.
Variable lit : Q → F.
Variables fadd fsub fmul fdiv fmax : F → F → F.
Variables fneg fabs fsqrt flog2 fceil : F → F.
Variable flt fle : F → F → bool.
Variable i32_of_f32 : F → Z.
Variable f32_of_i32 : Z → F.
Variable Texture : Type.
Variable textureSampleLevel : Texture → F * F → F → vec4f F.
Variable clampToMipLevels : Z → Texture → Z.

(** C7: a bounding sphere whose view-space centre satisfies
    [|center.z| < radius + near] passes the occlusion test whatever the depth
    pyramid holds. *)
Theorem near_plane_sphere_is_visible (u : Uniforms F) (depthPyramid : Texture)
  (modelMat : mat4x4f F) (meshlet : NaniteMeshletTreeNode F) :
  useOcclusionCulling F u = true →
  flt (fabs (v4z F (viewSpaceCenter F lit fadd fmul u modelMat meshlet)))
      (fadd (v4w F (ownBoundingSphere F meshlet)) (near F lit)) = true →
  isPassingOcclusionCulling F lit fadd fsub fmul fdiv fmax fneg fabs fsqrt
    flog2 fceil flt fle i32_of_f32 f32_of_i32 Texture textureSampleLevel
    clampToMipLevels u depthPyramid modelMat meshlet = true.
Proof.
  intros Henabled Hnear. unfold isPassingOcclusionCulling.
  rewrite Henabled. cbn [negb]. cbv zeta. by rewrite Hnear.
Qed.

End NearPlane.

Lemma near_plane_sphere_is_visible_witness :
  OcclusionSamples.passes true 0 (OcclusionSamples.sphere 0 0 (-(1 # 2)) 1) = true
  ∧ OcclusionSamples.passes true 0 (OcclusionSamples.sphere 0 0 (-5) 1) = false.
Proof.
  split.
  - unfold OcclusionSamples.passes.
    apply near_plane_sphere_is_visible; vm_compute; reflexivity.
  - vm_compute. reflexivity.
Defined.

End OcclusionFacts.

(** ** The construction monad *)

Lemma bind_Ok {A B} (c : M A) (k : A → M B) (st st' : State) (b : B) :
  bind c k st = Ok (b, st') →
  ∃ a st1, c st = Ok (a, st1) ∧ k a st1 = Ok (b, st').
Proof.
  unfold bind. destruct (c st) as [[a st1] | e]; [| discriminate].
  intros Hk. by exists a, st1.
Qed.

Lemma ret_Ok {A} (a b : A) (st st' : State) :
  ret a st = Ok (b, st') → b = a ∧ st' = st.
Proof. unfold ret. intros [= -> ->]. done. Qed.

Lemma bind_Throw {A B} (c : M A) (k : A → M B) (st : State) (e : Error) :
  c st = Throw e → bind c k st = Throw e.
Proof. unfold bind. by intros ->. Qed.

Lemma bind_step {A B} (c : M A) (k : A → M B) (st st1 : State) (a : A) :
  c st = Ok (a, st1) → bind c k st = k a st1.
Proof. unfold bind. by intros ->. Qed.

(** Reading the members of a group changes nothing, and succeeds exactly when
    every member is a meshlet of the store. *)
Lemma forM_deref_Ok (g : list (option Ref)) (st st' : State)
  (children : list MeshletWIP) :
  forM deref g st = Ok (children, st') →
  st' = st
  ∧ Forall2 (λ r m, ∃ i, r = Some i ∧ allMeshlets st !! i = Some m) g children.
Proof.
  revert children st'. induction g as [| r g IH]; intros children st' H.
  - apply ret_Ok in H as [-> ->]. split; [done | constructor].
  - cbn [forM] in H.
    apply bind_Ok in H as (m & st1 & Hm & H).
    apply bind_Ok in H as (ms & st2 & Hms & H).
    apply ret_Ok in H as [-> ->].
    unfold deref in Hm. destruct r as [i |]; [| discriminate].
    destruct (allMeshlets st !! i) as [m' |] eqn:Hi; [| discriminate].
    injection Hm as <- <-.
    apply IH in Hms as [-> Hall].
    split; [done |]. constructor; [| done]. by exists i.
Qed.

Lemma forM_deref_Some (refs : list Ref) (st : State) (children : list MeshletWIP) :
  Forall2 (λ r m, allMeshlets st !! r = Some m) refs children →
  forM deref (map Some refs) st = Ok (children, st).
Proof.
  induction 1 as [| r m refs children Hr _ IH]; [done |].
  cbn [map forM].
  rewrite (bind_step _ _ st st m) by (unfold deref; by rewrite Hr).
  by rewrite (bind_step _ _ st st children).
Qed.

Lemma group_refs (g : list (option Ref)) (st : State) (children : list MeshletWIP) :
  Forall2 (λ r m, ∃ i, r = Some i ∧ allMeshlets st !! i = Some m) g children →
  g = map Some (omap (λ r, r) g)
  ∧ Forall2 (λ i m, allMeshlets st !! i = Some m) (omap (λ r, r) g) children.
Proof.
  induction 1 as [| r m g children (i & -> & Hi) _ [IHg IH]]; [done |].
  cbn. split; [by rewrite <- IHg | by constructor].
Qed.

(** ** The store under parent assignment and meshlet creation *)

Lemma assignParent_idemp (t : number) (b : BoundingSphere) (m : MeshletWIP) :
  assignParent t b (assignParent t b m) = assignParent t b m.
Proof. done. Qed.

Lemma lookup_assignAll (t : number) (b : BoundingSphere) (refs : list Ref)
  (store : list MeshletWIP) (i : nat) :
  assignAll t b refs store !! i
  = (if decide (i ∈ refs) then assignParent t b else λ m, m) <$> store !! i.
Proof.
  unfold assignAll. revert store.
  induction refs as [| r refs IH]; intros store; cbn [foldl].
  - rewrite decide_False by apply not_elem_of_nil. by destruct (store !! i).
  - rewrite IH. destruct (decide (i = r)) as [-> | Hne].
    + rewrite list_lookup_alter_eq.
      rewrite (decide_True (P := r ∈ r :: refs)) by apply list_elem_of_here.
      by destruct (decide (r ∈ refs)), (store !! r) as [m |].
    + rewrite list_lookup_alter_ne by done.
      destruct (decide (i ∈ refs)) as [Hin | Hnin].
      * rewrite decide_True; [done | by apply list_elem_of_further].
      * rewrite decide_False; [done |].
        intros [? | ?]%elem_of_cons; done.
Qed.

Lemma length_assignAll (t : number) (b : BoundingSphere) (refs : list Ref)
  (store : list MeshletWIP) :
  length (assignAll t b refs store) = length store.
Proof.
  unfold assignAll. revert store.
  induction refs as [| r refs IH]; intros store; cbn [foldl]; [done |].
  by rewrite IH, length_alter.
Qed.

Section CreateFacts.

Variable listAllEdges : Indices → list Edge.
Variable findBoundaryEdges : list Edge → list Edge.

Lemma createMeshletWip_Ok (lvl : nat) (idx : Indices) (err : number)
  (from : list Ref) (bounds : BoundingSphere) (st : State) :
  createMeshletWip listAllEdges findBoundaryEdges lvl idx err from bounds st
  = Ok (length (allMeshlets st),
        mkState (NEXT_MESHLET_ID st + 1)
          (allMeshlets st
             ++ [freshWip listAllEdges findBoundaryEdges lvl err from bounds
                   (NEXT_MESHLET_ID st) idx])
          (console st)).
Proof. done. Qed.

(** Creating one meshlet per index array appends them in order and never
    fails. *)
Lemma forM_createMeshletWip (lvl : nat) (err : number) (from : list Ref)
  (bounds : BoundingSphere) (idxs : list Indices) (st : State) :
  forM (λ idx, createMeshletWip listAllEdges findBoundaryEdges lvl idx err from
                 bounds) idxs st
  = Ok (seq (length (allMeshlets st)) (length idxs),
        mkState (NEXT_MESHLET_ID st + length idxs)
          (allMeshlets st
             ++ imap (λ k, freshWip listAllEdges findBoundaryEdges lvl err from
                             bounds (NEXT_MESHLET_ID st + k)) idxs)
          (console st)).
Proof.
  revert st. induction idxs as [| idx idxs IH]; intros st.
  - cbn. unfold ret. destruct st as [n ms c]. cbn.
    by rewrite Nat.add_0_r, app_nil_r.
  - cbn [forM].
    rewrite (bind_step _ _ _ _ _ (createMeshletWip_Ok lvl idx err from bounds st)).
    rewrite (bind_step _ _ _ _ _ (IH _)).
    unfold ret. cbn [allMeshlets NEXT_MESHLET_ID console length seq imap].
    rewrite length_app. cbn [length].
    rewrite Nat.add_1_r, Nat.add_0_r, <- app_assoc. cbn [app].
    do 3 f_equal; [lia |].
    do 2 f_equal. apply imap_ext. intros k x _. cbn. f_equal. lia.
Qed.

End CreateFacts.

Lemma length_splitIndicesFrom (n : nat) (ms : list Meshopt.meshopt_Meshlet)
  (tris : list nat) :
  length (Meshopt.splitIndicesFrom n ms tris) = length ms.
Proof.
  revert n. induction ms as [| m ms IH]; intros n; [done |].
  cbn. by rewrite IH.
Qed.

(** [createMeshlets] never returns zero meshlets: it reads a field of the
    last one. *)
Lemma createMeshlets_nonempty
  (build : ParsedMesh → Indices → list Meshopt.meshopt_Meshlet * list nat * list nat)
  (pm : ParsedMesh) (idx : Indices) (mo : Meshopt.meshopt_Meshlets) :
  Meshopt.createMeshlets build pm idx = Ok mo →
  Meshopt.splitIndicesPerMeshlets mo ≠ [].
Proof.
  unfold Meshopt.createMeshlets.
  destruct (build pm idx) as [[ms verts] tris].
  destruct (last ms) as [lastMeshlet |] eqn:Hlast; [| discriminate].
  intros [= <-]. unfold Meshopt.splitIndicesPerMeshlets. cbn.
  intros Hnil. apply (f_equal length) in Hnil.
  rewrite length_splitIndicesFrom in Hnil.
  destruct ms; [discriminate Hlast | discriminate Hnil].
Qed.

(** ** What one group does to the state *)

Section GroupFacts.

Variable meshopt_buildMeshlets :
  ParsedMesh → Indices →
  list Meshopt.meshopt_Meshlet * list nat * list nat.
Variable listAllEdges : Indices → list Edge.
Variable findBoundaryEdges : list Edge → list Edge.
Variable calculateBounds : list Q → Indices → BoundingSphere.
Variable calculateTargetIndexCount : nat → nat → nat.
Variable simplifyMesh : ParsedMesh → Indices → nat → SimplifiedMesh.
Variable parsedMesh : ParsedMesh.

Local Abbreviation splitIntoMeshlets' :=
  (splitIntoMeshlets meshopt_buildMeshlets listAllEdges findBoundaryEdges
     parsedMesh).
Local Abbreviation processGroup' :=
  (processGroup meshopt_buildMeshlets listAllEdges findBoundaryEdges
     calculateBounds calculateTargetIndexCount simplifyMesh parsedMesh).
Local Abbreviation fresh := (freshWip listAllEdges findBoundaryEdges).
Local Abbreviation stalls :=
  (groupStalls calculateTargetIndexCount simplifyMesh parsedMesh).
Local Abbreviation warningOf :=
  (groupWarning calculateTargetIndexCount simplifyMesh parsedMesh).
Local Abbreviation errorOf :=
  (groupError calculateTargetIndexCount simplifyMesh parsedMesh).
Local Abbreviation boundsOf := (groupBounds calculateBounds parsedMesh).

Lemma splitIntoMeshlets_Ok (lvl : nat) (idx : Indices) (err : number)
  (from : list Ref) (bounds : BoundingSphere) (st st' : State) (new : list Ref) :
  splitIntoMeshlets' lvl idx err from bounds st = Ok (new, st') →
  ∃ idxs : list Indices,
    idxs ≠ []
    ∧ new = seq (length (allMeshlets st)) (length idxs)
    ∧ st' = mkState (NEXT_MESHLET_ID st + length idxs)
              (allMeshlets st
                 ++ imap (λ k, fresh lvl err from bounds (NEXT_MESHLET_ID st + k))
                      idxs)
              (console st).
Proof.
  unfold splitIntoMeshlets. intros H.
  apply bind_Ok in H as (mo & st1 & Hmo & H).
  unfold lift in Hmo.
  destruct (Meshopt.createMeshlets meshopt_buildMeshlets parsedMesh idx)
    as [mo' |] eqn:Hcreate; [| discriminate].
  injection Hmo as -> ->.
  rewrite forM_createMeshletWip in H. injection H as <- <-.
  exists (Meshopt.splitIndicesPerMeshlets mo).
  split; [by eapply createMeshlets_nonempty | done].
Qed.

(** The complete effect of one iteration of the loop over the groups. *)
Lemma processGroup_Ok (lvl n : nat) (g : list (option Ref)) (st st' : State)
  (new : list Ref) :
  processGroup' lvl n g st = Ok (new, st') →
  ∃ children,
    childrenOf (allMeshlets st) g children
    ∧ if stalls children then
        new = [] ∧ st' = warned st (warningOf lvl children)
      else
        ∃ idxs : list Indices,
          idxs ≠ []
          ∧ new = seq (length (allMeshlets st)) (length idxs)
          ∧ st' = mkState (NEXT_MESHLET_ID st + length idxs)
                    (assignAll (errorOf children) (boundsOf children)
                       (groupRefs g)
                       (allMeshlets st
                          ++ imap (λ k, fresh lvl (errorOf children)
                                          (groupRefs g) (boundsOf children)
                                          (NEXT_MESHLET_ID st + k))
                               idxs))
                    (console st).
Proof.
  unfold processGroup. intros H.
  apply bind_Ok in H as (children & st1 & Hchildren & H).
  apply forM_deref_Ok in Hchildren as [-> Hchildren].
  exists children. split; [exact Hchildren |].
  fold (simplifiedGroup calculateTargetIndexCount simplifyMesh parsedMesh children) in H.
  fold (stalls children) in H.
  destruct (stalls children) eqn:Hstall.
  - apply bind_Ok in H as ([] & st2 & Hwarn & H).
    apply ret_Ok in H as [-> ->].
    unfold console_warn in Hwarn. injection Hwarn as <-. done.
  - fold (errorOf children) in H. fold (boundsOf children) in H.
    fold (groupRefs g) in H.
    apply bind_Ok in H as (new' & st2 & Hnew & H).
    apply bind_Ok in H as ([] & st3 & Hassign & H).
    apply ret_Ok in H as [-> ->].
    unfold assignParents in Hassign. injection Hassign as <-.
    destruct (decide (n = 1)) as [-> | Hn].
    + apply bind_Ok in Hnew as (root & st4 & Hroot & Hnew).
      apply ret_Ok in Hnew as [-> ->].
      rewrite createMeshletWip_Ok in Hroot. injection Hroot as <- <-.
      exists [indexBuffer
                (simplifiedGroup calculateTargetIndexCount simplifyMesh
                   parsedMesh children)].
      split; [done |]. split; [done |].
      cbn. by rewrite Nat.add_0_r.
    + apply splitIntoMeshlets_Ok in Hnew as (idxs & Hne & -> & ->).
      exists idxs. done.
Qed.

Lemma childrenOf_valid (store : list MeshletWIP) (g : list (option Ref))
  (children : list MeshletWIP) (c : Ref) :
  childrenOf store g children → c ∈ groupRefs g →
  ∃ m, store !! c = Some m ∧ m ∈ children.
Proof.
  unfold groupRefs.
  induction 1 as [| r m g children (i & -> & Hi) _ IH]; cbn.
  - by intros ?%elem_of_nil.
  - intros [-> | Hc]%elem_of_cons.
    + exists m. split; [done | apply list_elem_of_here].
    + destruct (IH Hc) as (m' & Hm' & Hin).
      exists m'. split; [done | by apply list_elem_of_further].
Qed.

Lemma childrenOf_unique (store : list MeshletWIP) (g : list (option Ref))
  (children children' : list MeshletWIP) :
  childrenOf store g children → childrenOf store g children' →
  children' = children.
Proof.
  intros H. revert children'.
  induction H as [| r m g children (i & -> & Hi) _ IH]; intros children' H'.
  - by inversion H'.
  - inversion H' as [| ? m' ? rest (i' & Heq & Hi') Hrest]; subst.
    injection Heq as <-.
    rewrite Hi in Hi'. injection Hi' as <-. f_equal. by apply IH.
Qed.

Lemma elem_of_groupRefs (g : list (option Ref)) (c : Ref) :
  c ∈ groupRefs g ↔ Some c ∈ g.
Proof.
  unfold groupRefs. rewrite list_elem_of_omap. split.
  - by intros (r & Hr & ->).
  - intros Hc. by exists (Some c).
Qed.

(** A stalled group leaves every meshlet as it is and only warns. *)
Lemma processGroup_stalled (lvl n : nat) (g : list (option Ref)) (st : State)
  (children : list MeshletWIP) :
  childrenOf (allMeshlets st) g children →
  stalls children = true →
  processGroup' lvl n g st = Ok ([], warned st (warningOf lvl children)).
Proof.
  intros Hchildren Hstall. unfold processGroup.
  destruct (group_refs g st children Hchildren) as [Hg Hrefs].
  rewrite Hg at 1.
  rewrite (bind_step _ _ _ _ _ (forM_deref_Some _ _ _ Hrefs)).
  fold (simplifiedGroup calculateTargetIndexCount simplifyMesh parsedMesh children).
  fold (stalls children). rewrite Hstall. done.
Qed.

(** The store after a group, entry by entry. *)
Lemma processGroup_lookup (lvl n : nat) (g : list (option Ref)) (st st' : State)
  (new : list Ref) (children : list MeshletWIP) :
  processGroup' lvl n g st = Ok (new, st') →
  childrenOf (allMeshlets st) g children →
  length (allMeshlets st) ≤ length (allMeshlets st')
  ∧ Forall (λ r, length (allMeshlets st) ≤ r < length (allMeshlets st')) new
  ∧ (∀ w, w ∈ console st → w ∈ console st')
  ∧ (∀ i, i < length (allMeshlets st) →
          allMeshlets st' !! i
          = (if decide (i ∈ groupRefs g ∧ stalls children = false)
             then assignParent (errorOf children) (boundsOf children)
             else λ m, m) <$> allMeshlets st !! i)
  ∧ (∀ i m, length (allMeshlets st) ≤ i → allMeshlets st' !! i = Some m →
            stalls children = false
            ∧ new ≠ []
            ∧ ∃ k idx, m = fresh lvl (errorOf children) (groupRefs g)
                             (boundsOf children) k idx).
Proof.
  intros H Hchildren.
  apply processGroup_Ok in H as (children' & Hchildren' & H).
  rewrite (childrenOf_unique _ _ _ _ Hchildren Hchildren') in H.
  clear children' Hchildren'.
  destruct (stalls children) eqn:Hstall.
  - destruct H as [-> ->]. cbn.
    split; [done |]. split; [constructor |].
    split; [intros w Hw; apply elem_of_app; by left |].
    split.
    + intros i Hi. rewrite decide_False by (intros [_ ?]; done).
      by destruct (allMeshlets st !! i).
    + intros i m Hi Hm. apply lookup_lt_Some in Hm. lia.
  - destruct H as (idxs & Hne & -> & ->). cbn [allMeshlets console].
    rewrite length_assignAll, length_app, length_imap.
    split; [lia |].
    split; [apply Forall_seq; intros j Hj; lia |].
    split; [done |].
    split.
    + intros i Hi. rewrite lookup_assignAll, lookup_app_l by done.
      destruct (decide (i ∈ groupRefs g)).
      * by rewrite decide_True.
      * rewrite decide_False; [done | by intros [? _]].
    + intros i m Hi Hm. split; [done |].
      split; [destruct idxs; done |].
      rewrite lookup_assignAll in Hm.
      rewrite decide_False in Hm.
      2:{ intros Hin. destruct (childrenOf_valid _ _ _ _ Hchildren Hin)
            as (m' & Hm' & _). apply lookup_lt_Some in Hm'. lia. }
      rewrite lookup_app_r in Hm by done.
      rewrite list_lookup_imap in Hm.
      destruct (idxs !! (i - length (allMeshlets st))) as [idx |]; [| done].
      injection Hm as <-. eauto.
Qed.

End GroupFacts.

(** ** Order facts on numbers *)

Lemma ge_Fin (x y : Q) : ge (Fin x) (Fin y) = true ↔ (y <= x)%Q.
Proof. cbn. apply Qle_bool_iff. Qed.

Lemma gt_Fin (x y : Q) : gt (Fin x) (Fin y) = true ↔ (y < x)%Q.
Proof.
  cbn. rewrite negb_true_iff. split.
  - intros H. apply Qnot_le_lt. intros Hle.
    apply Qle_bool_iff in Hle. congruence.
  - intros H. destruct (Qle_bool x y) eqn:Hle; [| done].
    apply Qle_bool_iff in Hle. by apply Qlt_not_le in H.
Qed.

Lemma ordinary_cases (x : number) : ordinary x → (∃ q, x = Fin q) ∨ x = NInf.
Proof. intros [? ?]. destruct x; eauto; done. Qed.

Lemma ordinary_Fin (q : Q) : ordinary (Fin q).
Proof. split; discriminate. Qed.

Lemma ordinary_NInf : ordinary NInf.
Proof. split; discriminate. Qed.

Lemma ge_trans (x y z : number) :
  ge x y = true → ge y z = true → ge x z = true.
Proof.
  destruct x as [a | | |], y as [b | | |], z as [c | | |]; cbn; try done.
  rewrite !Qle_bool_iff. intros Hba Hcb. by apply (Qle_trans c b a).
Qed.

Lemma max2_spec (a b : number) :
  ordinary a → ordinary b →
  ordinary (max2 a b) ∧ ge (max2 a b) a = true ∧ ge (max2 a b) b = true.
Proof.
  intros [[x ->] | ->]%ordinary_cases [[y ->] | ->]%ordinary_cases.
  - unfold max2. destruct (gt (Fin y) (Fin x)) eqn:Hgt.
    + apply gt_Fin in Hgt. rewrite !ge_Fin.
      split; [apply ordinary_Fin |]. split; [by apply Qlt_le_weak | apply Qle_refl].
    + rewrite !ge_Fin. split; [apply ordinary_Fin |].
      split; [apply Qle_refl |].
      apply Qnot_lt_le. intros Hlt. apply gt_Fin in Hlt. congruence.
  - cbn. rewrite Qle_bool_iff. split; [apply ordinary_Fin |].
    split; [apply Qle_refl | done].
  - cbn. rewrite Qle_bool_iff. split; [apply ordinary_Fin |].
    split; [done | apply Qle_refl].
  - cbn. split; [apply ordinary_NInf | done].
Qed.

Lemma foldl_max2_spec (xs : list number) (a : number) :
  ordinary a → Forall ordinary xs →
  ordinary (foldl max2 a xs)
  ∧ ge (foldl max2 a xs) a = true
  ∧ Forall (λ x, ge (foldl max2 a xs) x = true) xs.
Proof.
  revert a. induction xs as [| x xs IH]; intros a Ha Hxs.
  - cbn. split; [done |]. split; [| constructor].
    destruct (ordinary_cases a Ha) as [[q ->] | ->]; [| done].
    apply ge_Fin, Qle_refl.
  - apply Forall_cons in Hxs as [Hx Hxs]. cbn [foldl].
    destruct (max2_spec a x Ha Hx) as (Hm & Hma & Hmx).
    destruct (IH (max2 a x) Hm Hxs) as (Hf & Hfm & Hfxs).
    split; [done |]. split; [by eapply ge_trans |].
    constructor; [by eapply ge_trans | done].
Qed.

(** [Math.max] of numbers that are neither [NaN] nor [+Infinity] is such a
    number, and at least each of them. *)
Lemma Math_max_spec (xs : list number) :
  Forall ordinary xs →
  ordinary (Math_max xs) ∧ Forall (λ x, ge (Math_max xs) x = true) xs.
Proof.
  intros Hxs.
  destruct (foldl_max2_spec xs NInf ordinary_NInf Hxs) as (H1 & _ & H2).
  done.
Qed.

(** Adding a finite non-negative number keeps a bound. *)
Lemma add_nonneg_ge (q : Q) (m x : number) :
  (0 <= q)%Q → ordinary m → ordinary x → ge m x = true →
  ordinary (add (Fin q) m) ∧ ge (add (Fin q) m) x = true.
Proof.
  intros Hq [[a ->] | ->]%ordinary_cases [[b ->] | ->]%ordinary_cases; cbn.
  - rewrite !Qle_bool_iff. intros Hba. split; [apply ordinary_Fin | lra].
  - intros _. split; [apply ordinary_Fin | done].
  - done.
  - intros _. split; [apply ordinary_NInf | done].
Qed.

(** ** What a level and the loop do to the state *)

Section LevelFacts.

Variable meshopt_buildMeshlets :
  ParsedMesh → Indices →
  list Meshopt.meshopt_Meshlet * list nat * list nat.
Variable listAllEdges : Indices → list Edge.
Variable findBoundaryEdges : list Edge → list Edge.
Variable calculateBounds : list Q → Indices → BoundingSphere.
Variable calculateTargetIndexCount : nat → nat → nat.
Variable simplifyMesh : ParsedMesh → Indices → nat → SimplifiedMesh.
Variable partitionGraph : Adjacency.t → nat → list (list nat).
Variable useMapToFindAdjacentEdges : bool.
Variable parsedMesh : ParsedMesh.

Local Abbreviation processGroup' :=
  (processGroup meshopt_buildMeshlets listAllEdges findBoundaryEdges
     calculateBounds calculateTargetIndexCount simplifyMesh parsedMesh).
Local Abbreviation processGroups' :=
  (processGroups meshopt_buildMeshlets listAllEdges findBoundaryEdges
     calculateBounds calculateTargetIndexCount simplifyMesh parsedMesh).
Local Abbreviation partitionMeshlets' :=
  (partitionMeshlets partitionGraph useMapToFindAdjacentEdges).
Local Abbreviation lodLoop' :=
  (lodLoop meshopt_buildMeshlets listAllEdges findBoundaryEdges
     calculateBounds calculateTargetIndexCount simplifyMesh partitionGraph
     useMapToFindAdjacentEdges parsedMesh).
Local Abbreviation fresh := (freshWip listAllEdges findBoundaryEdges).
Local Abbreviation stalls :=
  (groupStalls calculateTargetIndexCount simplifyMesh parsedMesh).
Local Abbreviation warningOf :=
  (groupWarning calculateTargetIndexCount simplifyMesh parsedMesh).
Local Abbreviation errorOf :=
  (groupError calculateTargetIndexCount simplifyMesh parsedMesh).
Local Abbreviation boundsOf := (groupBounds calculateBounds parsedMesh).

Lemma processGroups_cons (lvl n : nat) (g : list (option Ref))
  (groups : list (list (option Ref))) (st st' : State) (new : list Ref) :
  processGroups' lvl n (g :: groups) st = Ok (new, st') →
  ∃ new1 st1 new2,
    processGroup' lvl n g st = Ok (new1, st1)
    ∧ processGroups' lvl n groups st1 = Ok (new2, st')
    ∧ new = new1 ++ new2.
Proof.
  cbn [processGroups]. intros H.
  apply bind_Ok in H as (new1 & st1 & H1 & H).
  apply bind_Ok in H as (new2 & st2 & H2 & H).
  apply ret_Ok in H as [-> ->]. by exists new1, st1, new2.
Qed.

(** A level only appends meshlets, keeps earlier warnings, and leaves alone
    every meshlet that is in none of its groups. *)
Lemma processGroups_frame (lvl n : nat) (groups : list (list (option Ref)))
  (st st' : State) (new : list Ref) :
  processGroups' lvl n groups st = Ok (new, st') →
  length (allMeshlets st) ≤ length (allMeshlets st')
  ∧ Forall (λ r, length (allMeshlets st) ≤ r < length (allMeshlets st')) new
  ∧ (∀ w, w ∈ console st → w ∈ console st')
  ∧ (∀ i, i < length (allMeshlets st) →
          (∀ g, g ∈ groups → Some i ∉ g) →
          allMeshlets st' !! i = allMeshlets st !! i).
Proof.
  revert st new. induction groups as [| g groups IH]; intros st new H.
  - apply ret_Ok in H as [-> ->].
    split; [done |]. split; [constructor |]. done.
  - apply processGroups_cons in H as (new1 & st1 & new2 & H1 & H2 & ->).
    destruct (processGroup_Ok _ _ _ _ _ _ _ _ _ _ _ _ _ H1)
      as (children & Hchildren & _).
    destruct (processGroup_lookup _ _ _ _ _ _ _ _ _ _ _ _ _ _ H1 Hchildren)
      as (Hlen1 & Hnew1 & Hcon1 & Hold1 & _).
    destruct (IH _ _ H2) as (Hlen2 & Hnew2 & Hcon2 & Hold2).
    split; [lia |]. split; [| split].
    + apply Forall_app. split.
      * eapply Forall_impl; [exact Hnew1 |]. cbn. lia.
      * eapply Forall_impl; [exact Hnew2 |]. cbn. lia.
    + auto.
    + intros i Hi Hout.
      rewrite Hold2.
      * rewrite Hold1 by done.
        rewrite decide_False; [by destruct (allMeshlets st !! i) |].
        intros [Hin _]. apply elem_of_groupRefs in Hin.
        by apply (Hout g); [apply list_elem_of_here |].
      * lia.
      * intros g' Hg'. apply Hout. by apply list_elem_of_further.
Qed.

Lemma partitionMeshlets_members (cur : list Ref) (store : list MeshletWIP)
  (g : list (option Ref)) (i : Ref) :
  g ∈ partitionMeshlets' cur store → Some i ∈ g → i ∈ cur.
Proof.
  unfold partitionMeshlets.
  destruct (decide (GROUP_SIZE < length cur)).
  - intros (part & -> & _)%list_elem_of_fmap.
    intros (k & Hk & _)%list_elem_of_fmap.
    symmetry in Hk. by eapply list_elem_of_lookup_2.
  - intros ->%list_elem_of_singleton.
    by intros (j & [= ->] & Hj)%list_elem_of_fmap.
Qed.

Lemma lodLoop_step (remaining lvl : nat) (cur : list Ref) (st st' : State)
  (res : nat * list Ref) :
  2 ≤ length cur →
  lodLoop' (S remaining) lvl cur st = Ok (res, st') →
  ∃ newly st1,
    processGroups' lvl (length (partitionMeshlets' cur (allMeshlets st)))
      (partitionMeshlets' cur (allMeshlets st)) st = Ok (newly, st1)
    ∧ ¬ (lvl = 1 ∧ length newly = 0)
    ∧ lodLoop' remaining (S lvl) newly st1 = Ok (res, st').
Proof.
  intros Hcur. cbn [lodLoop].
  rewrite decide_False by lia. intros H.
  apply bind_Ok in H as (st0 & st0' & Hget & H).
  unfold get in Hget. injection Hget as <- <-.
  apply bind_Ok in H as (newly & st1 & Hgroups & H).
  exists newly, st1. split; [done |].
  destruct (decide (lvl = 1 ∧ length newly = 0)); [discriminate | done].
Qed.

(** The loop never touches a meshlet that exists already and is not in the
    current level. *)
Lemma lodLoop_frame (remaining lvl : nat) (cur : list Ref) (st st' : State)
  (res : nat * list Ref) :
  lodLoop' remaining lvl cur st = Ok (res, st') →
  length (allMeshlets st) ≤ length (allMeshlets st')
  ∧ (∀ w, w ∈ console st → w ∈ console st')
  ∧ (∀ i, i < length (allMeshlets st) → i ∉ cur →
          allMeshlets st' !! i = allMeshlets st !! i).
Proof.
  revert lvl cur st.
  induction remaining as [| remaining IH]; intros lvl cur st H.
  - apply ret_Ok in H as [-> ->]. done.
  - destruct (decide (length cur < 2)) as [Hshort | Hlong].
    + cbn [lodLoop] in H. rewrite decide_True in H by done.
      apply ret_Ok in H as [-> ->]. done.
    + apply lodLoop_step in H as (newly & st1 & Hgroups & _ & Hrest); [| lia].
      apply processGroups_frame in Hgroups as (Hlen1 & Hnew1 & Hcon1 & Hold1).
      apply IH in Hrest as (Hlen2 & Hcon2 & Hold2).
      split; [lia |]. split; [auto |].
      intros i Hi Hout. rewrite Hold2.
      * apply Hold1; [done |]. intros g Hg Hin.
        apply Hout. by eapply partitionMeshlets_members.
      * lia.
      * intros Hin. rewrite Forall_forall in Hnew1.
        apply Hnew1 in Hin. lia.
Qed.

Lemma childrenOf_ext (store store' : list MeshletWIP) (g : list (option Ref))
  (children : list MeshletWIP) :
  (∀ c, Some c ∈ g → store' !! c = store !! c) →
  childrenOf store g children → childrenOf store' g children.
Proof.
  intros Hsame H.
  induction H as [| r m g children (i & -> & Hi) _ IH]; [constructor |].
  constructor.
  - exists i. split; [done |]. rewrite Hsame; [done | apply list_elem_of_here].
  - apply IH. intros c Hc. apply Hsame. by apply list_elem_of_further.
Qed.

(** With disjoint groups, a member of a group is written by that group only:
    after the level it has its group's parent data if the group survived and
    is untouched if the group stalled, in which case the warning is on the
    console. *)
Lemma processGroups_member (lvl n : nat) (groups : list (list (option Ref)))
  (st st' : State) (new : list Ref) (g : list (option Ref))
  (children : list MeshletWIP) :
  processGroups' lvl n groups st = Ok (new, st') →
  NoDup (concat groups) →
  g ∈ groups →
  childrenOf (allMeshlets st) g children →
  (∀ c, c ∈ groupRefs g →
        allMeshlets st' !! c
        = (if stalls children then λ m, m
           else assignParent (errorOf children) (boundsOf children))
            <$> allMeshlets st !! c)
  ∧ (stalls children = true → warningOf lvl children ∈ console st').
Proof.
  revert st new. induction groups as [| g0 groups IH];
    intros st new H Hdisjoint Hg Hchildren.
  - by apply elem_of_nil in Hg.
  - apply processGroups_cons in H as (new1 & st1 & new2 & H1 & H2 & ->).
    cbn [concat] in Hdisjoint.
    apply NoDup_app in Hdisjoint as (_ & Hapart & Hdisjoint).
    apply elem_of_cons in Hg as [-> | Hg].
    + destruct (processGroup_lookup _ _ _ _ _ _ _ _ _ _ _ _ _ _ H1 Hchildren)
        as (Hlen1 & _ & _ & Hold1 & _).
      destruct (processGroups_frame _ _ _ _ _ _ H2) as (_ & _ & Hcon2 & Hold2).
      split.
      * intros c Hc.
        destruct (childrenOf_valid _ _ _ _ Hchildren Hc) as (m & Hm & _).
        apply lookup_lt_Some in Hm.
        rewrite Hold2.
        -- rewrite Hold1 by done. destruct (stalls children).
           ++ rewrite decide_False; [done | by intros [_ ?]].
           ++ by rewrite decide_True.
        -- lia.
        -- intros g' Hg' Hin. apply (Hapart (Some c)).
           ++ by apply elem_of_groupRefs.
           ++ apply list_elem_of_In, in_concat. exists g'.
              by rewrite <- !list_elem_of_In.
      * intros Hstall. apply Hcon2.
        rewrite (processGroup_stalled _ _ _ _ _ _ _ lvl n _ _ _ Hchildren Hstall)
          in H1.
        injection H1 as <- <-. cbn. apply elem_of_app. right.
        apply list_elem_of_here.
    + destruct (processGroup_Ok _ _ _ _ _ _ _ _ _ _ _ _ _ H1)
        as (children0 & Hchildren0 & _).
      destruct (processGroup_lookup _ _ _ _ _ _ _ _ _ _ _ _ _ _ H1 Hchildren0)
        as (Hlen1 & _ & _ & Hold1 & _).
      assert (Hsame : ∀ c, Some c ∈ g →
                allMeshlets st1 !! c = allMeshlets st !! c).
      { intros c Hc.
        assert (Hvalid : c ∈ groupRefs g) by by apply elem_of_groupRefs.
        destruct (childrenOf_valid _ _ _ _ Hchildren Hvalid) as (m & Hm & _).
        rewrite Hold1 by (by apply lookup_lt_Some in Hm).
        rewrite decide_False; [by rewrite Hm |].
        intros [Hin _]. apply elem_of_groupRefs in Hin.
        apply (Hapart (Some c) Hin).
        apply list_elem_of_In, in_concat. exists g.
        by rewrite <- !list_elem_of_In. }
      destruct (IH _ _ H2 Hdisjoint Hg (childrenOf_ext _ _ _ _ Hsame Hchildren))
        as [Hrefs Hwarn].
      split; [| done].
      intros c Hc. rewrite Hrefs by done.
      rewrite Hsame; [done | by apply elem_of_groupRefs].
Qed.

Local Abbreviation levelStart' :=
  (levelStart meshopt_buildMeshlets listAllEdges findBoundaryEdges
     calculateBounds calculateTargetIndexCount simplifyMesh partitionGraph
     useMapToFindAdjacentEdges parsedMesh).
Local Abbreviation buildLodLevels' :=
  (buildLodLevels meshopt_buildMeshlets listAllEdges findBoundaryEdges
     calculateBounds calculateTargetIndexCount simplifyMesh partitionGraph
     useMapToFindAdjacentEdges parsedMesh).
Local Abbreviation createNaniteMeshlets' :=
  (createNaniteMeshlets meshopt_buildMeshlets listAllEdges findBoundaryEdges
     calculateBounds calculateTargetIndexCount simplifyMesh partitionGraph
     useMapToFindAdjacentEdges parsedMesh).
Local Abbreviation splitIntoMeshlets' :=
  (splitIntoMeshlets meshopt_buildMeshlets listAllEdges findBoundaryEdges
     parsedMesh).

(** One level and all that follows, seen from a member of one of its
    groups. *)
Lemma lodLoop_member (remaining lvl : nat) (cur : list Ref) (st st' : State)
  (res : nat * list Ref) (g : list (option Ref)) (children : list MeshletWIP) :
  2 ≤ length cur →
  g ∈ partitionMeshlets' cur (allMeshlets st) →
  NoDup (concat (partitionMeshlets' cur (allMeshlets st))) →
  childrenOf (allMeshlets st) g children →
  lodLoop' (S remaining) lvl cur st = Ok (res, st') →
  (∀ c, c ∈ groupRefs g →
        allMeshlets st' !! c
        = (if stalls children then λ m, m
           else assignParent (errorOf children) (boundsOf children))
            <$> allMeshlets st !! c)
  ∧ (stalls children = true → warningOf lvl children ∈ console st').
Proof.
  intros Hcur Hg Hdisjoint Hchildren H.
  apply lodLoop_step in H as (newly & st1 & Hgroups & _ & Hrest); [| done].
  destruct (processGroups_member _ _ _ _ _ _ _ _ Hgroups Hdisjoint Hg Hchildren)
    as [Hrefs Hwarn].
  destruct (processGroups_frame _ _ _ _ _ _ Hgroups) as (Hlen1 & Hnew1 & _ & _).
  destruct (lodLoop_frame _ _ _ _ _ _ Hrest) as (_ & Hcon2 & Hold2).
  split; [| auto].
  intros c Hc. rewrite <- Hrefs by done.
  destruct (childrenOf_valid _ _ _ _ Hchildren Hc) as (m & Hm & _).
  apply lookup_lt_Some in Hm.
  apply Hold2; [lia |].
  intros Hin. rewrite Forall_forall in Hnew1. apply Hnew1 in Hin. lia.
Qed.

(** From a loop head, the rest of the loop is the rest of the call. *)
Lemma levelStart_run (idx : Indices) (st0 : State) (remaining lvl : nat)
  (cur : list Ref) (st : State) :
  levelStart' idx st0 remaining lvl cur st →
  buildLodLevels' idx st0 = lodLoop' remaining lvl cur st.
Proof.
  induction 1 as [bottom st1 Hfirst
                 | remaining lvl cur st newly st1 _ IH Hcur Hgroups Hgo].
  - unfold buildLodLevels.
    apply bind_Ok in Hfirst as ([] & st0' & Hreset & Hsplit).
    rewrite (bind_step _ _ _ _ _ Hreset).
    by rewrite (bind_step _ _ _ _ _ Hsplit).
  - rewrite IH. cbn [lodLoop]. rewrite decide_False by lia.
    rewrite (bind_step _ _ st st st) by done.
    rewrite (bind_step _ _ _ _ _ Hgroups).
    by rewrite decide_False.
Qed.

Lemma createNaniteMeshlets_Ok (idx : Indices) (st0 stF : State)
  (ms : list MeshletWIP) :
  createNaniteMeshlets' idx st0 = Ok (ms, stF) ↔
  ∃ res, buildLodLevels' idx st0 = Ok (res, stF) ∧ ms = allMeshlets stF.
Proof.
  unfold createNaniteMeshlets. split.
  - intros H. apply bind_Ok in H as (res & st1 & Hbuild & H).
    apply bind_Ok in H as (st2 & st3 & Hget & H).
    unfold get in Hget. injection Hget as <- <-.
    apply ret_Ok in H as [-> ->]. by exists res.
  - intros (res & Hbuild & ->).
    by rewrite (bind_step _ _ _ _ _ Hbuild).
Qed.

(** The meshlets a level creates are distinct and have no parent when the
    level ends, provided the groups are made of meshlets that existed when
    the level began. *)
Lemma processGroups_new_roots (lvl n : nat) (groups : list (list (option Ref)))
  (st st' : State) (new : list Ref) :
  processGroups' lvl n groups st = Ok (new, st') →
  (∀ g r, g ∈ groups → Some r ∈ g → r < length (allMeshlets st)) →
  NoDup new
  ∧ Forall (λ c, ∃ m, allMeshlets st' !! c = Some m
                     ∧ parentBounds m = None ∧ parentError m = Infinity) new.
Proof.
  revert st new. induction groups as [| g groups IH]; intros st new H Hold.
  - apply ret_Ok in H as [-> ->]. split; constructor.
  - apply processGroups_cons in H as (new1 & st2 & new2 & H1 & H2 & ->).
    destruct (processGroups_frame _ _ _ _ _ _ H2)
      as (Hlen2 & Hnew2 & _ & Hold2).
    destruct (processGroup_Ok _ _ _ _ _ _ _ _ _ _ _ _ _ H1)
      as (children & Hchildren & Hcases).
    destruct (processGroup_lookup _ _ _ _ _ _ _ _ _ _ _ _ _ _ H1 Hchildren)
      as (Hlen1 & Hnew1 & _ & _ & Hfresh1).
    destruct (IH _ _ H2) as [Hnodup2 Hroots2].
    { intros g' r Hg' Hr. specialize (Hold g' r).
      assert (r < length (allMeshlets st)); [| lia].
      apply Hold; [by apply list_elem_of_further | done]. }
    rewrite Forall_forall in Hnew1, Hnew2.
    assert (Hnodup1 : NoDup new1).
    { destruct (stalls children).
      - destruct Hcases as [-> _]. constructor.
      - destruct Hcases as (idxs & _ & -> & _). apply NoDup_seq. }
    split.
    + apply NoDup_app. split; [done |]. split; [| done].
      intros r Hr1 Hr2. apply Hnew1 in Hr1. apply Hnew2 in Hr2. lia.
    + apply Forall_app. split; [| done].
      apply Forall_forall. intros r Hr. pose proof (Hnew1 r Hr) as Hrange.
      destruct (lookup_lt_is_Some_2 (allMeshlets st2) r) as [m Hm]; [lia |].
      destruct (Hfresh1 r m) as (_ & _ & k & idx' & ->); [lia | done |].
      exists (fresh lvl (errorOf children) (groupRefs g) (boundsOf children)
                k idx').
      split; [| done].
      rewrite Hold2; [done | lia |].
      intros g' Hg' Hin.
      assert (r < length (allMeshlets st)); [| lia].
      apply (Hold g' r); [by apply list_elem_of_further | done].
Qed.

(** At a loop head the current meshlets are distinct meshlets of the store
    that have no parent yet. *)
Lemma levelStart_roots (idx : Indices) (st0 : State) (remaining lvl : nat)
  (cur : list Ref) (st : State) :
  levelStart' idx st0 remaining lvl cur st →
  NoDup cur
  ∧ Forall (λ c, ∃ m, allMeshlets st !! c = Some m
                     ∧ parentBounds m = None ∧ parentError m = Infinity) cur.
Proof.
  induction 1 as [bottom st1 Hfirst
                 | remaining lvl cur st newly st1 _ [_ IH] Hcur Hgroups Hgo].
  - apply bind_Ok in Hfirst as ([] & st0' & Hreset & Hsplit).
    unfold resetSession in Hreset. injection Hreset as <-.
    apply splitIntoMeshlets_Ok in Hsplit as (idxs & _ & -> & ->).
    cbn. split; [apply NoDup_seq |].
    apply Forall_seq. intros j Hj. cbn in Hj.
    rewrite list_lookup_imap.
    destruct (idxs !! j) as [idx' |] eqn:Hidx.
    + cbn. eauto.
    + apply lookup_ge_None in Hidx. lia.
  - eapply processGroups_new_roots; [exact Hgroups |].
    intros g r Hg Hr.
    apply (partitionMeshlets_members _ _ _ _ Hg) in Hr.
    rewrite Forall_forall in IH.
    destruct (IH r Hr) as (m & Hm & _). by apply lookup_lt_Some in Hm.
Qed.

(** A level of at most [GROUP_SIZE] meshlets is one group, so its groups are
    disjoint whatever the partitioner does. *)
Lemma partition_disjoint (idx : Indices) (st0 : State) (remaining lvl : nat)
  (cur : list Ref) (st : State) :
  levelStart' idx st0 remaining lvl cur st →
  (GROUP_SIZE < length cur →
   NoDup (concat (partitionMeshlets' cur (allMeshlets st)))) →
  NoDup (concat (partitionMeshlets' cur (allMeshlets st))).
Proof.
  intros Hhead Hparts.
  destruct (decide (GROUP_SIZE < length cur)) as [Hlarge | Hsmall]; [auto |].
  unfold partitionMeshlets. rewrite decide_False by done.
  cbn. rewrite app_nil_r.
  apply NoDup_fmap; [by intros ? ? [= ->] |].
  by destruct (levelStart_roots _ _ _ _ _ _ Hhead).
Qed.

Local Abbreviation simplified :=
  (simplifiedGroup calculateTargetIndexCount simplifyMesh parsedMesh).

Lemma processGroups_skip_stalled (lvl n : nat) (g : list (option Ref))
  (rest : list (list (option Ref))) (st : State) (children : list MeshletWIP) :
  childrenOf (allMeshlets st) g children →
  stalls children = true →
  processGroups' lvl n (g :: rest) st
  = processGroups' lvl n rest (warned st (warningOf lvl children)).
Proof.
  intros Hchildren Hstall. cbn [processGroups].
  rewrite (bind_step _ _ _ _ _
             (processGroup_stalled _ _ _ _ _ _ _ lvl n _ _ _ Hchildren Hstall)).
  unfold bind.
  by destruct (processGroups' lvl n rest (warned st (warningOf lvl children)))
    as [[new st'] | e].
Qed.

(** C3: a group whose simplification ratio (triangles after / triangles
    before) exceeds 0.97 is abandoned.  Processing it creates no meshlet,
    changes no meshlet, puts a warning with the level and the two triangle
    counts on the console, and the loop goes on with the next groups; and
    when the groups the partitioner made for the level are disjoint, its
    members are still parentless, with [parentError = Infinity], in what the
    call returns. *)
Theorem stalled_group_is_abandoned (idx : Indices) (st0 : State)
  (remaining lvl : nat) (cur : list Ref) (st : State)
  (g : list (option Ref)) (children : list MeshletWIP)
  (ms : list MeshletWIP) (stF : State) :
  levelStart' idx st0 (S remaining) lvl cur st →
  2 ≤ length cur →
  g ∈ partitionMeshlets' cur (allMeshlets st) →
  (GROUP_SIZE < length cur →
   NoDup (concat (partitionMeshlets' cur (allMeshlets st)))) →
  childrenOf (allMeshlets st) g children →
  gt (div (getTriangleCount (indexBuffer (simplified children)))
        (getTriangleCount (mergeMeshlets children)))
     SIMPLIFICATION_FACTOR_REQ = true →
  createNaniteMeshlets' idx st0 = Ok (ms, stF) →
  (∀ n rest st2,
      childrenOf (allMeshlets st2) g children →
      processGroup' lvl n g st2
      = Ok ([], mkState (NEXT_MESHLET_ID st2) (allMeshlets st2)
                  (console st2
                     ++ [mkWarning lvl (getTriangleCount (mergeMeshlets children))
                           (getTriangleCount (indexBuffer (simplified children)))]))
      ∧ processGroups' lvl n (g :: rest) st2
        = processGroups' lvl n rest (warned st2 (warningOf lvl children)))
  ∧ (∀ c, c ∈ groupRefs g →
          ∃ m, allMeshlets st !! c = Some m ∧ ms !! c = Some m
               ∧ parentBounds m = None ∧ parentError m = Infinity)
  ∧ mkWarning lvl (getTriangleCount (mergeMeshlets children))
      (getTriangleCount (indexBuffer (simplified children)))
    ∈ console stF.
Proof.
  intros Hhead Hcur Hg Hparts Hchildren Hratio Hcall.
  pose proof (partition_disjoint _ _ _ _ _ _ Hhead Hparts) as Hdisjoint.
  assert (Hstall : stalls children = true) by exact Hratio.
  apply createNaniteMeshlets_Ok in Hcall as (res & Hbuild & ->).
  rewrite (levelStart_run _ _ _ _ _ _ Hhead) in Hbuild.
  destruct (lodLoop_member _ _ _ _ _ _ _ _ Hcur Hg Hdisjoint Hchildren Hbuild)
    as [Hrefs Hwarn].
  rewrite Hstall in Hrefs.
  split; [| split].
  - intros n rest st2 Hchildren2. split.
    + by apply processGroup_stalled.
    + by apply processGroups_skip_stalled.
  - intros c Hc.
    destruct (levelStart_roots _ _ _ _ _ _ Hhead) as [_ Hroots].
    rewrite Forall_forall in Hroots.
    destruct (Hroots c) as (m & Hm & Hbounds & Herror).
    { apply elem_of_groupRefs in Hc.
      by eapply partitionMeshlets_members. }
    exists m. rewrite Hrefs, Hm by done. done.
  - by apply Hwarn.
Qed.

(** C4: when a group survives, each of its members, which had no parent
    until then, gets [parentError = error * errorScale + max
    maxSiblingsError of the group] and [parentBounds] = the bounds of the
    merged group, the same for all members; its [maxSiblingsError] and
    [sharedSiblingsBounds] stay as they were; and when the groups the
    partitioner made for the level are disjoint, these are the values it has
    after any number of further levels and in what the call returns. *)
Theorem surviving_group_assigns_parent_once (idx : Indices) (st0 : State)
  (remaining lvl : nat) (cur : list Ref) (st : State)
  (g : list (option Ref)) (children : list MeshletWIP)
  (ms : list MeshletWIP) (stF : State) :
  levelStart' idx st0 (S remaining) lvl cur st →
  2 ≤ length cur →
  g ∈ partitionMeshlets' cur (allMeshlets st) →
  (GROUP_SIZE < length cur →
   NoDup (concat (partitionMeshlets' cur (allMeshlets st)))) →
  childrenOf (allMeshlets st) g children →
  gt (div (getTriangleCount (indexBuffer (simplified children)))
        (getTriangleCount (mergeMeshlets children)))
     SIMPLIFICATION_FACTOR_REQ = false →
  createNaniteMeshlets' idx st0 = Ok (ms, stF) →
  ∀ c, c ∈ groupRefs g →
    ∃ m m',
      allMeshlets st !! c = Some m
      ∧ parentBounds m = None ∧ parentError m = Infinity
      ∧ ms !! c = Some m'
      ∧ (∀ k res st', lodLoop' (S k) lvl cur st = Ok (res, st') →
                      allMeshlets st' !! c = Some m')
      ∧ parentError m'
        = add (mul (error (simplified children))
                 (errorScale (simplified children)))
            (Math_max (map maxSiblingsError children))
      ∧ parentBounds m'
        = Some (calculateBounds (positions parsedMesh) (mergeMeshlets children))
      ∧ maxSiblingsError m' = maxSiblingsError m
      ∧ sharedSiblingsBounds m' = sharedSiblingsBounds m
      ∧ sameOwnData m m'.
Proof.
  intros Hhead Hcur Hg Hparts Hchildren Hratio Hcall c Hc.
  pose proof (partition_disjoint _ _ _ _ _ _ Hhead Hparts) as Hdisjoint.
  assert (Hstall : stalls children = false) by exact Hratio.
  apply createNaniteMeshlets_Ok in Hcall as (res & Hbuild & ->).
  rewrite (levelStart_run _ _ _ _ _ _ Hhead) in Hbuild.
  destruct (levelStart_roots _ _ _ _ _ _ Hhead) as [_ Hroots].
  rewrite Forall_forall in Hroots.
  destruct (Hroots c) as (m & Hm & Hbounds & Herror).
  { apply elem_of_groupRefs in Hc. by eapply partitionMeshlets_members. }
  exists m, (assignParent (errorOf children) (boundsOf children) m).
  split; [done |]. split; [done |]. split; [done |].
  split; [| split].
  - destruct (lodLoop_member _ _ _ _ _ _ _ _ Hcur Hg Hdisjoint Hchildren Hbuild)
      as [Hrefs _].
    rewrite Hrefs, Hstall, Hm by done. done.
  - intros k res' st' Hrun.
    destruct (lodLoop_member _ _ _ _ _ _ _ _ Hcur Hg Hdisjoint Hchildren Hrun)
      as [Hrefs _].
    rewrite Hrefs, Hstall, Hm by done. done.
  - done.
Qed.

(** *** State invariants through the loop *)

Section Invariant.

Variable P : State → Prop.
Hypothesis P_group :
  ∀ lvl n g st st' new,
    processGroup' lvl n g st = Ok (new, st') → P st → P st'.

Lemma processGroups_invariant (lvl n : nat) (groups : list (list (option Ref)))
  (st st' : State) (new : list Ref) :
  processGroups' lvl n groups st = Ok (new, st') → P st → P st'.
Proof.
  revert st new. induction groups as [| g groups IH]; intros st new H HP.
  - by apply ret_Ok in H as [-> ->].
  - apply processGroups_cons in H as (new1 & st1 & new2 & H1 & H2 & ->).
    eauto.
Qed.

Lemma levelStart_invariant (idx : Indices) (st0 : State) (remaining lvl : nat)
  (cur : list Ref) (st : State) :
  (∀ bottom st1,
      splitIntoMeshlets' 0 idx (Fin 0) []
        (calculateBounds (positions parsedMesh) idx)
        (mkState 0 [] (console st0)) = Ok (bottom, st1) → P st1) →
  levelStart' idx st0 remaining lvl cur st → P st.
Proof.
  intros Hbottom.
  induction 1 as [bottom st1 Hfirst
                 | remaining lvl cur st newly st1 _ IH Hcur Hgroups Hgo].
  - apply bind_Ok in Hfirst as ([] & st0' & Hreset & Hsplit).
    unfold resetSession in Hreset. injection Hreset as <-. eauto.
  - eauto using processGroups_invariant.
Qed.

Lemma lodLoop_invariant (remaining lvl : nat) (cur : list Ref) (st st' : State)
  (res : nat * list Ref) :
  lodLoop' remaining lvl cur st = Ok (res, st') → P st → P st'.
Proof.
  revert lvl cur st.
  induction remaining as [| remaining IH]; intros lvl cur st H HP.
  - by apply ret_Ok in H as [-> ->].
  - destruct (decide (length cur < 2)) as [Hshort | Hlong].
    + cbn [lodLoop] in H. rewrite decide_True in H by done.
      by apply ret_Ok in H as [-> ->].
    + apply lodLoop_step in H as (newly & st1 & Hgroups & _ & Hrest); [| lia].
      eauto using processGroups_invariant.
Qed.

Lemma createNaniteMeshlets_invariant (idx : Indices) (st0 stF : State)
  (ms : list MeshletWIP) :
  (∀ bottom st1,
      splitIntoMeshlets' 0 idx (Fin 0) []
        (calculateBounds (positions parsedMesh) idx)
        (mkState 0 [] (console st0)) = Ok (bottom, st1) → P st1) →
  createNaniteMeshlets' idx st0 = Ok (ms, stF) → P stF.
Proof.
  intros Hbottom H.
  apply createNaniteMeshlets_Ok in H as (res & Hbuild & ->).
  unfold buildLodLevels in Hbuild.
  apply bind_Ok in Hbuild as ([] & st0' & Hreset & Hbuild).
  unfold resetSession in Hreset. injection Hreset as <-.
  apply bind_Ok in Hbuild as (bottom & st1 & Hsplit & Hloop).
  eauto using lodLoop_invariant.
Qed.

End Invariant.

(** *** Meshlet ids *)







(** *** The error invariant *)

Lemma childrenOf_in_store (store : list MeshletWIP) (g : list (option Ref))
  (children : list MeshletWIP) :
  childrenOf store g children →
  Forall (λ m, ∃ i, store !! i = Some m) children.
Proof.
  induction 1 as [| r m g children (i & -> & Hi) _ IH]; constructor; eauto.
Qed.

Section ErrorInvariant.

(** What the simplifier reports is a finite error that is not negative. *)
Hypothesis simplify_error :
  ∀ idx target,
    ∃ q, mul (error (simplifyMesh parsedMesh idx target))
           (errorScale (simplifyMesh parsedMesh idx target)) = Fin q
         ∧ (0 <= q)%Q.

Lemma groupError_spec (children : list MeshletWIP) :
  Forall errorInvariant children →
  ordinary (errorOf children)
  ∧ Forall (λ m, ge (errorOf children) (maxSiblingsError m) = true) children.
Proof.
  intros Hinv.
  assert (Hord : Forall ordinary (map maxSiblingsError children)).
  { apply Forall_fmap. eapply Forall_impl; [exact Hinv |]. by intros m [? _]. }
  destruct (Math_max_spec _ Hord) as [Hmax Hge].
  unfold groupError, simplifiedGroup.
  destruct (simplify_error (mergeMeshlets children)
              (calculateTargetIndexCount (length (mergeMeshlets children))
                 DECIMATE_FACTOR)) as (q & -> & Hq).
  split.
  - destruct (ordinary_cases _ Hmax) as [[a Ha] | Ha]; rewrite Ha; cbn.
    + apply ordinary_Fin.
    + apply ordinary_NInf.
  - apply Forall_fmap in Hge.
    rewrite Forall_forall in Hge, Hinv. apply Forall_forall. intros m Hm.
    apply add_nonneg_ge; [done | done | by apply Hinv | by apply Hge].
Qed.

Lemma processGroup_errorInvariant (lvl n : nat) (g : list (option Ref))
  (st st' : State) (new : list Ref) :
  processGroup' lvl n g st = Ok (new, st') →
  Forall errorInvariant (allMeshlets st) →
  Forall errorInvariant (allMeshlets st').
Proof.
  intros H Hinv.
  destruct (processGroup_Ok _ _ _ _ _ _ _ _ _ _ _ _ _ H)
    as (children & Hchildren & _).
  destruct (processGroup_lookup _ _ _ _ _ _ _ _ _ _ _ _ _ _ H Hchildren)
    as (_ & _ & _ & Hold & Hfresh).
  assert (Hchildren_inv : Forall errorInvariant children).
  { eapply Forall_impl; [exact (childrenOf_in_store _ _ _ Hchildren) |].
    intros m [i Hi]. by eapply Forall_lookup_1. }
  destruct (groupError_spec children Hchildren_inv) as [Herr Hge].
  apply Forall_lookup. intros i m' Hi.
  destruct (decide (i < length (allMeshlets st))) as [Hlt | Hge'].
  - rewrite Hold in Hi by done.
    destruct (allMeshlets st !! i) as [m |] eqn:Hm; [| done].
    injection Hi as <-.
    pose proof (Forall_lookup_1 _ _ _ _ Hinv Hm) as [Hown Hparent].
    destruct (decide (i ∈ groupRefs g ∧ stalls children = false))
      as [[Hin _] |]; [| done].
    destruct (childrenOf_valid _ _ _ _ Hchildren Hin) as (m2 & Hm2 & Hin2).
    rewrite Hm in Hm2. injection Hm2 as <-.
    split; [done |]. cbn. split; [done |].
    rewrite Forall_forall in Hge. by apply Hge.
  - destruct (Hfresh i m') as (_ & _ & k & idx & ->); [lia | done |].
    split; [done | done].
Qed.

(** C1: provided the simplifier reports finite, non-negative errors: at every
    head of the loop and in what the call returns, a meshlet is a root
    exactly when [parentBounds] is undefined, which is exactly when
    [parentError] is [+Infinity], and a meshlet with a parent has
    [parentError >= maxSiblingsError]. *)
Theorem parent_error_dominates_own_error (idx : Indices) (st0 : State) :
  let invariant (m : MeshletWIP) :=
    (isWIP_Root m = true ↔ parentBounds m = None)
    ∧ (parentBounds m = None ↔ parentError m = Infinity)
    ∧ (parentBounds m ≠ None →
       ge (parentError m) (maxSiblingsError m) = true) in
  (∀ remaining lvl cur st,
      levelStart' idx st0 remaining lvl cur st →
      Forall invariant (allMeshlets st))
  ∧ (∀ ms stF,
        createNaniteMeshlets' idx st0 = Ok (ms, stF) → Forall invariant ms).
Proof.
  intros invariant.
  assert (Himpl : ∀ m, errorInvariant m → invariant m).
  { intros m [Hown Hparent]. unfold invariant, isWIP_Root.
    destruct (parentBounds m) as [b |].
    - destruct Hparent as [[Hinf _] Hge].
      split; [split; discriminate |]. split; [split; done | done].
    - split; [done |]. split; [done | done]. }
  assert (Hbottom : ∀ bottom st1,
    splitIntoMeshlets' 0 idx (Fin 0) []
      (calculateBounds (positions parsedMesh) idx)
      (mkState 0 [] (console st0)) = Ok (bottom, st1) →
    Forall errorInvariant (allMeshlets st1)).
  { intros bottom st1 H.
    apply splitIntoMeshlets_Ok in H as (idxs & _ & _ & ->). cbn.
    apply Forall_lookup. intros i m Hi.
    rewrite list_lookup_imap in Hi.
    destruct (idxs !! i); [| done]. injection Hi as <-.
    split; [apply ordinary_Fin | done]. }
  split.
  - intros remaining lvl cur st Hhead.
    eapply Forall_impl; [| exact Himpl].
    eapply (levelStart_invariant (λ st, Forall errorInvariant (allMeshlets st)));
      [| exact Hbottom | exact Hhead].
    intros ? ? ? ? ? ?. apply processGroup_errorInvariant.
  - intros ms stF Hcall.
    eapply Forall_impl; [| exact Himpl].
    pose proof Hcall as Hcall'.
    apply createNaniteMeshlets_Ok in Hcall' as (res & _ & ->).
    eapply (createNaniteMeshlets_invariant
              (λ st, Forall errorInvariant (allMeshlets st)));
      [| exact Hbottom | exact Hcall].
    intros ? ? ? ? ? ?. apply processGroup_errorInvariant.
Qed.

End ErrorInvariant.

(** *** How a call can end *)

Lemma bind_Throw_inv {A B} (c : M A) (k : A → M B) (st : State) (e : Error) :
  bind c k st = Throw e →
  c st = Throw e ∨ ∃ a st1, c st = Ok (a, st1) ∧ k a st1 = Throw e.
Proof.
  unfold bind. destruct (c st) as [[a st1] | e'].
  - intros H. right. by exists a, st1.
  - intros [= ->]. by left.
Qed.

Lemma forM_deref_Throw (g : list (option Ref)) (st : State) (e : Error) :
  forM deref g st = Throw e → e = TypeError.
Proof.
  induction g as [| r g IH]; [discriminate |].
  cbn [forM]. intros [H | (m & st1 & Hm & H)]%bind_Throw_inv.
  - unfold deref in H. destruct r as [i |]; [| congruence].
    destruct (allMeshlets st !! i); congruence.
  - assert (st1 = st) as ->.
    { unfold deref in Hm. destruct r as [i |]; [| discriminate].
      destruct (allMeshlets st !! i); congruence. }
    apply bind_Throw_inv in H as [H | (ms & st2 & _ & H)]; [auto | discriminate].
Qed.

Lemma splitIntoMeshlets_Throw (lvl : nat) (idx : Indices) (err : number)
  (from : list Ref) (bounds : BoundingSphere) (st : State) (e : Error) :
  splitIntoMeshlets' lvl idx err from bounds st = Throw e → e = TypeError.
Proof.
  unfold splitIntoMeshlets.
  intros [H | (mo & st1 & _ & H)]%bind_Throw_inv.
  - unfold lift, Meshopt.createMeshlets in H.
    destruct (meshopt_buildMeshlets parsedMesh idx) as [[ms verts] tris].
    destruct (last ms); [discriminate | congruence].
  - by rewrite forM_createMeshletWip in H.
Qed.

Lemma processGroup_Throw (lvl n : nat) (g : list (option Ref)) (st : State)
  (e : Error) :
  processGroup' lvl n g st = Throw e → e = TypeError.
Proof.
  unfold processGroup.
  intros [H | (children & st1 & _ & H)]%bind_Throw_inv.
  - by eapply forM_deref_Throw.
  - destruct (isStalled _ _); [discriminate |].
    apply bind_Throw_inv in H as [H | (new & st2 & _ & H)]; [| discriminate].
    destruct (decide (n = 1)).
    + apply bind_Throw_inv in H as [H | (r & st2 & _ & H)]; discriminate.
    + by eapply splitIntoMeshlets_Throw.
Qed.

Lemma processGroups_Throw (lvl n : nat) (groups : list (list (option Ref)))
  (st : State) (e : Error) :
  processGroups' lvl n groups st = Throw e → e = TypeError.
Proof.
  revert st. induction groups as [| g groups IH]; intros st; [discriminate |].
  cbn [processGroups]. intros [H | (new & st1 & _ & H)]%bind_Throw_inv.
  - by eapply processGroup_Throw.
  - apply bind_Throw_inv in H as [H | (rest & st2 & _ & H)]; [eauto | discriminate].
Qed.

(** Past its first level the loop raises no [SimplificationError]; at its
    first level it raises the one that names level 0. *)
Lemma lodLoop_Throw (remaining lvl : nat) (cur : list Ref) (st : State)
  (e : Error) :
  lodLoop' remaining lvl cur st = Throw e →
  e = TypeError
  ∨ (lvl ≤ 1 ∧ e = new_SimplificationError 0 (vertexCount parsedMesh)).
Proof.
  revert lvl cur st.
  induction remaining as [| remaining IH]; intros lvl cur st; [discriminate |].
  cbn [lodLoop]. destruct (decide (length cur < 2)); [discriminate |].
  intros [H | (st1 & st2 & Hget & H)]%bind_Throw_inv; [discriminate |].
  apply bind_Throw_inv in H as [H | (newly & st3 & _ & H)].
  - left. by eapply processGroups_Throw.
  - destruct (decide (lvl = 1 ∧ length newly = 0)) as [[-> _] |].
    + injection H as <-. right. done.
    + apply IH in H as [-> | [Hlvl ->]]; [by left |].
      right. split; [lia | done].
Qed.

Lemma lodLoop_Throw_later (remaining lvl : nat) (cur : list Ref) (st : State)
  (e : Error) :
  2 ≤ lvl → lodLoop' remaining lvl cur st = Throw e → e = TypeError.
Proof. intros Hlvl [-> | [? _]]%lodLoop_Throw; [done | lia]. Qed.


(** *** Roots *)





(** *** The fatal error of level 1 *)

Lemma createNaniteMeshlets_Throw (idx : Indices) (st0 : State) (e : Error) :
  createNaniteMeshlets' idx st0 = Throw e ↔ buildLodLevels' idx st0 = Throw e.
Proof.
  unfold createNaniteMeshlets. split.
  - intros [H | (res & st1 & _ & H)]%bind_Throw_inv; [done |].
    apply bind_Throw_inv in H as [H | (? & ? & _ & H)]; discriminate.
  - apply bind_Throw.
Qed.

Lemma processGroups_all_stalled (lvl n : nat)
  (groups : list (list (option Ref))) (st : State) :
  (∀ g, g ∈ groups →
        ∃ children, childrenOf (allMeshlets st) g children
                    ∧ stalls children = true) →
  ∃ st1, processGroups' lvl n groups st = Ok ([], st1)
         ∧ allMeshlets st1 = allMeshlets st.
Proof.
  revert st. induction groups as [| g groups IH]; intros st Hall.
  - by exists st.
  - destruct (Hall g) as (children & Hchildren & Hstall);
      [apply list_elem_of_here |].
    rewrite (processGroups_skip_stalled _ _ _ _ _ _ Hchildren Hstall).
    destruct (IH (warned st (warningOf lvl children))) as (st1 & H1 & Hsame).
    { intros g' Hg'. apply Hall. by apply list_elem_of_further. }
    by exists st1.
Qed.

Lemma processGroups_none_new (lvl n : nat) (groups : list (list (option Ref)))
  (st st1 : State) :
  processGroups' lvl n groups st = Ok ([], st1) →
  ∀ g, g ∈ groups →
       ∃ children, childrenOf (allMeshlets st) g children
                   ∧ stalls children = true.
Proof.
  revert st. induction groups as [| g groups IH]; intros st H g' Hg'.
  - by apply elem_of_nil in Hg'.
  - apply processGroups_cons in H as (new1 & st2 & new2 & H1 & H2 & Hnil).
    symmetry in Hnil. apply app_eq_nil in Hnil as [-> ->].
    apply processGroup_Ok in H1 as (children & Hchildren & Hcases).
    destruct (stalls children) eqn:Hstall.
    + destruct Hcases as [_ ->].
      apply elem_of_cons in Hg' as [-> | Hg']; [by exists children |].
      by apply (IH _ H2).
    + destruct Hcases as (idxs & Hne & Hseq & _).
      destruct idxs; [done | discriminate].
Qed.

(** C5: with two or more meshlets at level 1, the call raises
    [SimplificationError] exactly when every group of that level stalls, so
    that the level creates nothing; the message of the error is made of the
    level below, [lodLevel - 1 = 0], and of the vertex count of the mesh, and
    of nothing else. *)
Theorem simplification_error_at_level_one (idx : Indices) (st0 : State)
  (remaining : nat) (cur : list Ref) (st : State) :
  levelStart' idx st0 (S remaining) 1 cur st →
  2 ≤ length cur →
  (createNaniteMeshlets' idx st0
   = Throw (new_SimplificationError (1 - 1) (vertexCount parsedMesh))
   ↔ ∀ g, g ∈ partitionMeshlets' cur (allMeshlets st) →
          ∃ children,
            childrenOf (allMeshlets st) g children
            ∧ gt (div (getTriangleCount (indexBuffer (simplified children)))
                    (getTriangleCount (mergeMeshlets children)))
                 SIMPLIFICATION_FACTOR_REQ = true)
  ∧ (∀ message,
        createNaniteMeshlets' idx st0 = Throw (SimplificationError message) →
        message = SimplificationError_message 0 (vertexCount parsedMesh)).
Proof.
  intros Hhead Hcur. split.
  - rewrite createNaniteMeshlets_Throw, (levelStart_run _ _ _ _ _ _ Hhead).
    cbn [lodLoop]. rewrite decide_False by lia.
    rewrite (bind_step _ _ st st st) by done.
    split.
    + intros [H | (newly & st1 & Hgroups & H)]%bind_Throw_inv.
      { apply processGroups_Throw in H. discriminate. }
      destruct (decide (1 = 1 ∧ length newly = 0)) as [[_ Hnone] |].
      * destruct newly; [| discriminate].
        by eapply processGroups_none_new.
      * apply lodLoop_Throw_later in H; [discriminate | lia].
    + intros Hall.
      destruct (processGroups_all_stalled 1
                  (length (partitionMeshlets' cur (allMeshlets st)))
                  _ st Hall) as (st1 & H1 & _).
      by rewrite (bind_step _ _ _ _ _ H1).
  - intros message H. apply createNaniteMeshlets_Throw in H.
    rewrite (levelStart_run _ _ _ _ _ _ Hhead) in H.
    apply lodLoop_Throw in H as [H | [_ H]]; [discriminate |].
    by injection H as ->.
Qed.

End LevelFacts.

(** ** The properties on sample meshes *)

Module SampleFacts.
Import Samples.

Lemma keepLeading_error (idx : Indices) (target : nat) :
  ∃ q, mul (error (keepLeading (mesh 7) idx target))
         (errorScale (keepLeading (mesh 7) idx target)) = Fin q
       ∧ (0 <= q)%Q.
Proof. eexists. split; [reflexivity | done]. Qed.

Lemma strip5_returns :
  build keepLeading true 7 (strip 5)
  = Ok (meshletsOf (build keepLeading true 7 (strip 5)),
        stateOf (build keepLeading true 7 (strip 5))).
Proof. vm_compute. reflexivity. Qed.

Lemma strip5_head :
  levelStart oneTrianglePerMeshlet triangleEdges onceOnly unitSphere halve
    keepLeading inOrder true (mesh 7) (strip 5) initial 20 1 (seq 0 5)
    (leaves 5).
Proof. apply levelStart_first. vm_compute. reflexivity. Qed.

Lemma length_meshletsAt (st : State) (refs : list Ref) :
  length (meshletsAt st refs) ≤ length refs.
Proof.
  unfold meshletsAt. induction refs as [| r refs IH]; [done |].
  cbn. destruct (allMeshlets st !! r); cbn; lia.
Qed.

Lemma childrenOf_meshletsAt (st : State) (refs : list Ref) :
  length (meshletsAt st refs) = length refs →
  childrenOf (allMeshlets st) (map Some refs) (meshletsAt st refs).
Proof.
  induction refs as [| r refs IH]; [constructor |].
  pose proof (length_meshletsAt st refs) as Hle.
  unfold meshletsAt in *. cbn.
  destruct (allMeshlets st !! r) as [m |] eqn:Hr.
  - intros [= Hlen]. constructor; [by exists r | by apply IH].
  - intros Hlen. lia.
Qed.

Lemma parent_error_dominates_own_error_witness :
  Forall (λ m, (isWIP_Root m = true ↔ parentBounds m = None)
               ∧ (parentBounds m = None ↔ parentError m = Infinity)
               ∧ (parentBounds m ≠ None →
                  ge (parentError m) (maxSiblingsError m) = true))
    (meshletsOf (build keepLeading true 7 (strip 5))).
Proof.
  destruct (parent_error_dominates_own_error oneTrianglePerMeshlet
              triangleEdges onceOnly unitSphere halve keepLeading inOrder true
              (mesh 7) keepLeading_error (strip 5) initial) as [_ H].
  exact (H _ _ strip5_returns).
Defined.



Lemma stalled_group_is_abandoned_witness :
  ∃ m, allMeshlets (leaves 5) !! 4 = Some m
       ∧ meshletsOf (build keepLeading true 7 (strip 5)) !! 4 = Some m
       ∧ parentBounds m = None ∧ parentError m = Infinity.
Proof.
  destruct (stalled_group_is_abandoned oneTrianglePerMeshlet triangleEdges
              onceOnly unitSphere halve keepLeading inOrder true (mesh 7)
              (strip 5) initial 19 1 (seq 0 5) (leaves 5) [Some 4]
              (meshletsAt (leaves 5) [4])
              (meshletsOf (build keepLeading true 7 (strip 5)))
              (stateOf (build keepLeading true 7 (strip 5))))
    as (_ & Hkept & _).
  - exact strip5_head.
  - cbn. lia.
  - apply list_elem_of_In. vm_compute. auto.
  - intros _. apply (bool_decide_unpack _). vm_compute. exact I.
  - apply (childrenOf_meshletsAt (leaves 5) [4]). vm_compute. reflexivity.
  - vm_compute. reflexivity.
  - exact strip5_returns.
  - apply (Hkept 4). apply list_elem_of_In. vm_compute. auto.
Defined.

Lemma surviving_group_assigns_parent_once_witness :
  ∃ m m',
    allMeshlets (leaves 5) !! 0 = Some m
    ∧ parentBounds m = None
    ∧ meshletsOf (build keepLeading true 7 (strip 5)) !! 0 = Some m'
    ∧ parentError m' = add (mul (Fin (1 # 100)) (Fin 2)) (Fin 0)
    ∧ parentBounds m' = Some (mkSphere (0%Q, 0%Q, 0%Q) 1%Q)
    ∧ maxSiblingsError m' = maxSiblingsError m.
Proof.
  destruct (surviving_group_assigns_parent_once oneTrianglePerMeshlet
              triangleEdges onceOnly unitSphere halve keepLeading inOrder true
              (mesh 7) (strip 5) initial 19 1 (seq 0 5) (leaves 5)
              [Some 0; Some 1; Some 2; Some 3]
              (meshletsAt (leaves 5) [0; 1; 2; 3])
              (meshletsOf (build keepLeading true 7 (strip 5)))
              (stateOf (build keepLeading true 7 (strip 5)))
              strip5_head) with (c := 0)
    as (m & m' & Hm & Hnone & _ & Hm' & _ & Herr & Hbounds & Hown & _).
  - cbn. lia.
  - apply list_elem_of_In. vm_compute. auto.
  - intros _. apply (bool_decide_unpack _). vm_compute. exact I.
  - apply (childrenOf_meshletsAt (leaves 5) [0; 1; 2; 3]).
    vm_compute. reflexivity.
  - vm_compute. reflexivity.
  - exact strip5_returns.
  - apply list_elem_of_In. vm_compute. auto.
  - exists m, m'. repeat split; try done.
Defined.

Lemma flat_strip2_head :
  levelStart oneTrianglePerMeshlet triangleEdges onceOnly unitSphere halve
    keepAll inOrder true (mesh 7) (strip 2) initial 20 1 (seq 0 2) (leaves 2).
Proof. apply levelStart_first. vm_compute. reflexivity. Qed.

Lemma simplification_error_at_level_one_witness :
  build keepAll true 7 (strip 2) = Throw (new_SimplificationError 0 7).
Proof.
  destruct (simplification_error_at_level_one oneTrianglePerMeshlet
              triangleEdges onceOnly unitSphere halve keepAll inOrder true
              (mesh 7) (strip 2) initial 19 (seq 0 2) (leaves 2)
              flat_strip2_head) as ([_ Hraise] & _).
  - cbn. lia.
  - apply Hraise. intros g Hg.
    assert (g = [Some 0; Some 1]) as ->.
    { apply list_elem_of_In in Hg. vm_compute in Hg.
      destruct Hg as [<- | []]. reflexivity. }
    exists (meshletsAt (leaves 2) [0; 1]). split.
    + apply (childrenOf_meshletsAt (leaves 2) [0; 1]). vm_compute. reflexivity.
    + vm_compute. reflexivity.
Defined.

Lemma flat_strip2_raises :
  build keepAll true 7 (strip 2) = Throw (new_SimplificationError 0 7).
Proof. vm_compute. reflexivity. Qed.

Lemma flat_strip3_raises :
  build keepAll true 7 (strip 3) = Throw (new_SimplificationError 0 7).
Proof. vm_compute. reflexivity. Qed.

(** C5, as the specification words it, fails: two meshes with the same
    vertex count and different triangle counts raise the same error, so the
    triangle count cannot be read off the error. *)
Lemma error_does_not_tell_triangle_count :
  ¬ (∃ triangleCountOf : Error → number,
       ∀ idx e,
         idx ∈ [strip 2; strip 3] →
         build keepAll true 7 idx = Throw e →
         triangleCountOf e = getTriangleCount idx).
Proof.
  intros [triangleCountOf H].
  pose proof (H (strip 2) _ (list_elem_of_here _ _) flat_strip2_raises) as H2.
  pose proof (H (strip 3) _
                (list_elem_of_further _ _ _ (list_elem_of_here _ _))
                flat_strip3_raises) as H3.
  rewrite H2 in H3. vm_compute in H3. discriminate H3.
Qed.



End SampleFacts.

(** ** The two adjacency strategies *)

Module AdjacencyFacts.
Import Adjacency.

Lemma isSameEdge_key (e f : Edge) :
  isSameEdge e f = true ↔ edgeKey e = edgeKey f.
Proof.
  destruct e as [a b], f as [c d]. unfold isSameEdge, edgeKey. cbn.
  rewrite orb_true_iff, !bool_decide_eq_true. split.
  - intros [[= -> ->] | [= -> ->]]; f_equal; lia.
  - intros [= Hmin Hmax].
    destruct (decide (a = c)) as [-> | Hac].
    + left. f_equal. lia.
    + right. f_equal; lia.
Qed.

Lemma existsb_isSameEdge (e : Edge) (fs : list Edge) :
  existsb (isSameEdge e) fs = true ↔ ∃ f, f ∈ fs ∧ edgeKey f = edgeKey e.
Proof.
  rewrite existsb_exists. split.
  - intros (f & Hf & Hsame). exists f. split; [by apply list_elem_of_In |].
    symmetry. by apply isSameEdge_key.
  - intros (f & Hf & Hkey). exists f. split; [by apply list_elem_of_In |].
    by apply isSameEdge_key.
Qed.

(** *** The edge map *)

Local Abbreviation ownersOf m k := (default [] (m !! k)).

Lemma addOwner_spec (i : nat) (m : gmap (nat * nat) (list nat)) (e : Edge)
  (k : nat * nat) (j : nat) :
  j ∈ ownersOf (addOwner i m e) k
  ↔ j ∈ ownersOf m k ∨ (j = i ∧ edgeKey e = k).
Proof.
  unfold addOwner. cbv zeta.
  destruct (decide (i ∈ ownersOf m (edgeKey e))) as [Hin | Hnin].
  - split; [by left |]. intros [? | [-> <-]]; done.
  - destruct (decide (edgeKey e = k)) as [<- | Hne].
    + rewrite lookup_insert_eq. cbn. rewrite elem_of_app, list_elem_of_singleton.
      split.
      * intros [Hj | ->]; [by left | by right].
      * intros [Hj | [-> _]]; [by left | by right].
    + rewrite lookup_insert_ne by done. split; [by left |].
      intros [Hj | [_ Hk]]; done.
Qed.

Lemma addOwner_NoDup (i : nat) (m : gmap (nat * nat) (list nat)) (e : Edge) :
  (∀ k, NoDup (ownersOf m k)) → ∀ k, NoDup (ownersOf (addOwner i m e) k).
Proof.
  intros Hm k. unfold addOwner. cbv zeta.
  destruct (decide (i ∈ ownersOf m (edgeKey e))) as [Hin | Hnin]; [done |].
  destruct (decide (edgeKey e = k)) as [<- | Hne].
  - rewrite lookup_insert_eq. cbn. apply NoDup_app.
    split; [done |]. split; [| apply NoDup_singleton].
    intros x Hx ->%list_elem_of_singleton. done.
  - by rewrite lookup_insert_ne.
Qed.

Lemma addMeshlet_spec (i : nat) (es : list Edge)
  (m : gmap (nat * nat) (list nat)) :
  (∀ k, NoDup (ownersOf m k)) →
  (∀ k, NoDup (ownersOf (addMeshlet m (i, es)) k))
  ∧ ∀ k j, j ∈ ownersOf (addMeshlet m (i, es)) k
           ↔ j ∈ ownersOf m k ∨ (j = i ∧ ∃ e, e ∈ es ∧ edgeKey e = k).
Proof.
  unfold addMeshlet. cbn [fst snd]. revert m.
  induction es as [| e es IH]; intros m Hm; cbn [foldl].
  - split; [done |]. intros k j. split; [by left |].
    intros [? | [_ (e & ?%elem_of_nil & _)]]; done.
  - destruct (IH (addOwner i m e) (addOwner_NoDup i m e Hm)) as [Hnodup Hspec].
    split; [done |]. intros k j. rewrite Hspec, addOwner_spec.
    split.
    + intros [[? | [-> <-]] | [-> (e' & He' & <-)]].
      * by left.
      * right. split; [done |]. exists e. split; [apply list_elem_of_here | done].
      * right. split; [done |]. exists e'.
        split; [by apply list_elem_of_further | done].
    + intros [? | [-> (e' & [-> | He']%elem_of_cons & <-)]].
      * by left; left.
      * left. by right.
      * right. split; [done |]. by exists e'.
Qed.

Lemma foldl_addMeshlet_spec (ies : list (nat * list Edge))
  (m : gmap (nat * nat) (list nat)) :
  (∀ k, NoDup (ownersOf m k)) →
  (∀ k, NoDup (ownersOf (foldl addMeshlet m ies) k))
  ∧ ∀ k j, j ∈ ownersOf (foldl addMeshlet m ies) k
           ↔ j ∈ ownersOf m k
             ∨ ∃ es e, (j, es) ∈ ies ∧ e ∈ es ∧ edgeKey e = k.
Proof.
  revert m. induction ies as [| [i es] ies IH]; intros m Hm; cbn [foldl].
  - split; [done |]. intros k j. split; [by left |].
    intros [? | (es & e & ?%elem_of_nil & _)]; done.
  - destruct (addMeshlet_spec i es m Hm) as [Hnodup1 Hspec1].
    destruct (IH _ Hnodup1) as [Hnodup Hspec].
    split; [done |]. intros k j. rewrite Hspec, Hspec1. split.
    + intros [[? | [-> (e & He & <-)]] | (es' & e & Hin & He & <-)].
      * by left.
      * right. exists es, e. split; [apply list_elem_of_here | done].
      * right. exists es', e. split; [by apply list_elem_of_further | done].
    + intros [? | (es' & e & [[= -> ->] | Hin]%elem_of_cons & He & <-)].
      * by left; left.
      * left. right. split; [done |]. by exists e.
      * right. by exists es', e.
Qed.

Lemma elem_of_imap_pair (bes : list (list Edge)) (j : nat) (es : list Edge) :
  (j, es) ∈ imap pair bes ↔ bes !! j = Some es.
Proof.
  rewrite list_elem_of_lookup. split.
  - intros (i & Hi). rewrite list_lookup_imap in Hi.
    destruct (bes !! i) eqn:Hbes; [| done]. by injection Hi as <- <-.
  - intros Hj. exists j. by rewrite list_lookup_imap, Hj.
Qed.

(** A meshlet is among the owners of a key exactly when one of its boundary
    edges has that key. *)
Lemma buildEdgeMap_spec (bes : list (list Edge)) :
  (∀ k, NoDup (ownersOf (buildEdgeMap bes) k))
  ∧ ∀ e j, j ∈ ownersOf (buildEdgeMap bes) (edgeKey e)
           ↔ existsb (isSameEdge e) (default [] (bes !! j)) = true.
Proof.
  unfold buildEdgeMap.
  destruct (foldl_addMeshlet_spec (imap pair bes) ∅) as [Hnodup Hspec].
  { intros k. rewrite lookup_empty. constructor. }
  split; [done |]. intros e j.
  rewrite Hspec, lookup_empty, existsb_isSameEdge. cbn. split.
  - intros [?%elem_of_nil | (es & f & Hin & Hf & Hkey)]; [done |].
    apply elem_of_imap_pair in Hin. rewrite Hin. by exists f.
  - intros (f & Hf & Hkey). right.
    destruct (bes !! j) as [es |] eqn:Hj; [| by apply elem_of_nil in Hf].
    exists es, f. by rewrite elem_of_imap_pair.
Qed.

(** *** The shared-edge counters *)

Local Abbreviation countOf c j := (default 0 (c !! j)).

Lemma bump_spec (i : nat) (c : gmap nat nat) (j0 j : nat) :
  noZero c →
  noZero (bump i c j0)
  ∧ countOf (bump i c j0) j
    = countOf c j + (if decide (j = j0 ∧ j ≠ i) then 1 else 0).
Proof.
  intros Hc. unfold bump. destruct (decide (j0 = i)) as [-> | Hne].
  - split; [done |]. rewrite decide_False; [lia | by intros [-> ?]].
  - split.
    + intros j'. destruct (decide (j0 = j')) as [<- | Hne'].
      * by rewrite lookup_insert_eq.
      * rewrite lookup_insert_ne by done. apply Hc.
    + destruct (decide (j = j0)) as [-> | Hne'].
      * rewrite lookup_insert_eq, decide_True by done. cbn. lia.
      * rewrite lookup_insert_ne by done.
        rewrite decide_False; [lia | by intros [? _]].
Qed.

Lemma foldl_bump_spec (i : nat) (js : list nat) (c : gmap nat nat) (j : nat) :
  noZero c → NoDup js →
  noZero (foldl (bump i) c js)
  ∧ countOf (foldl (bump i) c js) j
    = countOf c j + (if decide (j ∈ js ∧ j ≠ i) then 1 else 0).
Proof.
  revert c. induction js as [| j0 js IH]; intros c Hc Hjs; cbn [foldl].
  - split; [done |].
    rewrite decide_False; [lia | by intros [?%elem_of_nil _]].
  - apply NoDup_cons in Hjs as [Hj0 Hjs].
    destruct (bump_spec i c j0 j Hc) as [Hc1 Hcount1].
    destruct (IH _ Hc1 Hjs) as [Hc2 Hcount2].
    split; [done |]. rewrite Hcount2, Hcount1.
    destruct (decide (j = j0 ∧ j ≠ i)) as [[-> Hi] | Hno].
    + rewrite (decide_False (P := j0 ∈ js ∧ j0 ≠ i)) by (by intros [? _]).
      rewrite decide_True; [lia |]. split; [apply list_elem_of_here | done].
    + destruct (decide (j ∈ js ∧ j ≠ i)) as [[Hin Hi] | Hno'].
      * rewrite decide_True; [lia |]. split; [by apply list_elem_of_further | done].
      * rewrite decide_False; [lia |].
        intros [[-> | Hin]%elem_of_cons Hi]; [by apply Hno | by apply Hno'].
Qed.

Lemma foldl_counts_spec (m : gmap (nat * nat) (list nat)) (i : nat)
  (es : list Edge) (c : gmap nat nat) (j : nat) :
  (∀ k, NoDup (ownersOf m k)) → noZero c →
  noZero (foldl (λ c e, foldl (bump i) c (ownersOf m (edgeKey e))) c es)
  ∧ countOf (foldl (λ c e, foldl (bump i) c (ownersOf m (edgeKey e))) c es) j
    = countOf c j
      + (if decide (j = i) then 0
         else length
                (List.filter (λ e, bool_decide (j ∈ ownersOf m (edgeKey e))) es)).
Proof.
  intros Hm. revert c. induction es as [| e es IH]; intros c Hc; cbn [foldl].
  - split; [done |]. cbn. destruct (decide (j = i)); lia.
  - destruct (foldl_bump_spec i (ownersOf m (edgeKey e)) c j Hc (Hm _))
      as [Hc1 Hcount1].
    destruct (IH _ Hc1) as [Hc2 Hcount2].
    split; [done |]. rewrite Hcount2, Hcount1. cbn [List.filter].
    destruct (decide (j = i)) as [-> | Hne].
    + rewrite decide_False; [lia | by intros [_ ?]].
    + destruct (decide (j ∈ ownersOf m (edgeKey e))) as [Hin | Hnin].
      * rewrite decide_True, bool_decide_eq_true_2 by done. cbn. lia.
      * rewrite decide_False, bool_decide_eq_false_2 by (done || by intros [? _]).
        lia.
Qed.

Lemma sharedCounts_spec (bes : list (list Edge)) (i : nat) (es : list Edge)
  (j : nat) :
  sharedCounts (buildEdgeMap bes) i es !! j
  = if decide (j = i) then None
    else
      let w := countSharedEdges es (default [] (bes !! j)) in
      if decide (w = 0) then None else Some w.
Proof.
  destruct (buildEdgeMap_spec bes) as [Hnodup Hown].
  destruct (foldl_counts_spec (buildEdgeMap bes) i es ∅ j Hnodup)
    as [Hzero Hcount].
  { intros j'. by rewrite lookup_empty. }
  fold (sharedCounts (buildEdgeMap bes) i es) in Hzero, Hcount.
  rewrite lookup_empty in Hcount. cbn [default] in Hcount.
  assert (Hsame :
    List.filter (λ e, bool_decide (j ∈ ownersOf (buildEdgeMap bes) (edgeKey e))) es
    = List.filter (λ e, existsb (isSameEdge e) (default [] (bes !! j))) es).
  { apply List.filter_ext. intros e.
    apply eq_true_iff_eq. rewrite bool_decide_eq_true. apply Hown. }
  rewrite Hsame in Hcount. fold (countSharedEdges es (default [] (bes !! j))) in Hcount.
  specialize (Hzero j). cbv zeta.
  destruct (sharedCounts (buildEdgeMap bes) i es !! j) as [w |] eqn:Hw;
    cbn in Hcount; destruct (decide (j = i)).
  - subst w. done.
  - rewrite <- Hcount. rewrite decide_False; [done |]. by intros ->.
  - done.
  - rewrite <- Hcount. by rewrite decide_True.
Qed.

Section Flag.

Variable meshopt_buildMeshlets :
  ParsedMesh → Indices →
  list Meshopt.meshopt_Meshlet * list nat * list nat.
Variable listAllEdges : Indices → list Edge.
Variable findBoundaryEdges : list Edge → list Edge.
Variable calculateBounds : list Q → Indices → BoundingSphere.
Variable calculateTargetIndexCount : nat → nat → nat.
Variable simplifyMesh : ParsedMesh → Indices → nat → SimplifiedMesh.
Variable partitionGraph : Adjacency.t → nat → list (list nat).
Variable parsedMesh : ParsedMesh.

(** C6: the hashed strategy and the pairwise strategy give the same
    adjacency, neighbour by neighbour and weight by weight, for every list of
    boundary-edge lists; hence [createNaniteMeshlets] builds the same
    meshlets whichever way the flag is set. *)
Theorem adjacency_strategies_agree (bes : list (list Edge)) (idx : Indices)
  (st0 : State) :
  findAdjacentMeshlets_Map bes = findAdjacentMeshlets_Iter bes
  ∧ createNaniteMeshlets meshopt_buildMeshlets listAllEdges findBoundaryEdges
      calculateBounds calculateTargetIndexCount simplifyMesh partitionGraph
      true parsedMesh idx st0
    = createNaniteMeshlets meshopt_buildMeshlets listAllEdges findBoundaryEdges
        calculateBounds calculateTargetIndexCount simplifyMesh partitionGraph
        false parsedMesh idx st0.
Proof.
  assert (Hsame : ∀ bes', findAdjacentMeshlets_Map bes'
                          = findAdjacentMeshlets_Iter bes').
  { intros bes'. unfold findAdjacentMeshlets_Map, findAdjacentMeshlets_Iter.
    cbv zeta. apply imap_ext. intros i es _.
    unfold adjacentOf_Map, adjacentOf_Iter.
    apply list_omap_ext, Forall2_same_length_lookup_2; [done |].
    intros k j j' Hj Hj'. rewrite Hj in Hj'. injection Hj' as <-.
    rewrite sharedCounts_spec. cbv zeta.
    destruct (decide (j = i)); [done |].
    by destruct (decide (countSharedEdges es (default [] (bes' !! j)) = 0)). }
  split; [apply Hsame |].
  assert (Hpart : ∀ cur store,
    partitionMeshlets partitionGraph true cur store
    = partitionMeshlets partitionGraph false cur store).
  { intros cur store. unfold partitionMeshlets, findAdjacentMeshlets.
    destruct (decide (GROUP_SIZE < length cur)); [| done].
    by rewrite Hsame. }
  assert (Hloop : ∀ remaining lvl cur st,
    lodLoop meshopt_buildMeshlets listAllEdges findBoundaryEdges
      calculateBounds calculateTargetIndexCount simplifyMesh partitionGraph
      true parsedMesh remaining lvl cur st
    = lodLoop meshopt_buildMeshlets listAllEdges findBoundaryEdges
        calculateBounds calculateTargetIndexCount simplifyMesh partitionGraph
        false parsedMesh remaining lvl cur st).
  { induction remaining as [| remaining IH]; intros lvl cur st; [done |].
    cbn [lodLoop]. destruct (decide (length cur < 2)); [done |].
    unfold bind, get. rewrite Hpart.
    destruct (processGroups _ _ _ _ _ _ _ _ _ _ _) as [[newly st1] | e];
      [| done].
    destruct (decide (lvl = 1 ∧ length newly = 0)); [done | apply IH]. }
  unfold createNaniteMeshlets, buildLodLevels, bind, resetSession.
  destruct (splitIntoMeshlets _ _ _ _ _ _ _ _ _ _) as [[bottom st1] | e];
    [| done].
  by rewrite Hloop.
Qed.

End Flag.

(** Two clusters that share exactly three boundary edges, listed in opposite
    directions, are linked with weight 3 by both strategies. *)
Example three_shared_edges :
  let a := [(0, 1); (1, 2); (2, 3); (3, 4)] in
  let b := [(1, 0); (2, 1); (3, 2); (7, 8)] in
  findAdjacentMeshlets_Map [a; b] = [[(1, 3)]; [(0, 3)]]
  ∧ findAdjacentMeshlets_Iter [a; b] = [[(1, 3)]; [(0, 3)]].
Proof. vm_compute. split; reflexivity. Qed.

End AdjacencyFacts.

(** * Further properties *)

(** ** Filling the drawn-meshlets list from both ends *)

Module DrawListFacts.
Import DrawnMeshlets DrawList DrawnMeshletsFacts.

Lemma store_spec (l : list vec2u) (a : Append) :
  (Z.of_nat (length l) < 2 ^ 32)%Z →
  (0 ≤ index a < Z.of_nat (length l))%Z →
  store l a
  = Some (<[slotOf (length l) (rasterizer a) (index a)
            := (tfxIdx a, meshletIdx a)]> l).
Proof.
  intros Hlen Hi. unfold store, slotOf.
  destruct (rasterizer a).
  - unfold _storeMeshletHardwareDraw.
    by destruct (read_after_write l (index a) (tfxIdx a, meshletIdx a) Hi).
  - unfold _storeMeshletSoftwareDraw. cbv zeta.
    assert (Hsw := softwareSlot_spec l (index a) Hlen Hi).
    assert (Hin : (0 ≤ softwareSlot l (index a) < Z.of_nat (length l))%Z)
      by (rewrite Hsw; lia).
    destruct (read_after_write l _ (tfxIdx a, meshletIdx a) Hin) as [-> _].
    do 2 f_equal. rewrite Hsw. lia.
Qed.

Lemma load_spec (l : list vec2u) (r : Rasterizer) (idx : Z) :
  (Z.of_nat (length l) < 2 ^ 32)%Z →
  (0 ≤ idx < Z.of_nat (length l))%Z →
  load l r idx = l !! slotOf (length l) r idx.
Proof.
  intros Hlen Hi. unfold load, slotOf.
  destruct r.
  - unfold _getMeshletHardwareDraw, readSlot. by rewrite decide_True.
  - unfold _getMeshletSoftwareDraw, readSlot. cbv zeta.
    assert (Hsw := softwareSlot_spec l idx Hlen Hi).
    rewrite decide_True by (rewrite Hsw; lia).
    f_equal. rewrite Hsw. lia.
Qed.

Lemma slotOf_inj (len : nat) (h s : Z) (a b : Append) :
  (0 ≤ h)%Z → (0 ≤ s)%Z → (h + s ≤ Z.of_nat len)%Z →
  withinBudget h s a → withinBudget h s b →
  slotOf len (rasterizer a) (index a) = slotOf len (rasterizer b) (index b) →
  (rasterizer a, index a) = (rasterizer b, index b).
Proof.
  unfold withinBudget, slotOf. intros Hh Hs Hsum Ha Hb Heq.
  destruct (rasterizer a), (rasterizer b); f_equal; lia.
Qed.

Lemma withinBudget_index (len : nat) (h s : Z) (a : Append) :
  (0 ≤ h)%Z → (0 ≤ s)%Z → (h + s ≤ Z.of_nat len)%Z →
  withinBudget h s a → (0 ≤ index a < Z.of_nat len)%Z.
Proof.
  unfold withinBudget. intros Hh Hs Hsum Ha.
  destruct (rasterizer a); lia.
Qed.

Lemma storeAll_spec (h s : Z) (appends : list Append) :
  ∀ l : list vec2u,
  (Z.of_nat (length l) < 2 ^ 32)%Z →
  (0 ≤ h)%Z → (0 ≤ s)%Z → (h + s ≤ Z.of_nat (length l))%Z →
  Forall (withinBudget h s) appends →
  NoDup (map (λ a, (rasterizer a, index a)) appends) →
  ∃ l', storeAll l appends = Some l'
    ∧ length l' = length l
    ∧ (∀ a, a ∈ appends →
         l' !! slotOf (length l) (rasterizer a) (index a)
         = Some (tfxIdx a, meshletIdx a))
    ∧ (∀ k, (∀ a, a ∈ appends →
               slotOf (length l) (rasterizer a) (index a) ≠ k) →
         l' !! k = l !! k).
Proof.
  induction appends as [| a rest IH]; intros l Hlen Hh Hs Hsum Hall Hnd.
  - exists l. split; [done |]. split; [done |]. split; [| done].
    intros a Ha. by apply elem_of_nil in Ha.
  - apply Forall_cons in Hall as [Ha Hall].
    cbn in Hnd. apply NoDup_cons in Hnd as [Hfresh Hnd].
    assert (Hia := withinBudget_index _ _ _ _ Hh Hs Hsum Ha).
    cbn. rewrite store_spec by done.
    set (l1 := <[slotOf (length l) (rasterizer a) (index a)
                 := (tfxIdx a, meshletIdx a)]> l).
    assert (Hl1 : length l1 = length l) by apply length_insert.
    destruct (IH l1) as (l' & Hrun & Hlen' & Hloads & Hframe);
      try rewrite Hl1; try done.
    rewrite Hl1 in Hloads, Hframe.
    exists l'. split; [exact Hrun |]. split; [congruence |]. split.
    + intros b Hb. apply elem_of_cons in Hb as [-> | Hb]; [| by apply Hloads].
      rewrite Hframe.
      * apply list_lookup_insert_eq. unfold slotOf, vec2u in *.
        destruct (rasterizer a); lia.
      * intros b Hb Heq. apply Hfresh.
        apply list_elem_of_fmap. exists b. split; [| done].
        apply (slotOf_inj (length l) h s a b); try done.
        by eapply (proj1 (Forall_forall _ _) Hall).
    + intros k Hk. rewrite Hframe.
      * apply list_lookup_insert_ne. apply Hk. by left.
      * intros b Hb. apply Hk. by right.
Qed.

(** X1: while the hardware and the software counter together stay within the
    length of the list, the appends of a pass may land in any order: every
    store succeeds, each entry is read back by the load helper of its own
    rasterizer at its own index, and no slot outside the appended ones
    changes. *)
Theorem appends_land_in_any_order (h s : Z) (appends : list Append)
  (l : list vec2u) :
  (Z.of_nat (length l) < 2 ^ 32)%Z →
  (0 ≤ h)%Z → (0 ≤ s)%Z → (h + s ≤ Z.of_nat (length l))%Z →
  Forall (withinBudget h s) appends →
  NoDup (map (λ a, (rasterizer a, index a)) appends) →
  ∃ l', storeAll l appends = Some l'
    ∧ length l' = length l
    ∧ (∀ a, a ∈ appends →
         load l' (rasterizer a) (index a) = Some (tfxIdx a, meshletIdx a))
    ∧ (∀ k : Z, (h ≤ k < Z.of_nat (length l) - s)%Z →
         _getMeshletHardwareDraw l' k = _getMeshletHardwareDraw l k).
Proof.
  intros Hlen Hh Hs Hsum Hall Hnd.
  destruct (storeAll_spec h s appends l) as (l' & Hrun & Hlen' & Hloads & Hframe);
    try done.
  exists l'. split; [exact Hrun |]. split; [exact Hlen' |]. split.
  - intros a Ha.
    assert (Hia : (0 ≤ index a < Z.of_nat (length l))%Z).
    { apply (withinBudget_index (length l) h s a); try done.
      by eapply (proj1 (Forall_forall _ _) Hall). }
    rewrite load_spec by (rewrite Hlen'; done).
    rewrite Hlen'. by apply Hloads.
  - intros k Hk.
    unfold _getMeshletHardwareDraw, readSlot. rewrite Hlen'.
    rewrite !decide_True by lia.
    apply Hframe. intros a Ha.
    assert (Hwa : withinBudget h s a)
      by (by eapply (proj1 (Forall_forall _ _) Hall)).
    unfold withinBudget, slotOf in *. destruct (rasterizer a); lia.
Qed.

Lemma appends_land_in_any_order_witness :
  ∃ l', storeAll (replicate 5 (0, 0)%Z)
          [mkAppend Software 0 1 11; mkAppend Hardware 1 2 12;
           mkAppend Software 1 3 13; mkAppend Hardware 0 4 14] = Some l'
    ∧ load l' Software 1 = Some (3, 13)%Z
    ∧ load l' Hardware 0 = Some (4, 14)%Z.
Proof.
  destruct (appends_land_in_any_order 2 2
              [mkAppend Software 0 1 11; mkAppend Hardware 1 2 12;
               mkAppend Software 1 3 13; mkAppend Hardware 0 4 14]
              (replicate 5 (0, 0)%Z))
    as (l' & Hrun & _ & Hloads & _).
  - cbn. lia.
  - lia.
  - lia.
  - cbn. lia.
  - repeat constructor; cbn; lia.
  - apply (bool_decide_unpack _). vm_compute. exact I.
  - exists l'. split; [exact Hrun |]. split.
    + apply (Hloads (mkAppend Software 1 3 13)).
      apply list_elem_of_In. cbn. auto.
    + apply (Hloads (mkAppend Hardware 0 4 14)).
      apply list_elem_of_In. cbn. auto.
Defined.

(** X2: an index at or past the length of the list reaches no slot, through
    either helper: the [u32] subtraction [len - 1 - idx] wraps past the end
    of the list, never back into it. *)
Theorem index_past_the_end_reaches_no_slot (l : list vec2u)
  (idx tfxIdx meshletIdx : Z) :
  (Z.of_nat (length l) < 2 ^ 32)%Z →
  (Z.of_nat (length l) ≤ idx < 2 ^ 32)%Z →
  _storeMeshletHardwareDraw l idx tfxIdx meshletIdx = None
  ∧ _storeMeshletSoftwareDraw l idx tfxIdx meshletIdx = None
  ∧ _getMeshletHardwareDraw l idx = None
  ∧ _getMeshletSoftwareDraw l idx = None.
Proof.
  intros Hlen Hi.
  assert (Hslot : (Z.of_nat (length l) ≤ softwareSlot l idx)%Z).
  { unfold softwareSlot. rewrite arrayLength_small by done.
    unfold wrap_u32.
    destruct (decide (length l = 0)) as [H0 | H0].
    - rewrite H0. apply Z.mod_pos_bound. lia.
    - rewrite (Z.mod_small (Z.of_nat (length l) - 1)) by lia.
      replace ((Z.of_nat (length l) - 1 - idx) mod 2 ^ 32)%Z
        with (Z.of_nat (length l) - 1 - idx + 2 ^ 32)%Z; [lia |].
      symmetry. rewrite <- (Z.mod_add _ 1) by lia.
      rewrite Z.mul_1_l. apply Z.mod_small. lia. }
  unfold _storeMeshletHardwareDraw, _storeMeshletSoftwareDraw,
    _getMeshletHardwareDraw, _getMeshletSoftwareDraw, writeSlot, readSlot.
  cbv zeta.
  rewrite !decide_False by lia. done.
Qed.

Lemma index_past_the_end_reaches_no_slot_witness :
  _storeMeshletSoftwareDraw [(1, 2); (3, 4)]%Z 2 7 9 = None
  ∧ _getMeshletSoftwareDraw [(1, 2); (3, 4)]%Z 2 = None.
Proof.
  destruct (index_past_the_end_reaches_no_slot [(1, 2); (3, 4)]%Z 2 7 9)
    as (_ & Hst & _ & Hget).
  - cbn. lia.
  - cbn. lia.
  - split; [exact Hst | exact Hget].
Defined.

(** ** Reading the drawn-meshlets buffer back *)

Lemma lookup_words_even (l : list vec2u) (i : nat) :
  words l !! (2 * i) = fst <$> l !! i.
Proof.
  revert i. induction l as [| e l IH]; intros i; [done |].
  destruct i as [| i]; [done |].
  replace (2 * S i) with (S (S (2 * i))) by lia. cbn. apply IH.
Qed.

Lemma lookup_words_odd (l : list vec2u) (i : nat) :
  words l !! (2 * i + 1) = snd <$> l !! i.
Proof.
  revert i. induction l as [| e l IH]; intros i; [done |].
  destruct i as [| i]; [done |].
  replace (2 * S i + 1) with (S (S (2 * i + 1))) by lia. cbn. apply IH.
Qed.

Lemma take_words (l : list vec2u) (n : nat) :
  take (2 * n) (words l) = words (take n l).
Proof.
  revert n. induction l as [| e l IH]; intros n.
  - cbn. by rewrite !take_nil.
  - destruct n as [| n]; [done |].
    replace (2 * S n) with (S (S (2 * n))) by lia. cbn.
    f_equal. f_equal. apply IH.
Qed.

Section ParseFacts.

Variable WEBGPU_MINIMAL_BUFFER_SIZE : nat.
Variable Filler : Type.
Variable createArray : nat → list Filler.

Local Abbreviation offset :=
  ((BYTES_DRAWN_MESHLETS_PARAMS WEBGPU_MINIMAL_BUFFER_SIZE
    + BYTES_DRAWN_MESHLETS_SW_PARAMS WEBGPU_MINIMAL_BUFFER_SIZE) / BYTES_U32).

Lemma offset_ge_8 : 8 ≤ offset.
Proof.
  unfold BYTES_DRAWN_MESHLETS_PARAMS, BYTES_DRAWN_MESHLETS_SW_PARAMS, BYTES_U32.
  apply Nat.div_le_lower_bound; lia.
Qed.

(** X3: when the downloaded words are the two parameter blocks followed by
    the list, and the second word (the instance count of the indirect draw)
    is [n], the parser returns the first [n] entries of the list, in order,
    as transform id and meshlet id. *)
Theorem parse_returns_leading_entries (header : list Z) (drawn : list vec2u)
  (n : Z) :
  (∀ k, length (createArray k) = k) →
  length header = offset →
  header !! 1 = Some n →
  (0 ≤ n ≤ Z.of_nat (length drawn))%Z →
  ∃ r, parseDrawnMeshletsBuffer WEBGPU_MINIMAL_BUFFER_SIZE Filler createArray
         (header ++ words drawn) = Some r
    ∧ meshletCount r = n
    ∧ indirectDraw r = take 4 header
    ∧ meshletIds r
      = map (λ e, (Some e.1, Some e.2)) (take (Z.to_nat n) drawn).
Proof.
  intros Hcreate Hheader Hn Hle.
  assert (H8 := offset_ge_8).
  unfold parseDrawnMeshletsBuffer.
  revert Hheader H8. generalize offset. intros off Hheader H8.
  assert (Htake : take 4 (header ++ words drawn) = take 4 header).
  { apply take_app_le. lia. }
  rewrite Htake.
  rewrite lookup_take_lt by lia. rewrite Hn.
  eexists. split; [reflexivity |]. cbn [meshletCount indirectDraw meshletIds].
  split; [done |]. split; [done |].
  rewrite <- Hheader, drop_app_length, take_words.
  apply list_eq. intros i.
  rewrite list_lookup_imap, list_lookup_fmap.
  rewrite lookup_words_even, lookup_words_odd.
  unfold vec2u in *.
  destruct (decide (i < Z.to_nat n)) as [Hi | Hi].
  - destruct (lookup_lt_is_Some_2 (createArray (Z.to_nat n)) i) as [x ->];
      [by rewrite Hcreate |].
    destruct (lookup_lt_is_Some_2 (take (Z.to_nat n) drawn) i) as [e ->];
      [rewrite length_take; lia |].
    done.
  - rewrite (lookup_ge_None_2 (createArray _)) by (rewrite Hcreate; lia).
    rewrite (lookup_ge_None_2 (take _ _)) by (rewrite length_take; lia).
    done.
Qed.

End ParseFacts.

Lemma parse_returns_leading_entries_witness :
  ∃ r, parseDrawnMeshletsBuffer 16 unit (λ k, replicate k ())
         ([3; 2; 0; 0; 1; 1; 1; 0] ++ words [(0, 5); (1, 6); (0, 0)])%Z
       = Some r
    ∧ meshletIds r = [(Some 0, Some 5); (Some 1, Some 6)]%Z.
Proof.
  destruct (parse_returns_leading_entries 16 unit (λ k, replicate k ())
              [3; 2; 0; 0; 1; 1; 1; 0]%Z [(0, 5); (1, 6); (0, 0)]%Z 2)
    as (r & Hr & _ & _ & Hids).
  - intros k. apply length_replicate.
  - reflexivity.
  - reflexivity.
  - cbn. lia.
  - exists r. split; [exact Hr | exact Hids].
Defined.

End DrawListFacts.


(** ** Merging a group and slicing the clusters *)

Module MeshoptFacts.
Import Meshopt MeshoptMore.

Lemma copy_indices (xs pre rest : list nat) :
  length xs ≤ length rest →
  foldl (λ '(result, nextIdx) idx, (<[nextIdx := idx]> result, nextIdx + 1))
    (pre ++ rest, length pre) xs
  = (pre ++ xs ++ drop (length xs) rest, length pre + length xs).
Proof.
  revert pre rest. induction xs as [| x xs IH]; intros pre rest Hlen.
  - cbn. by rewrite drop_0, Nat.add_0_r.
  - destruct rest as [| r rest]; [cbn in Hlen; lia |].
    cbn [foldl].
    replace (<[length pre := x]> (pre ++ r :: rest)) with ((pre ++ [x]) ++ rest).
    2:{ rewrite insert_app_r_alt by lia. rewrite Nat.sub_diag. cbn.
        by rewrite <- app_assoc. }
    replace (length pre + 1) with (length (pre ++ [x]))
      by (rewrite length_app; cbn; lia).
    rewrite IH by (cbn in Hlen; lia).
    rewrite <- app_assoc, length_app. cbn. f_equal. lia.
Qed.

Lemma copy_meshlets (g : list MeshletWIP) (pre rest : list nat) :
  length (concat (map indices g)) ≤ length rest →
  foldl
    (λ state m,
       foldl (λ '(result, nextIdx) idx, (<[nextIdx := idx]> result, nextIdx + 1))
         state (indices m))
    (pre ++ rest, length pre) g
  = (pre ++ concat (map indices g)
       ++ drop (length (concat (map indices g))) rest,
     length pre + length (concat (map indices g))).
Proof.
  revert pre rest. induction g as [| m g IH]; intros pre rest Hlen.
  - cbn. by rewrite drop_0, Nat.add_0_r.
  - cbn [foldl map concat] in *. rewrite length_app in Hlen.
    rewrite copy_indices by lia.
    replace (length pre + length (indices m))
      with (length (pre ++ indices m)) by (by rewrite length_app).
    rewrite app_assoc.
    rewrite IH by (rewrite length_drop; lia).
    rewrite drop_drop, !length_app, <- !app_assoc.
    f_equal. lia.
Qed.

Lemma summed_length (g : list MeshletWIP) (n : nat) :
  foldl (λ acc m, acc + length (indices m)) n g
  = n + length (concat (map indices g)).
Proof.
  revert n. induction g as [| m g IH]; intros n; cbn; [lia |].
  rewrite IH, length_app. lia.
Qed.

(** X4: the copy loop of [mergeMeshlets] leaves no gap and no filler: the
    merged array is the index arrays of the group one after the other, in the
    order of the group, and its length is the sum of their lengths. *)
Theorem merged_indices_are_the_concatenation (meshletGroup : list MeshletWIP) :
  mergeMeshlets_copy meshletGroup = mergeMeshlets meshletGroup
  ∧ length (mergeMeshlets_copy meshletGroup)
    = sum_list (map (λ m, length (indices m)) meshletGroup).
Proof.
  assert (Hcopy : mergeMeshlets_copy meshletGroup = mergeMeshlets meshletGroup).
  { unfold mergeMeshlets_copy, mergeMeshlets. cbv zeta.
    rewrite summed_length. cbn [Nat.add].
    pose proof (copy_meshlets meshletGroup []
                  (replicate (length (concat (map indices meshletGroup))) 0))
      as H.
    cbn [app length] in H. rewrite H by (by rewrite length_replicate).
    cbn [fst]. rewrite drop_ge by (by rewrite length_replicate).
    by rewrite app_nil_r. }
  split; [exact Hcopy |].
  rewrite Hcopy. clear Hcopy. unfold mergeMeshlets.
  induction meshletGroup as [| m g IH]; [done |].
  cbn. rewrite length_app. by f_equal.
Qed.

Lemma land_lnot_3 (x : Z) : (0 ≤ x)%Z → Z.land x (Z.lnot 3) = (4 * (x / 4))%Z.
Proof.
  intros Hx. change (Z.land x (Z.lnot 3)) with (Z.ldiff x (Z.ones 2)).
  rewrite Z.ldiff_ones_r by lia.
  rewrite Z.shiftl_mul_pow2, Z.shiftr_div_pow2 by lia.
  change (2 ^ 2)%Z with 4%Z. lia.
Qed.

Lemma alignedTriangleBytes_bounds (triangleCount : nat) :
  alignedTriangleBytes triangleCount mod 4 = 0
  ∧ triangleCount * 3 ≤ alignedTriangleBytes triangleCount
  ∧ alignedTriangleBytes triangleCount < triangleCount * 3 + 4.
Proof.
  unfold alignedTriangleBytes.
  rewrite land_lnot_3 by lia.
  set (x := Z.of_nat (triangleCount * 3 + 3)).
  assert (Hx : (0 ≤ x)%Z) by lia.
  pose proof (Z.div_mod x 4 ltac:(lia)) as Hdm.
  pose proof (Z.mod_pos_bound x 4 ltac:(lia)) as Hmod.
  assert (Hq : (0 ≤ x / 4)%Z) by (apply Z.div_pos; lia).
  split.
  - replace (Z.to_nat (4 * (x / 4))) with (Z.to_nat (x / 4) * 4) by lia.
    apply Nat.Div0.mod_mul.
  - subst x. lia.
Qed.


Lemma meshletIndices_concat (ms : list meshopt_Meshlet) (verts tris : list nat) :
  meshletIndicesWithOriginalVertexBuffer ms verts tris
  = concat (map (rewrittenIndices verts tris) ms).
Proof. reflexivity. Qed.

Lemma length_rewrittenIndices (verts tris : list nat) (m : meshopt_Meshlet) :
  length (rewrittenIndices verts tris m) = triangleCount m * VERTS_IN_TRIANGLE.
Proof. unfold rewrittenIndices. by rewrite length_map, length_seq. Qed.

Lemma splitIndicesFrom_concat (f : meshopt_Meshlet → list nat)
  (ms : list meshopt_Meshlet) (pre post : list nat) :
  (∀ m, length (f m) = triangleCount m * VERTS_IN_TRIANGLE) →
  splitIndicesFrom (length pre) ms (pre ++ concat (map f ms) ++ post)
  = map f ms.
Proof.
  intros Hf. revert pre. induction ms as [| m ms IH]; intros pre; [done |].
  cbn [splitIndicesFrom map concat]. cbv zeta. f_equal.
  - rewrite drop_app_length, <- app_assoc, <- Hf.
    by rewrite take_app_length.
  - rewrite <- Hf.
    replace (length pre + length (f m)) with (length (pre ++ f m))
      by (by rewrite length_app).
    rewrite <- app_assoc, (app_assoc pre). apply IH.
Qed.

(** The copy of the triangle bytes into a [Uint32Array] of
    [lastTriangleIdx] elements changes no byte that a meshlet in range
    reads. *)
Lemma rewrittenIndices_truncated (verts tris : list nat) (n : nat)
  (m : meshopt_Meshlet) :
  triangleOffset m + triangleCount m * VERTS_IN_TRIANGLE ≤ n →
  triangleOffset m + triangleCount m * VERTS_IN_TRIANGLE ≤ length tris →
  rewrittenIndices verts (map (λ i, default 0 (tris !! i)) (seq 0 n)) m
  = rewrittenIndices verts tris m.
Proof.
  intros Hn Hlen. unfold rewrittenIndices.
  apply map_ext_in. intros j Hj. apply in_seq in Hj. cbv zeta.
  rewrite list_lookup_fmap, lookup_seq_lt by lia. cbn.
  destruct (lookup_lt_is_Some_2 tris (triangleOffset m + j)) as [v ->]; [lia |].
  done.
Qed.

Section CreateMeshletsFacts.

Variable meshopt_buildMeshlets :
  ParsedMesh → Indices → list meshopt_Meshlet * list nat * list nat.

(** X6: [splitIndicesPerMeshlets] undoes the flattening that [createMeshlets]
    ends with: it returns one index array per meshlet, in order, each of
    exactly three indices per triangle of its meshlet, and together they are
    the whole of [meshletTriangles]. *)
Theorem split_returns_one_array_per_meshlet (parsedMesh : ParsedMesh)
  (idx : Indices) (mo : meshopt_Meshlets) :
  createMeshlets meshopt_buildMeshlets parsedMesh idx = Ok mo →
  meshlets mo = (meshopt_buildMeshlets parsedMesh idx).1.1
  ∧ meshlets mo ≠ []
  ∧ length (splitIndicesPerMeshlets mo) = length (meshlets mo)
  ∧ Forall2 (λ m piece, length piece = triangleCount m * VERTS_IN_TRIANGLE)
      (meshlets mo) (splitIndicesPerMeshlets mo)
  ∧ concat (splitIndicesPerMeshlets mo) = meshletTriangles mo.
Proof.
  unfold createMeshlets.
  destruct (meshopt_buildMeshlets parsedMesh idx) as [[ms verts] tris].
  destruct (last ms) as [lastMeshlet |] eqn:Hlast; [| discriminate].
  intros [= <-]. cbn [meshlets meshletTriangles fst].
  set (tris32 := map _ (seq 0 _)).
  assert (Hsplit : splitIndicesPerMeshlets
                     (mkMeshlets ms
                        (take (vertexOffset lastMeshlet + vertexCount lastMeshlet)
                           verts)
                        (meshletIndicesWithOriginalVertexBuffer ms verts tris32))
                   = map (rewrittenIndices verts tris32) ms).
  { unfold splitIndicesPerMeshlets. cbn [meshlets meshletTriangles].
    rewrite meshletIndices_concat.
    pose proof (splitIndicesFrom_concat (rewrittenIndices verts tris32) ms [] [])
      as H.
    cbn [app length] in H. rewrite app_nil_r in H.
    apply H. apply length_rewrittenIndices. }
  rewrite Hsplit.
  split; [done |].
  split; [by destruct ms |].
  split; [by rewrite length_map |].
  split; [| done].
  apply Forall2_fmap_r, Forall_Forall2_diag, Forall_forall.
  intros m _. apply length_rewrittenIndices.
Qed.

(** X7: when the raw output of meshoptimizer is in range, the index array of
    every meshlet holds only vertices of that meshlet: each index is an
    element of the meshlet's own slice of the returned [meshletVertices], the
    one its local index selects. *)
Theorem meshlet_indices_are_its_own_vertices (parsedMesh : ParsedMesh)
  (idx : Indices) (mo : meshopt_Meshlets) (lastMeshlet : meshopt_Meshlet) :
  let '(ms, verts, tris) := meshopt_buildMeshlets parsedMesh idx in
  last ms = Some lastMeshlet →
  Forall (inRange lastMeshlet verts tris) ms →
  createMeshlets meshopt_buildMeshlets parsedMesh idx = Ok mo →
  Forall2
    (λ m piece,
       Forall2
         (λ local vertex,
            local < vertexCount m
            ∧ take (vertexCount m) (drop (vertexOffset m) (meshletVertices mo))
                !! local = Some vertex)
         (take (triangleCount m * VERTS_IN_TRIANGLE) (drop (triangleOffset m) tris))
         piece)
    ms (splitIndicesPerMeshlets mo).
Proof.
  destruct (meshopt_buildMeshlets parsedMesh idx) as [[ms verts] tris] eqn:Hraw.
  intros Hlast Hrange Hcreate.
  pose proof Hcreate as Hcreate'.
  unfold createMeshlets in Hcreate'. rewrite Hraw, Hlast in Hcreate'.
  injection Hcreate' as <-.
  set (tris32 := map _ (seq 0 _)).
  unfold splitIndicesPerMeshlets. cbn [meshlets meshletTriangles meshletVertices].
  rewrite meshletIndices_concat.
  pose proof (splitIndicesFrom_concat (rewrittenIndices verts tris32) ms [] [])
    as H.
  cbn [app length] in H. rewrite app_nil_r in H.
  rewrite H by apply length_rewrittenIndices. clear H.
  apply Forall2_fmap_r, Forall_Forall2_diag.
  eapply Forall_impl; [exact Hrange |].
  intros m (Htris & Hbefore & Hverts & Hvbefore & Hlocal). cbv beta.
  pose proof (alignedTriangleBytes_bounds (triangleCount lastMeshlet))
    as (_ & Hpad & _).
  subst tris32. unfold compose.
  rewrite rewrittenIndices_truncated by (unfold VERTS_IN_TRIANGLE in *; lia).
  unfold rewrittenIndices.
  apply Forall2_same_length_lookup_2.
  - rewrite length_take, length_drop, length_map, length_seq. lia.
  - intros j local vertex Hj Hvertex.
    apply lookup_take_Some in Hj as [Hj Hlt].
    rewrite lookup_drop in Hj.
    rewrite list_lookup_fmap, lookup_seq_lt in Hvertex by done.
    cbn in Hvertex. rewrite Hj in Hvertex.
    specialize (Hlocal j local Hlt Hj).
    split; [exact Hlocal |].
    rewrite lookup_take_lt by done. rewrite lookup_drop.
    rewrite lookup_take_lt by lia.
    destruct (lookup_lt_is_Some_2 verts (vertexOffset m + local)) as [x Hx];
      [lia |].
    rewrite Hx in Hvertex |- *. by injection Hvertex as <-.
Qed.

End CreateMeshletsFacts.

End MeshoptFacts.

Module MeshoptSampleFacts.
Import Meshopt MeshoptMore MeshoptFacts Samples.

Lemma strip2_clusters :
  createMeshlets oneTrianglePerMeshlet (mesh 7) (strip 2)
  = Ok (mkMeshlets [mkMeshlet 0 3 0 1; mkMeshlet 3 3 4 1]
          [0; 1; 2; 1; 2; 3] [0; 1; 2; 1; 2; 3]).
Proof. vm_compute. reflexivity. Qed.

Lemma split_returns_one_array_per_meshlet_witness :
  concat
    (splitIndicesPerMeshlets
       (mkMeshlets [mkMeshlet 0 3 0 1; mkMeshlet 3 3 4 1]
          [0; 1; 2; 1; 2; 3] [0; 1; 2; 1; 2; 3]))
  = [0; 1; 2; 1; 2; 3].
Proof.
  destruct (split_returns_one_array_per_meshlet oneTrianglePerMeshlet (mesh 7)
              (strip 2) _ strip2_clusters) as (_ & _ & _ & _ & H).
  exact H.
Defined.

Lemma strip2_in_range :
  Forall
    (inRange (mkMeshlet 3 3 4 1) [0; 1; 2; 1; 2; 3] [0; 1; 2; 0; 0; 1; 2; 0])
    [mkMeshlet 0 3 0 1; mkMeshlet 3 3 4 1].
Proof.
  repeat apply Forall_cons_2; [| | apply Forall_nil_2];
    (unfold inRange; cbn; repeat split; try lia;
     intros [| [| [| j]]] v Hj; cbn; try lia; intros [= <-]; lia).
Qed.

Lemma meshlet_indices_are_its_own_vertices_witness :
  Forall2
    (λ m piece,
       Forall2
         (λ local vertex,
            local < vertexCount m
            ∧ take (vertexCount m) (drop (vertexOffset m) [0; 1; 2; 1; 2; 3])
                !! local = Some vertex)
         (take (triangleCount m * VERTS_IN_TRIANGLE)
            (drop (triangleOffset m) [0; 1; 2; 0; 0; 1; 2; 0]))
         piece)
    [mkMeshlet 0 3 0 1; mkMeshlet 3 3 4 1]
    (splitIndicesPerMeshlets
       (mkMeshlets [mkMeshlet 0 3 0 1; mkMeshlet 3 3 4 1]
          [0; 1; 2; 1; 2; 3] [0; 1; 2; 1; 2; 3])).
Proof.
  exact (meshlet_indices_are_its_own_vertices oneTrianglePerMeshlet (mesh 7)
           (strip 2) _ (mkMeshlet 3 3 4 1) eq_refl strip2_in_range
           strip2_clusters).
Defined.

End MeshoptSampleFacts.


(** ** The shape of the hierarchy *)

Lemma sameOwnData_fields (m m' : MeshletWIP) :
  sameOwnData m m' →
  id m = id m' ∧ createdFrom m = createdFrom m' ∧ lodLevel m = lodLevel m'
  ∧ indices m = indices m' ∧ boundaryEdges m = boundaryEdges m'
  ∧ maxSiblingsError m = maxSiblingsError m'
  ∧ sharedSiblingsBounds m = sharedSiblingsBounds m'.
Proof. unfold sameOwnData, assignParent. intros [= ? ? ? ? ? ? ?]. done. Qed.

Lemma sameOwnData_trans (m1 m2 m3 : MeshletWIP) :
  sameOwnData m1 m2 → sameOwnData m2 m3 → sameOwnData m1 m3.
Proof. unfold sameOwnData. congruence. Qed.

Section StructureFacts.

Variable meshopt_buildMeshlets :
  ParsedMesh → Indices →
  list Meshopt.meshopt_Meshlet * list nat * list nat.
Variable listAllEdges : Indices → list Edge.
Variable findBoundaryEdges : list Edge → list Edge.
Variable calculateBounds : list Q → Indices → BoundingSphere.
Variable calculateTargetIndexCount : nat → nat → nat.
Variable simplifyMesh : ParsedMesh → Indices → nat → SimplifiedMesh.
Variable partitionGraph : Adjacency.t → nat → list (list nat).
Variable useMapToFindAdjacentEdges : bool.
Variable parsedMesh : ParsedMesh.

Local Abbreviation processGroup' :=
  (processGroup meshopt_buildMeshlets listAllEdges findBoundaryEdges
     calculateBounds calculateTargetIndexCount simplifyMesh parsedMesh).
Local Abbreviation processGroups' :=
  (processGroups meshopt_buildMeshlets listAllEdges findBoundaryEdges
     calculateBounds calculateTargetIndexCount simplifyMesh parsedMesh).
Local Abbreviation partitionMeshlets' :=
  (partitionMeshlets partitionGraph useMapToFindAdjacentEdges).
Local Abbreviation lodLoop' :=
  (lodLoop meshopt_buildMeshlets listAllEdges findBoundaryEdges
     calculateBounds calculateTargetIndexCount simplifyMesh partitionGraph
     useMapToFindAdjacentEdges parsedMesh).
Local Abbreviation levelStart' :=
  (levelStart meshopt_buildMeshlets listAllEdges findBoundaryEdges
     calculateBounds calculateTargetIndexCount simplifyMesh partitionGraph
     useMapToFindAdjacentEdges parsedMesh).
Local Abbreviation buildLodLevels' :=
  (buildLodLevels meshopt_buildMeshlets listAllEdges findBoundaryEdges
     calculateBounds calculateTargetIndexCount simplifyMesh partitionGraph
     useMapToFindAdjacentEdges parsedMesh).
Local Abbreviation createNaniteMeshlets' :=
  (createNaniteMeshlets meshopt_buildMeshlets listAllEdges findBoundaryEdges
     calculateBounds calculateTargetIndexCount simplifyMesh partitionGraph
     useMapToFindAdjacentEdges parsedMesh).
Local Abbreviation splitIntoMeshlets' :=
  (splitIntoMeshlets meshopt_buildMeshlets listAllEdges findBoundaryEdges
     parsedMesh).
Local Abbreviation fresh := (freshWip listAllEdges findBoundaryEdges).
Local Abbreviation stalls :=
  (groupStalls calculateTargetIndexCount simplifyMesh parsedMesh).
Local Abbreviation errorOf :=
  (groupError calculateTargetIndexCount simplifyMesh parsedMesh).
Local Abbreviation boundsOf := (groupBounds calculateBounds parsedMesh).
Local Abbreviation simplified :=
  (simplifiedGroup calculateTargetIndexCount simplifyMesh parsedMesh).

(** A group never changes what a meshlet was created with. *)
Lemma processGroup_keeps (lvl n : nat) (g : list (option Ref)) (st st' : State)
  (new : list Ref) (i : nat) (m : MeshletWIP) :
  processGroup' lvl n g st = Ok (new, st') →
  allMeshlets st !! i = Some m →
  ∃ m', allMeshlets st' !! i = Some m' ∧ sameOwnData m m'.
Proof.
  intros H Hm.
  destruct (processGroup_Ok _ _ _ _ _ _ _ _ _ _ _ _ _ H)
    as (children & Hchildren & _).
  destruct (processGroup_lookup _ _ _ _ _ _ _ _ _ _ _ _ _ _ H Hchildren)
    as (_ & _ & _ & Hold & _).
  rewrite Hold by (by apply lookup_lt_Some in Hm). rewrite Hm.
  destruct (decide _); eexists; (split; [reflexivity | reflexivity]).
Qed.

Lemma processGroups_keeps (lvl n : nat) (groups : list (list (option Ref)))
  (st st' : State) (new : list Ref) (i : nat) (m : MeshletWIP) :
  processGroups' lvl n groups st = Ok (new, st') →
  allMeshlets st !! i = Some m →
  ∃ m', allMeshlets st' !! i = Some m' ∧ sameOwnData m m'.
Proof.
  intros H Hm.
  eapply processGroups_invariant
    with (P := λ s, ∃ m', allMeshlets s !! i = Some m' ∧ sameOwnData m m');
    [| exact H | by exists m].
  intros lvl0 n0 g s s' new0 Hgroup (m1 & Hm1 & Hsame).
  destruct (processGroup_keeps _ _ _ _ _ _ _ _ Hgroup Hm1) as (m2 & Hm2 & Hsame2).
  exists m2. split; [done | by eapply sameOwnData_trans].
Qed.

Lemma lodLoop_keeps (remaining lvl : nat) (cur : list Ref) (st st' : State)
  (res : nat * list Ref) (i : nat) (m : MeshletWIP) :
  lodLoop' remaining lvl cur st = Ok (res, st') →
  allMeshlets st !! i = Some m →
  ∃ m', allMeshlets st' !! i = Some m' ∧ sameOwnData m m'.
Proof.
  intros H Hm.
  eapply lodLoop_invariant
    with (P := λ s, ∃ m', allMeshlets s !! i = Some m' ∧ sameOwnData m m');
    [| exact H | by exists m].
  intros lvl0 n0 g s s' new0 Hgroup (m1 & Hm1 & Hsame).
  destruct (processGroup_keeps _ _ _ _ _ _ _ _ Hgroup Hm1) as (m2 & Hm2 & Hsame2).
  exists m2. split; [done | by eapply sameOwnData_trans].
Qed.

(** Every meshlet a level adds was made by one of its groups that did not
    stall, from the members of that group. *)
Lemma processGroups_created (lvl n : nat) (groups : list (list (option Ref)))
  (st st' : State) (new : list Ref) :
  processGroups' lvl n groups st = Ok (new, st') →
  (∀ g r, g ∈ groups → Some r ∈ g → r < length (allMeshlets st)) →
  ∀ i m, length (allMeshlets st) ≤ i → allMeshlets st' !! i = Some m →
    ∃ g children k idx,
      g ∈ groups
      ∧ stalls children = false
      ∧ m = fresh lvl (errorOf children) (groupRefs g) (boundsOf children) k idx
      ∧ (NoDup (concat groups) → childrenOf (allMeshlets st) g children).
Proof.
  revert st new. induction groups as [| g groups IH];
    intros st new H Hold i m Hi Hm.
  - apply ret_Ok in H as [-> ->]. apply lookup_lt_Some in Hm. lia.
  - apply processGroups_cons in H as (new1 & st1 & new2 & H1 & H2 & ->).
    pose proof H2 as Hframe.
    apply processGroups_frame in Hframe as (Hlen2 & _ & _ & Hold2).
    destruct (processGroup_Ok _ _ _ _ _ _ _ _ _ _ _ _ _ H1)
      as (children & Hchildren & _).
    destruct (processGroup_lookup _ _ _ _ _ _ _ _ _ _ _ _ _ _ H1 Hchildren)
      as (Hlen1 & _ & _ & Hold1 & Hfresh1).
    destruct (decide (i < length (allMeshlets st1))) as [Hlt | Hge].
    + rewrite Hold2 in Hm; [| done |].
      2:{ intros g' Hg' Hin.
          assert (i < length (allMeshlets st)); [| lia].
          apply (Hold g' i); [by apply list_elem_of_further | done]. }
      destruct (Hfresh1 i m Hi Hm) as (Hstall & _ & k & idx & ->).
      exists g, children, k, idx.
      split; [apply list_elem_of_here |]. done.
    + destruct (IH st1 new2 H2) with (i := i) (m := m)
        as (g' & children' & k & idx & Hg' & Hstall & -> & Hch);
        [| lia | done |].
      { intros g' r Hg' Hr.
        assert (r < length (allMeshlets st)); [| lia].
        apply (Hold g' r); [by apply list_elem_of_further | done]. }
      exists g', children', k, idx.
      split; [by apply list_elem_of_further |].
      split; [done |]. split; [done |].
      intros Hnd. cbn [concat] in Hnd.
      apply NoDup_app in Hnd as (_ & Hapart & Hnd).
      eapply childrenOf_ext; [| exact (Hch Hnd)].
      intros c Hc. cbv beta.
      rewrite Hold1.
      2:{ apply (Hold g' c); [by apply list_elem_of_further | done]. }
      rewrite decide_False; [by destruct (allMeshlets st !! c) |].
      intros [Hin _]. apply elem_of_groupRefs in Hin.
      apply (Hapart (Some c) Hin).
      apply list_elem_of_In, in_concat. exists g'.
      by rewrite <- !list_elem_of_In.
Qed.

(** Where the loop ends is a loop head. *)
Lemma lodLoop_head (idx : Indices) (st0 : State) (remaining lvl : nat)
  (cur : list Ref) (st st' : State) (lvl' : nat) (cur' : list Ref) :
  levelStart' idx st0 remaining lvl cur st →
  lodLoop' remaining lvl cur st = Ok ((lvl', cur'), st') →
  ∃ remaining', levelStart' idx st0 remaining' lvl' cur' st'.
Proof.
  revert lvl cur st.
  induction remaining as [| remaining IH]; intros lvl cur st Hhead H.
  - apply ret_Ok in H as [[= -> ->] ->]. by exists 0.
  - destruct (decide (length cur < 2)) as [Hshort | Hlong].
    + cbn [lodLoop] in H. rewrite decide_True in H by done.
      apply ret_Ok in H as [[= -> ->] ->]. by exists (S remaining).
    + apply lodLoop_step in H as (newly & st1 & Hgroups & Hgo & Hrest); [| lia].
      eapply IH; [| exact Hrest].
      eapply levelStart_next; [exact Hhead | lia | exact Hgroups | exact Hgo].
Qed.

(** A call that returns ends at a loop head, in the state whose meshlets it
    returns. *)
Lemma createNaniteMeshlets_head (idx : Indices) (st0 stF : State)
  (ms : list MeshletWIP) :
  createNaniteMeshlets' idx st0 = Ok (ms, stF) →
  ms = allMeshlets stF
  ∧ ∃ remaining lvl cur, levelStart' idx st0 remaining lvl cur stF.
Proof.
  intros H. apply createNaniteMeshlets_Ok in H as ([lvl cur] & Hbuild & ->).
  split; [done |].
  unfold buildLodLevels in Hbuild.
  apply bind_Ok in Hbuild as ([] & st0' & Hreset & Hbuild).
  apply bind_Ok in Hbuild as (bottom & st1 & Hsplit & Hloop).
  assert (Hfirst : levelStart' idx st0 MAX_LODS 1 bottom st1).
  { apply levelStart_first. by rewrite (bind_step _ _ _ _ _ Hreset). }
  destruct (lodLoop_head _ _ _ _ _ _ _ _ _ Hfirst Hloop) as [remaining Hhead].
  by exists remaining, lvl, cur.
Qed.

(** The state when the loop is first reached: one meshlet per cluster of the
    mesh, in order. *)
Lemma bottom_state (idx : Indices) (st0 : State) (bottom : list Ref)
  (st1 : State) :
  (exec resetSession in
   splitIntoMeshlets' 0 idx (Fin 0) []
     (calculateBounds (positions parsedMesh) idx)) st0
  = Ok (bottom, st1) →
  ∃ mo,
    Meshopt.createMeshlets meshopt_buildMeshlets parsedMesh idx = Ok mo
    ∧ bottom = seq 0 (length (Meshopt.splitIndicesPerMeshlets mo))
    ∧ allMeshlets st1
      = imap (λ k, fresh 0 (Fin 0) []
                     (calculateBounds (positions parsedMesh) idx) k)
          (Meshopt.splitIndicesPerMeshlets mo).
Proof.
  intros H.
  apply bind_Ok in H as ([] & st0' & Hreset & H).
  unfold resetSession in Hreset. injection Hreset as Hst0. subst st0'.
  unfold splitIntoMeshlets in H.
  apply bind_Ok in H as (mo & st2 & Hmo & H).
  unfold lift in Hmo.
  destruct (Meshopt.createMeshlets meshopt_buildMeshlets parsedMesh idx)
    as [mo' |] eqn:Hcreate; [| discriminate].
  injection Hmo as Hmo1 Hmo2. subst mo' st2.
  rewrite forM_createMeshletWip in H. injection H as <- <-.
  exists mo. done.
Qed.

Lemma levelStart_levels (idx : Indices) (st0 : State) (remaining lvl : nat)
  (cur : list Ref) (st : State) :
  levelStart' idx st0 remaining lvl cur st →
  1 ≤ lvl
  ∧ remaining + lvl = S MAX_LODS
  ∧ Forall (λ c, ∃ m, allMeshlets st !! c = Some m ∧ S (lodLevel m) = lvl) cur
  ∧ (∀ i m, allMeshlets st !! i = Some m → lodLevel m < lvl)
  ∧ layered (allMeshlets st).
Proof.
  induction 1 as [bottom st1 Hfirst
                 | remaining lvl cur st newly st1 Hhead IH Hcur Hgroups Hgo].
  - apply bottom_state in Hfirst as (mo & _ & -> & Hstore).
    assert (Hentry : ∀ i m, allMeshlets st1 !! i = Some m →
              lodLevel m = 0 ∧ createdFrom m = []).
    { intros i m Hm. rewrite Hstore, list_lookup_imap in Hm.
      destruct (Meshopt.splitIndicesPerMeshlets mo !! i); [| done].
      by injection Hm as <-. }
    split; [done |]. split; [lia |]. split; [| split].
    + apply Forall_seq. intros j Hj.
      destruct (lookup_lt_is_Some_2 (allMeshlets st1) j) as [m Hm].
      { rewrite Hstore, length_imap. lia. }
      exists m. split; [done |]. by destruct (Hentry j m Hm) as [-> _].
    + intros i m Hm. destruct (Hentry i m Hm) as [-> _]. lia.
    + intros i m Hm. destruct (Hentry i m Hm) as [_ ->]. constructor.
  - destruct IH as (Hlvl & Hrem & Hcurlvl & Hbelow & Hlay).
    rewrite Forall_forall in Hcurlvl.
    assert (Hmem : ∀ g r, g ∈ partitionMeshlets' cur (allMeshlets st) →
              Some r ∈ g → r ∈ cur)
      by (intros g r Hg Hr; by eapply partitionMeshlets_members).
    assert (Hold : ∀ g r, g ∈ partitionMeshlets' cur (allMeshlets st) →
              Some r ∈ g → r < length (allMeshlets st)).
    { intros g r Hg Hr. destruct (Hcurlvl r (Hmem g r Hg Hr)) as (m & Hm & _).
      by apply lookup_lt_Some in Hm. }
    pose proof (processGroups_created _ _ _ _ _ _ Hgroups Hold) as Hcreated.
    pose proof Hgroups as Hframe.
    apply processGroups_frame in Hframe as (Hlen & Hnew & _ & _).
    assert (Hkept : ∀ i m, allMeshlets st1 !! i = Some m →
              i < length (allMeshlets st) →
              ∃ m0, allMeshlets st !! i = Some m0 ∧ sameOwnData m0 m).
    { intros i m Hm Hi.
      destruct (lookup_lt_is_Some_2 (allMeshlets st) i Hi) as [m0 Hm0].
      destruct (processGroups_keeps _ _ _ _ _ _ _ _ Hgroups Hm0)
        as (m' & Hm' & Hsame).
      exists m0. split; [done |]. congruence. }
    assert (Hmade : ∀ i m, allMeshlets st1 !! i = Some m →
              length (allMeshlets st) ≤ i →
              lodLevel m = lvl
              ∧ Forall (λ c, c ∈ cur) (createdFrom m)).
    { intros i m Hm Hi.
      destruct (Hcreated i m Hi Hm) as (g & ch & k & idx' & Hg & _ & -> & _).
      split; [done |]. cbn. apply Forall_forall. intros c Hc.
      apply elem_of_groupRefs in Hc. by eapply Hmem. }
    split; [lia |]. split; [lia |]. split; [| split].
    + apply Forall_forall. intros c Hc.
      rewrite Forall_forall in Hnew. specialize (Hnew c Hc).
      destruct (lookup_lt_is_Some_2 (allMeshlets st1) c) as [m Hm]; [lia |].
      exists m. split; [done |].
      destruct (Hmade c m Hm) as [-> _]; [lia | done].
    + intros i m Hm.
      destruct (decide (i < length (allMeshlets st))) as [Hi | Hi].
      * destruct (Hkept i m Hm Hi) as (m0 & Hm0 & Hsame).
        apply sameOwnData_fields in Hsame as (_ & _ & <- & _).
        specialize (Hbelow i m0 Hm0). lia.
      * destruct (Hmade i m Hm) as [-> _]; lia.
    + intros i m Hm.
      destruct (decide (i < length (allMeshlets st))) as [Hi | Hi].
      * destruct (Hkept i m Hm Hi) as (m0 & Hm0 & Hsame).
        apply sameOwnData_fields in Hsame as (_ & <- & <- & _).
        eapply Forall_impl; [exact (Hlay i m0 Hm0) |].
        intros c (Hc & mc & Hmc & Hlevel). split; [done |].
        destruct (processGroups_keeps _ _ _ _ _ _ _ _ Hgroups Hmc)
          as (mc' & Hmc' & Hsame).
        exists mc'. split; [done |].
        apply sameOwnData_fields in Hsame as (_ & _ & <- & _). done.
      * destruct (Hmade i m Hm) as [Hlevel Hfrom]; [lia |].
        eapply Forall_impl; [exact Hfrom |].
        intros c Hc. destruct (Hcurlvl c Hc) as (mc & Hmc & Hmclvl).
        split; [apply lookup_lt_Some in Hmc; lia |].
        destruct (processGroups_keeps _ _ _ _ _ _ _ _ Hgroups Hmc)
          as (mc' & Hmc' & Hsame).
        exists mc'. split; [done |].
        apply sameOwnData_fields in Hsame as (_ & _ & <- & _). lia.
Qed.

(** X8: the hierarchy a call returns is layered: every meshlet was created
    from meshlets that precede it in the returned array and lie exactly one
    LOD level below it, so leaves (level 0) were created from nothing and no
    meshlet is its own ancestor; and no level exceeds [MAX_LODS]. *)
Theorem hierarchy_is_layered (idx : Indices) (st0 stF : State)
  (ms : list MeshletWIP) :
  createNaniteMeshlets' idx st0 = Ok (ms, stF) →
  (∀ i m, ms !! i = Some m →
     lodLevel m ≤ MAX_LODS
     ∧ (lodLevel m = 0 → createdFrom m = [])
     ∧ Forall (λ c, c < i
                    ∧ ∃ mc, ms !! c = Some mc ∧ S (lodLevel mc) = lodLevel m)
         (createdFrom m)).
Proof.
  intros H i m Hm.
  apply createNaniteMeshlets_head in H as (-> & remaining & lvl & cur & Hhead).
  apply levelStart_levels in Hhead as (_ & Hrem & _ & Hbelow & Hlay).
  specialize (Hbelow i m Hm). specialize (Hlay i m Hm).
  split; [lia |]. split; [| done].
  intros Hzero. destruct (createdFrom m) as [| c rest]; [done |].
  apply Forall_cons in Hlay as [(_ & mc & _ & Hlevel) _]. lia.
Qed.

Lemma filter_prefix_length {A} (f : A → bool) (l : list A) (n : nat) :
  n ≤ length l →
  (∀ i x, l !! i = Some x → (f x = true ↔ i < n)) →
  length (List.filter f l) = n.
Proof.
  revert n. induction l as [| a l IH]; intros n Hn H.
  - cbn in *. lia.
  - cbn [List.filter]. destruct n as [| n].
    + destruct (f a) eqn:Hfa.
      * apply (H 0 a) in Hfa; [lia | done].
      * apply (IH 0); [lia |]. intros i x Hx.
        specialize (H (S i) x Hx). split; [| lia]. intros Hfx. apply H in Hfx. lia.
    + destruct (f a) eqn:Hfa.
      * cbn. f_equal. apply IH; [cbn in Hn; lia |].
        intros i x Hx. specialize (H (S i) x Hx). rewrite H. lia.
      * assert (f a = true); [| congruence]. apply (H 0 a); [done | lia].
Qed.

(** The leaves stay where the first split put them, with what they were
    created with; everything after them is above level 0. *)
Lemma levelStart_leaves (idx : Indices) (st0 : State) (remaining lvl : nat)
  (cur : list Ref) (st : State) :
  levelStart' idx st0 remaining lvl cur st →
  ∃ mo,
    Meshopt.createMeshlets meshopt_buildMeshlets parsedMesh idx = Ok mo
    ∧ (∀ i piece, Meshopt.splitIndicesPerMeshlets mo !! i = Some piece →
         ∃ m, allMeshlets st !! i = Some m
              ∧ sameOwnData
                  (fresh 0 (Fin 0) []
                     (calculateBounds (positions parsedMesh) idx) i piece) m)
    ∧ (∀ i m, allMeshlets st !! i = Some m →
         length (Meshopt.splitIndicesPerMeshlets mo) ≤ i → 1 ≤ lodLevel m).
Proof.
  induction 1 as [bottom st1 Hfirst
                 | remaining lvl cur st newly st1 Hhead IH Hcur Hgroups Hgo].
  - apply bottom_state in Hfirst as (mo & Hmo & -> & Hstore).
    exists mo. split; [done |]. split.
    + intros i piece Hpiece. eexists. split; [| reflexivity].
      by rewrite Hstore, list_lookup_imap, Hpiece.
    + intros i m Hm Hi. apply lookup_lt_Some in Hm.
      rewrite Hstore, length_imap in Hm. lia.
  - destruct IH as (mo & Hmo & Hleaf & Hupper).
    destruct (levelStart_levels _ _ _ _ _ _ Hhead)
      as (Hlvl & _ & Hcurlvl & _ & _).
    rewrite Forall_forall in Hcurlvl.
    exists mo. split; [done |]. split.
    + intros i piece Hpiece.
      destruct (Hleaf i piece Hpiece) as (m & Hm & Hsame).
      destruct (processGroups_keeps _ _ _ _ _ _ _ _ Hgroups Hm)
        as (m' & Hm' & Hsame').
      exists m'. split; [done | by eapply sameOwnData_trans].
    + intros i m Hm Hi.
      destruct (decide (i < length (allMeshlets st))) as [Hold | Hnew].
      * destruct (lookup_lt_is_Some_2 (allMeshlets st) i Hold) as [m0 Hm0].
        destruct (processGroups_keeps _ _ _ _ _ _ _ _ Hgroups Hm0)
          as (m' & Hm' & Hsame).
        assert (m' = m) as -> by congruence.
        apply sameOwnData_fields in Hsame as (_ & _ & <- & _).
        by apply (Hupper i m0).
      * destruct (processGroups_created _ _ _ _ _ _ Hgroups) with (i := i) (m := m)
          as (g & ch & k & idx' & _ & _ & -> & _); [| lia | done | done].
        intros g r Hg Hr.
        destruct (Hcurlvl r) as (mr & Hmr & _);
          [by eapply partitionMeshlets_members |].
        by apply lookup_lt_Some in Hmr.
Qed.


(** X10: the drawn-meshlets buffer made for a returned hierarchy has room
    for the two parameter blocks and one 8-byte entry per cluster of the
    input mesh and instance, whatever the upper levels hold. *)
Theorem drawn_buffer_has_an_entry_per_cluster (idx : Indices)
  (st0 stF : State) (ms : list MeshletWIP) (mo : Meshopt.meshopt_Meshlets)
  (WEBGPU_MINIMAL_BUFFER_SIZE : nat) (name : string) (instanceCount : nat) :
  createNaniteMeshlets' idx st0 = Ok (ms, stF) →
  Meshopt.createMeshlets meshopt_buildMeshlets parsedMesh idx = Ok mo →
  DrawnMeshlets.size
    (DrawnMeshlets.createDrawnMeshletsBuffer WEBGPU_MINIMAL_BUFFER_SIZE name ms
       instanceCount)
  = DrawnMeshlets.BYTES_DRAWN_MESHLETS_PARAMS WEBGPU_MINIMAL_BUFFER_SIZE
    + DrawnMeshlets.BYTES_DRAWN_MESHLETS_SW_PARAMS WEBGPU_MINIMAL_BUFFER_SIZE
    + length (Meshopt.meshlets mo) * instanceCount * BYTES_UVEC2.
Proof.
  intros H Hmo.
  apply createNaniteMeshlets_head in H as (-> & remaining & lvl & cur & Hhead).
  apply levelStart_leaves in Hhead as (mo' & Hmo' & Hleaf & Hupper).
  assert (mo' = mo) as -> by congruence.
  assert (Hcount : length (Meshopt.splitIndicesPerMeshlets mo)
                   = length (Meshopt.meshlets mo))
    by apply length_splitIndicesFrom.
  unfold DrawnMeshlets.createDrawnMeshletsBuffer. cbn [DrawnMeshlets.size].
  do 3 f_equal.
  apply filter_prefix_length.
  - destruct (decide (length (Meshopt.meshlets mo) = 0)) as [-> | Hpos]; [lia |].
    destruct (lookup_lt_is_Some_2 (Meshopt.splitIndicesPerMeshlets mo)
                (length (Meshopt.meshlets mo) - 1)) as [piece Hpiece]; [lia |].
    destruct (Hleaf _ piece Hpiece) as (m & Hm & _).
    apply lookup_lt_Some in Hm. lia.
  - intros i m Hm. unfold DrawnMeshlets.BOTTOM_LEVEL_NODE.
    rewrite Nat.eqb_eq. split.
    + intros Hzero.
      destruct (decide (i < length (Meshopt.meshlets mo))) as [| Hge]; [done |].
      specialize (Hupper i m Hm). lia.
    + intros Hi.
      destruct (lookup_lt_is_Some_2 (Meshopt.splitIndicesPerMeshlets mo) i)
        as [piece Hpiece]; [lia |].
      destruct (Hleaf i piece Hpiece) as (m' & Hm' & Hsame).
      assert (m' = m) as -> by congruence.
      by apply sameOwnData_fields in Hsame as (_ & _ & <- & _).
Qed.

(** A level that runs to its end found a meshlet behind every member of
    every group. *)
Lemma processGroups_all_Some (lvl n : nat) (groups : list (list (option Ref)))
  (st st' : State) (new : list Ref) :
  processGroups' lvl n groups st = Ok (new, st') →
  ∀ g o, g ∈ groups → o ∈ g → is_Some o.
Proof.
  revert st new. induction groups as [| g0 groups IH]; intros st new H g o Hg Ho.
  - by apply elem_of_nil in Hg.
  - apply processGroups_cons in H as (new1 & st1 & new2 & H1 & H2 & ->).
    apply elem_of_cons in Hg as [-> | Hg]; [| by eapply IH].
    destruct (processGroup_Ok _ _ _ _ _ _ _ _ _ _ _ _ _ H1)
      as (children & Hchildren & _).
    apply list_elem_of_lookup in Ho as [j Hj].
    destruct (Forall2_lookup_l _ _ _ _ _ Hchildren Hj) as (m & _ & i & -> & _).
    done.
Qed.

(** When the partitioner puts no index in two parts, the groups of a level
    that runs to its end share no meshlet. *)
Lemma partition_NoDup (lvl n : nat) (cur : list Ref) (st st' : State)
  (new : list Ref) :
  (∀ adjacency k, NoDup (concat (partitionGraph adjacency k))) →
  NoDup cur →
  processGroups' lvl n (partitionMeshlets' cur (allMeshlets st)) st
  = Ok (new, st') →
  NoDup (concat (partitionMeshlets' cur (allMeshlets st))).
Proof.
  intros Hpart Hcur H.
  pose proof (processGroups_all_Some _ _ _ _ _ _ H) as Hsome.
  revert Hsome. unfold partitionMeshlets.
  destruct (decide (GROUP_SIZE < length cur)) as [Hbig | Hsmall].
  - set (parts := partitionGraph _ _). intros Hsome.
    rewrite <- concat_map.
    apply NoDup_fmap_2_strong; [| apply Hpart].
    intros x y Hx Hy Heq.
    assert (Hx' : is_Some (cur !! x)).
    { apply list_elem_of_In, in_concat in Hx as (part & Hpart' & Hin).
      apply (Hsome (map (λ i, cur !! i) part)).
      - apply list_elem_of_In, in_map_iff. by exists part.
      - apply list_elem_of_In, in_map_iff. by exists x. }
    destruct Hx' as [r Hr]. rewrite Hr in Heq.
    by eapply NoDup_lookup.
  - intros _. cbn [concat]. rewrite app_nil_r.
    apply NoDup_fmap_2; [| done]. by intros ? ? [=].
Qed.

Lemma levelStart_parentsAgree (idx : Indices) (st0 : State)
  (remaining lvl : nat) (cur : list Ref) (st : State) :
  (∀ adjacency k, NoDup (concat (partitionGraph adjacency k))) →
  levelStart' idx st0 remaining lvl cur st →
  parentsAgree (allMeshlets st).
Proof.
  intros Hpart.
  induction 1 as [bottom st1 Hfirst
                 | remaining lvl cur st newly st1 Hhead IH Hcur Hgroups Hgo].
  - apply bottom_state in Hfirst as (mo & _ & _ & Hstore).
    intros i m c Hm Hc. rewrite Hstore, list_lookup_imap in Hm.
    destruct (Meshopt.splitIndicesPerMeshlets mo !! i); [| done].
    injection Hm as <-. by apply elem_of_nil in Hc.
  - intros i m c Hm Hc.
    destruct (levelStart_roots _ _ _ _ _ _ _ _ _ _ _ _ _ _ _ Hhead)
      as [Hnodup Hroots].
    rewrite Forall_forall in Hroots.
    pose proof (partition_NoDup _ _ _ _ _ _ Hpart Hnodup Hgroups) as Hdisjoint.
    assert (Hmem : ∀ g r, g ∈ partitionMeshlets' cur (allMeshlets st) →
              Some r ∈ g → r ∈ cur)
      by (intros g r Hg Hr; by eapply partitionMeshlets_members).
    assert (Hold : ∀ g r, g ∈ partitionMeshlets' cur (allMeshlets st) →
              Some r ∈ g → r < length (allMeshlets st)).
    { intros g r Hg Hr. destruct (Hroots r (Hmem g r Hg Hr)) as (mr & Hmr & _).
      by apply lookup_lt_Some in Hmr. }
    destruct (decide (i < length (allMeshlets st))) as [Hi | Hi].
    + destruct (lookup_lt_is_Some_2 (allMeshlets st) i Hi) as [m0 Hm0].
      destruct (processGroups_keeps _ _ _ _ _ _ _ _ Hgroups Hm0)
        as (m' & Hm' & Hsame).
      assert (m' = m) as -> by congruence.
      apply sameOwnData_fields in Hsame as (_ & Hfrom & _ & _ & _ & <- & <-).
      rewrite <- Hfrom in Hc.
      destruct (IH i m0 c Hm0 Hc) as (mc & Hmc & Herr & Hbounds).
      exists mc. split; [| done].
      pose proof Hgroups as Hframe.
      apply processGroups_frame in Hframe as (_ & _ & _ & Hsame).
      rewrite Hsame; [done | by apply lookup_lt_Some in Hmc |].
      intros g Hg Hin.
      destruct (Hroots c (Hmem g c Hg Hin)) as (mr & Hmr & Hnone & _).
      congruence.
    + destruct (processGroups_created _ _ _ _ _ _ Hgroups Hold i m)
        as (g & children & k & idx' & Hg & Hstall & -> & Hchildren);
        [lia | done |].
      specialize (Hchildren Hdisjoint). cbn in Hc.
      destruct (processGroups_member _ _ _ _ _ _ _ _ _ _ _ _ _ _ _
                  Hgroups Hdisjoint Hg Hchildren) as [Hrefs _].
      destruct (childrenOf_valid _ _ _ _ Hchildren Hc) as (mc & Hmc & _).
      exists (assignParent (errorOf children) (boundsOf children) mc).
      split; [| done].
      rewrite (Hrefs c Hc), Hstall, Hmc. done.
Qed.

Lemma processGroup_childrenHaveParents (lvl n : nat) (g : list (option Ref))
  (st st' : State) (new : list Ref) :
  processGroup' lvl n g st = Ok (new, st') →
  childrenHaveParents (allMeshlets st) → childrenHaveParents (allMeshlets st').
Proof.
  intros H Hinv c mc Hmc Hparent.
  destruct (processGroup_Ok _ _ _ _ _ _ _ _ _ _ _ _ _ H)
    as (children & Hchildren & Hcases).
  destruct (processGroup_lookup _ _ _ _ _ _ _ _ _ _ _ _ _ _ H Hchildren)
    as (Hlen & Hnew & _ & Hold & Hfresh).
  destruct (decide (c < length (allMeshlets st))) as [Hc | Hc].
  - rewrite Hold in Hmc by done.
    destruct (allMeshlets st !! c) as [m0 |] eqn:Hm0; [| done].
    destruct (decide (c ∈ groupRefs g ∧ stalls children = false))
      as [[Hin Hstall] | Hno].
    + rewrite Hstall in Hcases. destruct Hcases as (idxs & Hne & Hseq & _).
      assert (Hlt : length (allMeshlets st) < length (allMeshlets st')).
      { destruct idxs as [| idx0 idxs]; [done |].
        rewrite Hseq in Hnew. cbn [length seq] in Hnew.
        apply Forall_cons in Hnew as [Hnew _]. lia. }
      destruct (lookup_lt_is_Some_2 (allMeshlets st') _ Hlt) as [m Hm].
      destruct (Hfresh _ m (le_n _) Hm) as (_ & _ & k & idx' & Heq).
      exists (length (allMeshlets st)), m. split; [exact Hm |].
      by rewrite Heq.
    + injection Hmc as <-.
      destruct (Hinv c m0 Hm0 Hparent) as (i & m & Hm & Hin).
      destruct (processGroup_keeps _ _ _ _ _ _ _ _ H Hm) as (m' & Hm' & Hsame).
      exists i, m'. split; [done |].
      by apply sameOwnData_fields in Hsame as (_ & <- & _).
  - destruct (Hfresh c mc) as (_ & _ & k & idx' & ->); [lia | done |].
    done.
Qed.

(** X11: when the partitioner puts no meshlet index in two parts, every
    child in the returned hierarchy carries the data of its parents: the
    meshlets listed in [createdFrom] of a meshlet are not roots, their
    [parentError] is its [maxSiblingsError] and their [parentBounds] its
    [sharedSiblingsBounds]; and every meshlet that is not a root is listed by
    some meshlet. *)
Theorem children_carry_the_data_of_their_parents (idx : Indices)
  (st0 stF : State) (ms : list MeshletWIP) :
  (∀ adjacency k, NoDup (concat (partitionGraph adjacency k))) →
  createNaniteMeshlets' idx st0 = Ok (ms, stF) →
  (∀ i m c, ms !! i = Some m → c ∈ createdFrom m →
     ∃ mc, ms !! c = Some mc
           ∧ isWIP_Root mc = false
           ∧ parentError mc = maxSiblingsError m
           ∧ parentBounds mc = Some (sharedSiblingsBounds m))
  ∧ (∀ c mc, ms !! c = Some mc → isWIP_Root mc = false →
       ∃ i m, ms !! i = Some m ∧ c ∈ createdFrom m).
Proof.
  intros Hpart H. split.
  - apply createNaniteMeshlets_head in H as (-> & remaining & lvl & cur & Hhead).
    intros i m c Hm Hc.
    destruct (levelStart_parentsAgree _ _ _ _ _ _ Hpart Hhead i m c Hm Hc)
      as (mc & Hmc & Herr & Hbounds).
    exists mc. split; [done |]. split; [| done].
    unfold isWIP_Root. by rewrite Hbounds.
  - assert (Hinv : childrenHaveParents ms).
    { pose proof H as H'. apply createNaniteMeshlets_Ok in H' as (res & _ & ->).
      eapply createNaniteMeshlets_invariant
        with (P := λ s, childrenHaveParents (allMeshlets s)); [| | exact H].
      - intros. by eapply processGroup_childrenHaveParents.
      - intros bottom st1 Hsplit.
        apply splitIntoMeshlets_Ok in Hsplit as (idxs & _ & _ & ->).
        intros c mc Hmc Hparent. cbn in Hmc.
        rewrite list_lookup_imap in Hmc.
        destruct (idxs !! c); [| done]. by injection Hmc as <-. }
    intros c mc Hmc Hroot. apply (Hinv c mc Hmc).
    unfold isWIP_Root in Hroot. by destruct (parentBounds mc).
Qed.

(** The only group of a level makes one meshlet, the root, from what the
    simplifier returns. *)
Lemma processGroup_single (lvl : nat) (g : list (option Ref)) (st st' : State)
  (new : list Ref) (children : list MeshletWIP) :
  processGroup' lvl 1 g st = Ok (new, st') →
  childrenOf (allMeshlets st) g children →
  stalls children = false →
  new = [length (allMeshlets st)]
  ∧ st' = mkState (NEXT_MESHLET_ID st + 1)
            (assignAll (errorOf children) (boundsOf children) (groupRefs g)
               (allMeshlets st
                  ++ [fresh lvl (errorOf children) (groupRefs g)
                        (boundsOf children) (NEXT_MESHLET_ID st)
                        (indexBuffer (simplified children))]))
            (console st).
Proof.
  unfold processGroup. intros H Hchildren Hstall.
  apply bind_Ok in H as (children' & st1 & Hchildren' & H).
  apply forM_deref_Ok in Hchildren' as [-> Hchildren'].
  rewrite (childrenOf_unique _ _ _ _ Hchildren Hchildren') in H.
  clear children' Hchildren'.
  fold (simplified children) in H. fold (stalls children) in H.
  rewrite Hstall in H.
  fold (errorOf children) in H. fold (boundsOf children) in H.
  fold (groupRefs g) in H.
  apply bind_Ok in H as (new' & st2 & Hnew & H).
  apply bind_Ok in H as ([] & st3 & Hassign & H).
  apply ret_Ok in H as [-> ->].
  unfold assignParents in Hassign. injection Hassign as <-.
  rewrite decide_True in Hnew by done.
  apply bind_Ok in Hnew as (root & st4 & Hroot & Hnew).
  apply ret_Ok in Hnew as [-> ->].
  rewrite createMeshletWip_Ok in Hroot. injection Hroot as <- <-.
  done.
Qed.

Lemma groupRefs_Some (refs : list Ref) : groupRefs (map Some refs) = refs.
Proof.
  unfold groupRefs. induction refs as [| r refs IH]; [done |].
  cbn. by rewrite IH.
Qed.

(** X12: a call on a mesh of at most [GROUP_SIZE] clusters that returns
    gives exactly one root and logs no warning.  With one cluster the result
    is that cluster alone.  With more, the result is the clusters and one
    meshlet of level 1 created from all of them. *)
Theorem small_mesh_has_one_root (idx : Indices) (st0 stF : State)
  (ms : list MeshletWIP) (mo : Meshopt.meshopt_Meshlets) :
  Meshopt.createMeshlets meshopt_buildMeshlets parsedMesh idx = Ok mo →
  length (Meshopt.meshlets mo) ≤ GROUP_SIZE →
  createNaniteMeshlets' idx st0 = Ok (ms, stF) →
  length (List.filter isWIP_Root ms) = 1
  ∧ console stF = console st0
  ∧ (length (Meshopt.meshlets mo) = 1 → length ms = 1)
  ∧ (2 ≤ length (Meshopt.meshlets mo) →
       length ms = S (length (Meshopt.meshlets mo))
       ∧ ∃ root, ms !! length (Meshopt.meshlets mo) = Some root
                 ∧ isWIP_Root root = true
                 ∧ lodLevel root = 1
                 ∧ createdFrom root = seq 0 (length (Meshopt.meshlets mo))).
Proof.
  intros Hmo Hsmall H.
  apply createNaniteMeshlets_Ok in H as ([lvl' cur'] & Hbuild & ->).
  unfold buildLodLevels in Hbuild.
  apply bind_Ok in Hbuild as ([] & st0' & Hreset & Hbuild).
  apply bind_Ok in Hbuild as (bottom & st1 & Hsplit & Hloop).
  assert (Hconsole : console st1 = console st0).
  { unfold resetSession in Hreset. injection Hreset as <-.
    by apply splitIntoMeshlets_Ok in Hsplit as (idxs & _ & _ & ->). }
  assert (Hfirst : (exec resetSession in
                    splitIntoMeshlets' 0 idx (Fin 0) []
                      (calculateBounds (positions parsedMesh) idx)) st0
                   = Ok (bottom, st1))
    by (by rewrite (bind_step _ _ _ _ _ Hreset)).
  apply bottom_state in Hfirst as (mo' & Hmo' & -> & Hstore).
  assert (mo' = mo) as -> by congruence.
  pose proof (createMeshlets_nonempty _ _ _ _ Hmo) as Hne.
  assert (Hcount : length (Meshopt.splitIndicesPerMeshlets mo)
                   = length (Meshopt.meshlets mo))
    by apply length_splitIndicesFrom.
  rewrite Hcount in Hloop.
  set (n := length (Meshopt.meshlets mo)) in *.
  assert (Hpos : 1 ≤ n).
  { destruct (Meshopt.splitIndicesPerMeshlets mo); [done | cbn in Hcount; lia]. }
  assert (Hleaves : length (allMeshlets st1) = n)
    by (by rewrite Hstore, length_imap).
  assert (Hleaf : ∀ i m, allMeshlets st1 !! i = Some m →
            parentBounds m = None).
  { intros i m Hm. rewrite Hstore, list_lookup_imap in Hm.
    destruct (Meshopt.splitIndicesPerMeshlets mo !! i); [| done].
    by injection Hm as <-. }
  change MAX_LODS with (S 19) in Hloop.
  destruct (decide (n < 2)) as [Hone | Hmore].
  - cbn [lodLoop] in Hloop.
    rewrite decide_True in Hloop by (by rewrite length_seq).
    apply ret_Ok in Hloop as [_ ->].
    split; [| split; [done | split; [intros _; lia | lia]]].
    destruct (allMeshlets st1) as [| leaf [| ? ?]] eqn:Hst1; cbn in Hleaves;
      [lia | | lia].
    cbn. unfold isWIP_Root.
    by rewrite (Hleaf 0 leaf eq_refl).
  - apply lodLoop_step in Hloop as (newly & st2 & Hgroups & Hgo & Hrest);
      [| rewrite length_seq; lia].
    assert (Hparts : partitionMeshlets' (seq 0 n) (allMeshlets st1)
                     = [map Some (seq 0 n)]).
    { unfold partitionMeshlets. rewrite decide_False; [done |].
      rewrite length_seq. lia. }
    rewrite Hparts in Hgroups. cbn [length] in Hgroups.
    apply processGroups_cons in Hgroups as (new1 & st' & new2 & H1 & H2 & ->).
    apply ret_Ok in H2 as [-> ->].
    destruct (processGroup_Ok _ _ _ _ _ _ _ _ _ _ _ _ _ H1)
      as (children & Hchildren & Hcases).
    destruct (stalls children) eqn:Hstall.
    { destruct Hcases as [-> _]. exfalso. apply Hgo. done. }
    clear Hcases.
    destruct (processGroup_single _ _ _ _ _ _ H1 Hchildren Hstall) as [-> ->].
    cbn [lodLoop app] in Hrest. rewrite decide_True in Hrest by (cbn; lia).
    apply ret_Ok in Hrest as [_ ->].
    cbn [allMeshlets console]. rewrite groupRefs_Some.
    set (root := fresh 1 (errorOf children) (seq 0 n) (boundsOf children)
                   (NEXT_MESHLET_ID st1) (indexBuffer (simplified children))).
    set (store := assignAll _ _ _ _).
    assert (Hlen : length store = S n).
    { unfold store. rewrite length_assignAll, length_app. cbn. lia. }
    assert (Hroot : store !! n = Some root).
    { unfold store. rewrite lookup_assignAll.
      rewrite decide_False by (rewrite elem_of_seq; lia).
      rewrite lookup_app_r by lia.
      by rewrite Hleaves, Nat.sub_diag. }
    assert (Hinner : ∀ i m, store !! i = Some m →
              (negb (isWIP_Root m) = true ↔ i < n)).
    { intros i m Hm. unfold store in Hm. rewrite lookup_assignAll in Hm.
      destruct (decide (i ∈ seq 0 n)) as [Hin | Hout].
      - apply elem_of_seq in Hin.
        apply fmap_Some in Hm as (m0 & _ & ->).
        cbn. split; [lia | done].
      - rewrite elem_of_seq in Hout.
        rewrite lookup_app_r in Hm by lia.
        apply fmap_Some in Hm as (m0 & Hm0 & ->).
        destruct (i - length (allMeshlets st1)) as [| k] eqn:Hk;
          cbn in Hm0; [| done].
        injection Hm0 as <-. cbn. split; [done | lia]. }
    split; [| split; [done | split; [lia |]]].
    + pose proof (filter_prefix_length (λ m, negb (isWIP_Root m)) store n
                    ltac:(lia) Hinner) as Hnon.
      pose proof (List.filter_length isWIP_Root store) as Hall.
      lia.
    + intros _. split; [done |]. by exists root.
Qed.

(** X13: when the simplifier reports finite errors that are not negative
    and the partitioner puts no meshlet index in two parts, the error grows
    toward the roots: a meshlet's [maxSiblingsError] is at least that of
    every meshlet it was created from. *)
Theorem error_grows_toward_the_roots (idx : Indices) (st0 stF : State)
  (ms : list MeshletWIP) :
  (∀ indices target,
      ∃ q, mul (error (simplifyMesh parsedMesh indices target))
             (errorScale (simplifyMesh parsedMesh indices target)) = Fin q
           ∧ (0 <= q)%Q) →
  (∀ adjacency k, NoDup (concat (partitionGraph adjacency k))) →
  createNaniteMeshlets' idx st0 = Ok (ms, stF) →
  ∀ i m c, ms !! i = Some m → c ∈ createdFrom m →
    ∃ mc, ms !! c = Some mc
          ∧ ge (maxSiblingsError m) (maxSiblingsError mc) = true.
Proof.
  intros Hsimplify Hpart H i m c Hm Hc.
  assert (Hinv : Forall errorInvariant ms).
  { pose proof H as H'. apply createNaniteMeshlets_Ok in H' as (res & _ & ->).
    eapply createNaniteMeshlets_invariant
      with (P := λ s, Forall errorInvariant (allMeshlets s)); [| | exact H].
    - intros lvl n g s s' new. by apply processGroup_errorInvariant.
    - intros bottom st1 Hsplit.
      apply splitIntoMeshlets_Ok in Hsplit as (idxs & _ & _ & ->). cbn.
      apply Forall_lookup. intros j mj Hj.
      rewrite list_lookup_imap in Hj.
      destruct (idxs !! j); [| done]. injection Hj as <-.
      split; [apply ordinary_Fin | done]. }
  apply createNaniteMeshlets_head in H as (-> & remaining & lvl & cur & Hhead).
  destruct (levelStart_parentsAgree _ _ _ _ _ _ Hpart Hhead i m c Hm Hc)
    as (mc & Hmc & Herr & Hbounds).
  exists mc. split; [done |].
  rewrite Forall_lookup in Hinv. destruct (Hinv c mc Hmc) as [_ Hparent].
  rewrite Hbounds in Hparent. destruct Hparent as [_ Hge].
  by rewrite <- Herr.
Qed.

(** A group that cannot be processed ends the level, whatever the groups
    before it do. *)
Lemma processGroups_raises (lvl n : nat) (groups : list (list (option Ref)))
  (g : list (option Ref)) (st : State) :
  g ∈ groups →
  (∀ st1, processGroup' lvl n g st1 = Throw TypeError) →
  processGroups' lvl n groups st = Throw TypeError.
Proof.
  intros Hg Hraise. revert st.
  induction groups as [| g0 groups IH]; intros st.
  - by apply elem_of_nil in Hg.
  - cbn [processGroups].
    destruct (processGroup' lvl n g0 st) as [[new1 st1] | e] eqn:H0.
    + rewrite (bind_step _ _ _ _ _ H0).
      apply elem_of_cons in Hg as [-> | Hg]; [by rewrite Hraise in H0 |].
      by rewrite (bind_Throw _ _ _ _ (IH Hg st1)).
    + apply processGroup_Throw in H0 as Htype. subst e.
      by rewrite (bind_Throw _ _ _ _ H0).
Qed.

Lemma level_raises (idx : Indices) (st0 : State) (remaining lvl : nat)
  (cur : list Ref) (st : State) (g : list (option Ref)) :
  levelStart' idx st0 (S remaining) lvl cur st →
  2 ≤ length cur →
  g ∈ partitionMeshlets' cur (allMeshlets st) →
  (∀ st1, processGroup' lvl
            (length (partitionMeshlets' cur (allMeshlets st))) g st1
          = Throw TypeError) →
  createNaniteMeshlets' idx st0 = Throw TypeError.
Proof.
  intros Hhead Hcur Hg Hraise.
  rewrite createNaniteMeshlets_Throw.
  rewrite (levelStart_run _ _ _ _ _ _ _ _ _ _ _ _ _ _ _ Hhead).
  cbn [lodLoop]. rewrite decide_False by lia.
  rewrite (bind_step _ _ st st st) by done.
  apply bind_Throw. by eapply processGroups_raises.
Qed.

(** X15: an index that the partitioner returns outside [currentMeshlets] is
    never dropped: the group reads an undefined meshlet and the whole call
    raises a [TypeError]. *)
Theorem part_index_out_of_range_raises (idx : Indices) (st0 : State)
  (remaining lvl : nat) (cur : list Ref) (st : State) (part : list nat)
  (i : nat) :
  levelStart' idx st0 (S remaining) lvl cur st →
  GROUP_SIZE < length cur →
  part ∈ partitionGraph
           (findAdjacentMeshlets useMapToFindAdjacentEdges
              (map (λ r, default [] (boundaryEdges <$> allMeshlets st !! r))
                 cur))
           (nparts cur) →
  i ∈ part →
  length cur ≤ i →
  createNaniteMeshlets' idx st0 = Throw TypeError.
Proof.
  intros Hhead Hbig Hpart Hi Hout.
  apply (level_raises idx st0 remaining lvl cur st (map (λ i, cur !! i) part));
    [done | unfold GROUP_SIZE in Hbig; lia | |].
  - unfold partitionMeshlets. rewrite decide_True by done.
    apply list_elem_of_fmap. by exists part.
  - intros st1.
    destruct (processGroup' lvl _ (map (λ i, cur !! i) part) st1)
      as [[new st2] | e] eqn:Hrun.
    + destruct (processGroup_Ok _ _ _ _ _ _ _ _ _ _ _ _ _ Hrun)
        as (children & Hchildren & _).
      assert (Hnone : None ∈ map (λ i, cur !! i) part).
      { apply list_elem_of_fmap. exists i. split; [| done].
        symmetry. by apply lookup_ge_None_2. }
      apply list_elem_of_lookup in Hnone as [j Hj].
      destruct (Forall2_lookup_l _ _ _ _ _ Hchildren Hj) as (m & _ & r & Hr & _).
      discriminate Hr.
    + apply processGroup_Throw in Hrun as Htype. by subst e.
Qed.

(** X16: a part without members is not counted as a stall, because
    [0 / 0 > 0.97] is false.  When the simplifier returns nothing for no
    indices and meshoptimizer makes no meshlet of nothing, the group goes on
    to [createMeshlets], which reads the last of no meshlets, and the whole
    call raises a [TypeError]. *)
Theorem empty_part_raises (idx : Indices) (st0 : State)
  (remaining lvl : nat) (cur : list Ref) (st : State) :
  levelStart' idx st0 (S remaining) lvl cur st →
  2 ≤ length cur →
  [] ∈ partitionMeshlets' cur (allMeshlets st) →
  length (partitionMeshlets' cur (allMeshlets st)) ≠ 1 →
  indexBuffer (simplified []) = [] →
  (meshopt_buildMeshlets parsedMesh []).1.1 = [] →
  stalls [] = false
  ∧ createNaniteMeshlets' idx st0 = Throw TypeError.
Proof.
  intros Hhead Hcur Hg Hn Hsimplify Hnone.
  assert (Hstall : stalls [] = false).
  { unfold groupStalls, isStalled. fold (simplified []).
    by rewrite Hsimplify. }
  split; [exact Hstall |].
  apply (level_raises idx st0 remaining lvl cur st []); [done | done | done |].
  intros st1. unfold processGroup. cbn [forM].
  rewrite (bind_step _ _ st1 st1 []) by done.
  fold (simplified []). fold (stalls []). rewrite Hstall.
  rewrite decide_False by done.
  apply bind_Throw. unfold splitIntoMeshlets. apply bind_Throw.
  unfold lift, Meshopt.createMeshlets. rewrite Hsimplify.
  destruct (meshopt_buildMeshlets parsedMesh []) as [[ms verts] tris].
  cbn in Hnone. by rewrite Hnone.
Qed.

(** X17: after a meshlet is created only its parent data are ever written,
    and only while it is a root: from any loop head to the end of the call
    every meshlet keeps its id, children, level, indices, boundary edges,
    [maxSiblingsError] and [sharedSiblingsBounds], and a meshlet that already
    has a parent is returned exactly as it is. *)
Theorem meshlets_keep_what_they_were_created_with (idx : Indices)
  (st0 : State) (remaining lvl : nat) (cur : list Ref) (st stF : State)
  (ms : list MeshletWIP) (i : nat) (m : MeshletWIP) :
  levelStart' idx st0 remaining lvl cur st →
  createNaniteMeshlets' idx st0 = Ok (ms, stF) →
  allMeshlets st !! i = Some m →
  (∃ m', ms !! i = Some m'
         ∧ id m' = id m
         ∧ createdFrom m' = createdFrom m
         ∧ lodLevel m' = lodLevel m
         ∧ indices m' = indices m
         ∧ boundaryEdges m' = boundaryEdges m
         ∧ maxSiblingsError m' = maxSiblingsError m
         ∧ sharedSiblingsBounds m' = sharedSiblingsBounds m)
  ∧ (isWIP_Root m = false → ms !! i = Some m).
Proof.
  intros Hhead H Hm.
  apply createNaniteMeshlets_Ok in H as (res & Hbuild & ->).
  rewrite (levelStart_run _ _ _ _ _ _ _ _ _ _ _ _ _ _ _ Hhead) in Hbuild.
  split.
  - destruct (lodLoop_keeps _ _ _ _ _ _ _ _ Hbuild Hm) as (m' & Hm' & Hsame).
    exists m'. split; [done |].
    by apply sameOwnData_fields in Hsame as (-> & -> & -> & -> & -> & -> & ->).
  - intros Hchild.
    pose proof Hbuild as Hframe.
    apply lodLoop_frame in Hframe as (_ & _ & Hsame).
    rewrite Hsame; [done | by apply lookup_lt_Some in Hm |].
    intros Hin.
    destruct (levelStart_roots _ _ _ _ _ _ _ _ _ _ _ _ _ _ _ Hhead)
      as [_ Hroots].
    rewrite Forall_forall in Hroots.
    destruct (Hroots i Hin) as (m0 & Hm0 & Hnone & _).
    assert (m0 = m) as -> by congruence.
    unfold isWIP_Root in Hchild. by rewrite Hnone in Hchild.
Qed.

End StructureFacts.

Module StructureSampleFacts.
Import Samples SampleFacts.

Lemma concat_chunks (fuel : nat) (xs : list nat) :
  length xs ≤ fuel → concat (chunks fuel xs) = xs.
Proof.
  revert xs. induction fuel as [| fuel IH]; intros xs Hlen.
  - destruct xs; [done | cbn in Hlen; lia].
  - destruct xs as [| x xs]; [done |].
    cbn [chunks concat]. rewrite IH; [apply take_drop |].
    rewrite length_drop. cbn in *. lia.
Qed.

Lemma inOrder_NoDup (adjacency : Adjacency.t) (k : nat) :
  NoDup (concat (inOrder adjacency k)).
Proof.
  unfold inOrder. rewrite concat_chunks by (by rewrite length_seq).
  apply NoDup_seq.
Qed.

Lemma strip5_clusters :
  Meshopt.createMeshlets oneTrianglePerMeshlet (mesh 7) (strip 5)
  = Ok (clustersOf
          (Meshopt.createMeshlets oneTrianglePerMeshlet (mesh 7) (strip 5))).
Proof. vm_compute. reflexivity. Qed.

Lemma strip3_clusters :
  Meshopt.createMeshlets oneTrianglePerMeshlet (mesh 7) (strip 3)
  = Ok (clustersOf
          (Meshopt.createMeshlets oneTrianglePerMeshlet (mesh 7) (strip 3))).
Proof. vm_compute. reflexivity. Qed.

Lemma strip3_returns :
  build keepLeading true 7 (strip 3)
  = Ok (meshletsOf (build keepLeading true 7 (strip 3)),
        stateOf (build keepLeading true 7 (strip 3))).
Proof. vm_compute. reflexivity. Qed.

Lemma strip5_top :
  createdFrom <$> meshletsOf (build keepLeading true 7 (strip 5)) !! 7
  = Some [5; 6].
Proof. vm_compute. reflexivity. Qed.

Lemma hierarchy_is_layered_witness :
  ∃ m, meshletsOf (build keepLeading true 7 (strip 5)) !! 7 = Some m
       ∧ lodLevel m ≤ MAX_LODS
       ∧ Forall
           (λ c, c < 7
                 ∧ ∃ mc, meshletsOf (build keepLeading true 7 (strip 5)) !! c
                         = Some mc
                         ∧ S (lodLevel mc) = lodLevel m)
           (createdFrom m).
Proof.
  pose proof strip5_top as Htop.
  destruct (meshletsOf (build keepLeading true 7 (strip 5)) !! 7)
    as [m |] eqn:Hm; [| discriminate Htop].
  exists m. split; [reflexivity |].
  destruct (hierarchy_is_layered oneTrianglePerMeshlet triangleEdges onceOnly
              unitSphere halve keepLeading inOrder true (mesh 7) (strip 5)
              initial _ _ strip5_returns 7 m Hm) as (Hcap & _ & Hfrom).
  split; [exact Hcap | exact Hfrom].
Defined.


Lemma drawn_buffer_has_an_entry_per_cluster_witness :
  DrawnMeshlets.size
    (DrawnMeshlets.createDrawnMeshletsBuffer 256 "strip"
       (meshletsOf (build keepLeading true 7 (strip 5))) 3)
  = 256 + 256 + 5 * 3 * 8.
Proof.
  exact (drawn_buffer_has_an_entry_per_cluster oneTrianglePerMeshlet
           triangleEdges onceOnly unitSphere halve keepLeading inOrder true
           (mesh 7) (strip 5) initial _ _ _ 256 "strip" 3 strip5_returns
           strip5_clusters).
Defined.

Lemma children_carry_the_data_of_their_parents_witness :
  ∃ m mc, meshletsOf (build keepLeading true 7 (strip 5)) !! 7 = Some m
          ∧ meshletsOf (build keepLeading true 7 (strip 5)) !! 5 = Some mc
          ∧ isWIP_Root mc = false
          ∧ parentError mc = maxSiblingsError m
          ∧ parentBounds mc = Some (sharedSiblingsBounds m).
Proof.
  pose proof strip5_top as Htop.
  destruct (meshletsOf (build keepLeading true 7 (strip 5)) !! 7)
    as [m |] eqn:Hm; [| discriminate Htop].
  injection Htop as Hfrom.
  destruct (children_carry_the_data_of_their_parents oneTrianglePerMeshlet
              triangleEdges onceOnly unitSphere halve keepLeading inOrder true
              (mesh 7) (strip 5) initial _ _ inOrder_NoDup strip5_returns)
    as [Hdown _].
  destruct (Hdown 7 m 5 Hm) as (mc & Hmc & Hdata).
  - rewrite Hfrom. apply list_elem_of_here.
  - exists m, mc. split; [reflexivity |]. split; [exact Hmc | exact Hdata].
Defined.

Lemma small_mesh_has_one_root_witness :
  length (List.filter isWIP_Root
            (meshletsOf (build keepLeading true 7 (strip 3)))) = 1
  ∧ length (meshletsOf (build keepLeading true 7 (strip 3))) = 4.
Proof.
  destruct (small_mesh_has_one_root oneTrianglePerMeshlet triangleEdges
              onceOnly unitSphere halve keepLeading inOrder true (mesh 7)
              (strip 3) initial
              (stateOf (build keepLeading true 7 (strip 3)))
              (meshletsOf (build keepLeading true 7 (strip 3)))
              _ strip3_clusters) as (Hone & _ & _ & Hmore).
  - vm_compute. lia.
  - exact strip3_returns.
  - split; [exact Hone |].
    destruct Hmore as [Hlen _]; [vm_compute; lia | exact Hlen].
Defined.

Lemma error_grows_toward_the_roots_witness :
  ∃ m mc, meshletsOf (build keepLeading true 7 (strip 5)) !! 7 = Some m
          ∧ meshletsOf (build keepLeading true 7 (strip 5)) !! 5 = Some mc
          ∧ ge (maxSiblingsError m) (maxSiblingsError mc) = true.
Proof.
  pose proof strip5_top as Htop.
  destruct (meshletsOf (build keepLeading true 7 (strip 5)) !! 7)
    as [m |] eqn:Hm; [| discriminate Htop].
  injection Htop as Hfrom.
  destruct (error_grows_toward_the_roots oneTrianglePerMeshlet triangleEdges
              onceOnly unitSphere halve keepLeading inOrder true (mesh 7)
              (strip 5) initial _ _ keepLeading_error inOrder_NoDup
              strip5_returns 7 m 5 Hm) as (mc & Hmc & Hge).
  - rewrite Hfrom. apply list_elem_of_here.
  - exists m, mc. split; [reflexivity |]. split; [exact Hmc | exact Hge].
Defined.

Lemma strip5_head_pastTheEnd :
  levelStart oneTrianglePerMeshlet triangleEdges onceOnly unitSphere halve
    keepLeading pastTheEnd true (mesh 7) (strip 5) initial 20 1 (seq 0 5)
    (leaves 5).
Proof. apply levelStart_first. vm_compute. reflexivity. Qed.

Lemma part_index_out_of_range_raises_witness :
  createNaniteMeshlets oneTrianglePerMeshlet triangleEdges onceOnly unitSphere
    halve keepLeading pastTheEnd true (mesh 7) (strip 5) initial
  = Throw TypeError.
Proof.
  apply (part_index_out_of_range_raises oneTrianglePerMeshlet triangleEdges
           onceOnly unitSphere halve keepLeading pastTheEnd true (mesh 7)
           (strip 5) initial 19 1 (seq 0 5) (leaves 5) [4; 5] 5
           strip5_head_pastTheEnd).
  - unfold GROUP_SIZE. cbn. lia.
  - apply list_elem_of_In. vm_compute. auto.
  - apply list_elem_of_In. cbn. auto.
  - cbn. lia.
Defined.

Lemma strip5_head_oneFullPart :
  levelStart oneTrianglePerMeshlet triangleEdges onceOnly unitSphere halve
    keepLeading oneFullPart true (mesh 7) (strip 5) initial 20 1 (seq 0 5)
    (leaves 5).
Proof. apply levelStart_first. vm_compute. reflexivity. Qed.

Lemma empty_part_raises_witness :
  createNaniteMeshlets oneTrianglePerMeshlet triangleEdges onceOnly unitSphere
    halve keepLeading oneFullPart true (mesh 7) (strip 5) initial
  = Throw TypeError.
Proof.
  destruct (empty_part_raises oneTrianglePerMeshlet triangleEdges onceOnly
              unitSphere halve keepLeading oneFullPart true (mesh 7) (strip 5)
              initial 19 1 (seq 0 5) (leaves 5) strip5_head_oneFullPart)
    as [_ Hraise].
  - cbn. lia.
  - apply list_elem_of_In. vm_compute. auto.
  - vm_compute. lia.
  - reflexivity.
  - reflexivity.
  - exact Hraise.
Defined.

Lemma meshlets_keep_what_they_were_created_with_witness :
  ∃ m m', allMeshlets (leaves 5) !! 0 = Some m
          ∧ meshletsOf (build keepLeading true 7 (strip 5)) !! 0 = Some m'
          ∧ indices m' = indices m
          ∧ maxSiblingsError m' = maxSiblingsError m.
Proof.
  assert (Hleaf : indices <$> allMeshlets (leaves 5) !! 0 = Some [0; 1; 2])
    by (vm_compute; reflexivity).
  destruct (allMeshlets (leaves 5) !! 0) as [m |] eqn:Hm; [| discriminate Hleaf].
  destruct (meshlets_keep_what_they_were_created_with oneTrianglePerMeshlet
              triangleEdges onceOnly unitSphere halve keepLeading inOrder true
              (mesh 7) (strip 5) initial 20 1 (seq 0 5) (leaves 5) _ _ 0 m
              strip5_head strip5_returns Hm)
    as [(m' & Hm' & _ & _ & _ & Hidx & _ & Herr & _) _].
  exists m, m'. split; [reflexivity |]. split; [exact Hm' |].
  split; [exact Hidx | exact Herr].
Defined.

End StructureSampleFacts.


(** ** The debug LODs of a scene *)

Module SceneLODsFacts.
Import SceneLODs.

Section MeshLODsFacts.

Variable GPUBuffer : Type.
Variable createGPU_IndexBuffer : string → Indices → GPUBuffer.
Variable simplifyMesh : list Q → Indices → number → number → SimplifiedMesh.
Variable originalMesh : Mesh GPUBuffer.
Variable vertices : list Q.
Variable originalIndices : Indices.

Local Abbreviation lodsLoop' :=
  (lodsLoop GPUBuffer createGPU_IndexBuffer simplifyMesh originalMesh vertices
     originalIndices).
Local Abbreviation lodAfter' :=
  (lodAfter GPUBuffer createGPU_IndexBuffer simplifyMesh originalMesh vertices
     originalIndices).
Local Abbreviation createMeshLODs' :=
  (createMeshLODs GPUBuffer createGPU_IndexBuffer simplifyMesh originalMesh
     vertices originalIndices).
Local Abbreviation original := (originalTriangleCount originalIndices).

(** More fuel than the loop can use changes nothing. *)
Lemma lodsLoop_fuel (fuel fuel' : nat) (triangleCount : number)
  (meshLODs : list (Mesh GPUBuffer)) :
  MAX_LODS ≤ length meshLODs + fuel →
  MAX_LODS ≤ length meshLODs + fuel' →
  lodsLoop' fuel triangleCount meshLODs = lodsLoop' fuel' triangleCount meshLODs.
Proof.
  revert fuel' triangleCount meshLODs.
  induction fuel as [| fuel IH]; intros fuel' tc lods Hfuel Hfuel'.
  - destruct fuel' as [| fuel']; [done |]. cbn [lodsLoop].
    replace (length lods <? MAX_LODS) with false
      by (symmetry; apply Nat.ltb_ge; lia).
    by rewrite andb_false_r.
  - destruct fuel' as [| fuel'].
    + cbn [lodsLoop].
      replace (length lods <? MAX_LODS) with false
        by (symmetry; apply Nat.ltb_ge; lia).
      by rewrite andb_false_r.
    + cbn [lodsLoop]. cbv zeta.
      destruct (gt tc _ && _); [| done].
      destruct (strictEq _ _); [done |].
      apply IH; rewrite length_app; cbn; lia.
Qed.

(** What holds of the list whenever the loop condition is evaluated. *)
Lemma lodsLoop_spec (fuel : nat) (triangleCount : number)
  (rest : list (Mesh GPUBuffer)) :
  length rest < MAX_LODS →
  (rest = [] → triangleCount = original) →
  (∀ prev, last rest = Some prev →
           triangleCount = SceneLODs.triangleCount GPUBuffer prev) →
  (∀ level mesh, rest !! level = Some mesh →
     ∃ triangleCountBefore,
       mesh = lodAfter' triangleCountBefore (S level)
       ∧ (level = 0 → triangleCountBefore = original)
       ∧ (∀ prev, (originalMesh :: rest) !! level = Some prev → 1 ≤ level →
                  triangleCountBefore = SceneLODs.triangleCount GPUBuffer prev)
       ∧ strictEq (SceneLODs.triangleCount GPUBuffer mesh) original = false) →
  ∃ rest',
    lodsLoop' fuel triangleCount (originalMesh :: rest) = originalMesh :: rest'
    ∧ length rest' < MAX_LODS
    ∧ (∀ level mesh, rest' !! level = Some mesh →
         ∃ triangleCountBefore,
           mesh = lodAfter' triangleCountBefore (S level)
           ∧ (level = 0 → triangleCountBefore = original)
           ∧ (∀ prev, (originalMesh :: rest') !! level = Some prev → 1 ≤ level →
                      triangleCountBefore
                      = SceneLODs.triangleCount GPUBuffer prev)
           ∧ strictEq (SceneLODs.triangleCount GPUBuffer mesh) original = false).
Proof.
  revert triangleCount rest.
  induction fuel as [| fuel IH]; intros tc rest Hlen Hfirst Hlast Hgood.
  - exists rest. done.
  - cbn [lodsLoop]. cbv zeta.
    destruct (gt tc _ && _) eqn:Hcond; [| by exists rest].
    apply andb_true_iff in Hcond as [_ Hroom]. apply Nat.ltb_lt in Hroom.
    cbn [length] in Hroom.
    fold (lodAfter' tc (length (originalMesh :: rest))).
    set (new := lodAfter' tc (length (originalMesh :: rest))).
    change (getTriangleCount _) with (SceneLODs.triangleCount GPUBuffer new).
    destruct (strictEq (SceneLODs.triangleCount GPUBuffer new) _) eqn:Hsame;
      [by exists rest |].
    change ((originalMesh :: rest) ++ [new]) with (originalMesh :: (rest ++ [new])).
    apply IH.
    + rewrite length_app. cbn. lia.
    + intros Hnil. by destruct rest.
    + intros prev Hprev. rewrite last_snoc in Hprev. by injection Hprev as <-.
    + intros level mesh Hmesh.
      destruct (decide (level < length rest)) as [Hold | Hnew].
      * rewrite lookup_app_l in Hmesh by done.
        destruct (Hgood level mesh Hmesh) as (before & -> & H0 & Hprev & Hne).
        exists before. split; [done |]. split; [done |]. split; [| done].
        intros prev Hp. apply Hprev.
        change (originalMesh :: (rest ++ [new]))
          with ((originalMesh :: rest) ++ [new]) in Hp.
        rewrite lookup_app_l in Hp by (cbn; lia). done.
      * rewrite lookup_app_r in Hmesh by lia.
        destruct (level - length rest) as [| k] eqn:Hk; [| done].
        injection Hmesh as <-.
        assert (level = length rest) as -> by lia.
        exists tc. split; [done |]. split; [| split; [| done]].
        -- intros Hzero. apply Hfirst. by destruct rest.
        -- intros prev Hp Hpos. apply Hlast.
           change (originalMesh :: (rest ++ [new]))
             with ((originalMesh :: rest) ++ [new]) in Hp.
           rewrite lookup_app_l in Hp by (cbn; lia).
           destruct rest as [| r rest'] using rev_ind; [cbn in Hpos; lia |].
           rewrite last_snoc.
           rewrite length_app, Nat.add_1_r in Hp.
           change ((rest' ++ [r]) !! length rest' = Some prev) in Hp.
           rewrite lookup_app_r in Hp by lia.
           rewrite Nat.sub_diag in Hp. done.
Qed.

(** X14: [createMeshLODs] returns between one and [MAX_LODS] = 10 meshes,
    the original mesh first.  LOD [k] has the vertex buffer of the original
    mesh and an index buffer labelled [lod-test-index-buffer-k]; it is what
    the simplifier makes of the original indices (not of the previous LOD)
    when asked for half the indices of LOD [k - 1], and is kept only when its
    triangle count differs from the original's. *)
Theorem debug_lods_come_from_the_original_mesh :
  (∀ fuel, MAX_LODS ≤ fuel → lodsLoop' fuel original [originalMesh]
                              = createMeshLODs')
  ∧ 1 ≤ length createMeshLODs' ≤ MAX_LODS
  ∧ createMeshLODs' !! 0 = Some originalMesh
  ∧ (∀ level mesh, createMeshLODs' !! S level = Some mesh →
       vertexBuffer GPUBuffer mesh = vertexBuffer GPUBuffer originalMesh
       ∧ strictEq (SceneLODs.triangleCount GPUBuffer mesh) original = false
       ∧ ∃ triangleCountBefore,
           mesh = lodAfter' triangleCountBefore (S level)
           ∧ (level = 0 → triangleCountBefore = original)
           ∧ (∀ prev, createMeshLODs' !! level = Some prev → 1 ≤ level →
                      triangleCountBefore
                      = SceneLODs.triangleCount GPUBuffer prev)).
Proof.
  split.
  { intros fuel Hfuel. unfold createMeshLODs.
    apply lodsLoop_fuel; cbn [length]; lia. }
  destruct (lodsLoop_spec MAX_LODS original []) as (rest & Hrun & Hlen & Hgood).
  - cbn. unfold MAX_LODS. lia.
  - done.
  - intros prev Hprev. discriminate Hprev.
  - intros level mesh Hmesh. discriminate Hmesh.
  - unfold createMeshLODs. rewrite Hrun. cbn [length].
    split; [lia |]. split; [done |].
    intros level mesh Hmesh. cbn in Hmesh.
    destruct (Hgood level mesh Hmesh) as (before & -> & H0 & Hprev & Hne).
    split; [done |]. split; [done |].
    exists before. done.
Qed.

End MeshLODsFacts.

End SceneLODsFacts.
